(** * LiteMark.js: the markdown-to-HTML converter [markdownToHtml]

    A shallow embedding of [src/source/LiteMark.js].  JavaScript strings are
    sequences of UTF-16 code units, modelled as lists of [N].  The regular
    expressions of the source are kept as syntax trees and run by a
    backtracking matcher that follows the ECMAScript pattern semantics
    (continuation passing, greedy and lazy quantifiers, capture groups,
    look-ahead and look-behind, multi-line anchors). *)

From Stdlib Require Import String Ascii.
From Stdlib Require Import NArith Arith Lia Bool List.
From Stdlib Require Decimal.
Import ListNotations.
Local Open Scope list_scope.

Set Implicit Arguments.

(** ** Code units and strings *)

Definition char := N.
Definition str := list char.

Definition ch (a : ascii) : char := N_of_ascii a.
Arguments ch a%_char.

Definition js (s : string) : str := map N_of_ascii (list_ascii_of_string s).
Arguments js s%_string.

Definition NL : char := 10%N.
Definition CR : char := 13%N.
Definition DQ : char := 34%N.

Definition in_range (lo hi c : char) : bool := (N.leb lo c && N.leb c hi)%bool.

(** ECMAScript LineTerminator: LF, CR, LS, PS. *)
Definition is_term (c : char) : bool :=
  (N.eqb c 10%N || N.eqb c 13%N || N.eqb c 8232%N || N.eqb c 8233%N)%bool.

(** ECMAScript WhiteSpace and LineTerminator: what [\s] matches and what
    [trim] strips. *)
Definition is_ws (c : char) : bool :=
  (in_range 9%N 13%N c || N.eqb c 32%N || N.eqb c 160%N || N.eqb c 5760%N
   || in_range 8192%N 8202%N c || N.eqb c 8232%N || N.eqb c 8233%N
   || N.eqb c 8239%N || N.eqb c 8287%N || N.eqb c 12288%N
   || N.eqb c 65279%N)%bool.

Definition is_digit (c : char) : bool := in_range 48%N 57%N c.

Definition is_word (c : char) : bool :=
  (in_range 97%N 122%N c || in_range 65%N 90%N c || is_digit c
   || N.eqb c 95%N)%bool.

Definition str_eqb (a b : str) : bool :=
  if list_eq_dec N.eq_dec a b then true else false.

(** ** String primitives of the JavaScript runtime *)

Fixpoint starts_with (p s : str) : bool :=
  match p, s with
  | [], _ => true
  | _ :: _, [] => false
  | a :: p', b :: s' => (N.eqb a b && starts_with p' s')%bool
  end.

Fixpoint dropWhile (f : char -> bool) (s : str) : str :=
  match s with
  | [] => []
  | c :: s' => if f c then dropWhile f s' else s
  end.

Definition trimStart (s : str) : str := dropWhile is_ws s.
Definition trimEnd (s : str) : str := rev (dropWhile is_ws (rev s)).
Definition trim (s : str) : str := trimEnd (trimStart s).

(** [s.split(sep)] for a one-unit separator: never an empty array. *)
Fixpoint split_on (sep : char) (s : str) : list str :=
  match s with
  | [] => [[]]
  | c :: s' =>
      if N.eqb c sep then [] :: split_on sep s'
      else match split_on sep s' with
           | [] => [[c]]
           | l :: ls => (c :: l) :: ls
           end
  end.

Fixpoint join (sep : str) (ls : list str) : str :=
  match ls with
  | [] => []
  | [l] => l
  | l :: ls' => l ++ sep ++ join sep ls'
  end.

(** Decimal rendering of a counter, as template literals do. *)
Fixpoint uint_digits (u : Decimal.uint) : str :=
  match u with
  | Decimal.Nil => []
  | Decimal.D0 u' => 48%N :: uint_digits u'
  | Decimal.D1 u' => 49%N :: uint_digits u'
  | Decimal.D2 u' => 50%N :: uint_digits u'
  | Decimal.D3 u' => 51%N :: uint_digits u'
  | Decimal.D4 u' => 52%N :: uint_digits u'
  | Decimal.D5 u' => 53%N :: uint_digits u'
  | Decimal.D6 u' => 54%N :: uint_digits u'
  | Decimal.D7 u' => 55%N :: uint_digits u'
  | Decimal.D8 u' => 56%N :: uint_digits u'
  | Decimal.D9 u' => 57%N :: uint_digits u'
  end.

Definition num_to_str (n : nat) : str := uint_digits (Nat.to_uint n).

(** ** Regular expressions *)

Inductive citem :=
| CC (c : char)           (* a literal code unit *)
| CRange (lo hi : char)   (* a-z *)
| CSpace                  (* \s *)
| CWord                   (* \w *)
| CDigit.                 (* \d *)

Inductive cclass :=
| Cls (neg : bool) (items : list citem)   (* [...] and [^...] *)
| Dot.                                    (* . *)

Definition citem_match (i : citem) (c : char) : bool :=
  match i with
  | CC d => N.eqb c d
  | CRange lo hi => in_range lo hi c
  | CSpace => is_ws c
  | CWord => is_word c
  | CDigit => is_digit c
  end.

Definition cmatch (k : cclass) (c : char) : bool :=
  match k with
  | Cls neg items => xorb neg (existsb (fun i => citem_match i c) items)
  | Dot => negb (is_term c)
  end.

Inductive regex :=
| Eps
| Chr (k : cclass)
| Seq (r1 r2 : regex)
| Alt (r1 r2 : regex)
| Rep (greedy : bool) (min : nat) (max : option nat) (r : regex)
| Grp (n : nat) (r : regex)
| Bol                      (* ^ *)
| Eol                      (* $ *)
| Look (ahead positive : bool) (r : regex).

Fixpoint groups (r : regex) : list nat :=
  match r with
  | Eps | Chr _ | Bol | Eol => []
  | Seq a b | Alt a b => groups a ++ groups b
  | Rep _ _ _ a => groups a
  | Grp n a => n :: groups a
  | Look _ _ a => groups a
  end.

(** Match state: the input split at the current position ([bef] is the
    consumed part, reversed) and the captures. *)
Record mstate := MState { bef : str; aft : str; caps : list (nat * str) }.

Definition cont := mstate -> option mstate.

Fixpoint cap_get (n : nat) (cs : list (nat * str)) : option str :=
  match cs with
  | [] => None
  | (k, v) :: cs' => if Nat.eqb k n then Some v else cap_get n cs'
  end.

Definition cap_clear (gs : list nat) (cs : list (nat * str)) : list (nat * str) :=
  filter (fun kv => negb (existsb (Nat.eqb (fst kv)) gs)) cs.

Definition clear_groups (gs : list nat) (x : mstate) : mstate :=
  MState (bef x) (aft x) (cap_clear gs (caps x)).

(** The text between two states of one run, read in the direction [fwd]. *)
Definition between (fwd : bool) (x y : mstate) : str :=
  if fwd then firstn (length (aft x) - length (aft y)) (aft x)
  else firstn (length (aft y) - length (aft x)) (aft y).

Definition set_cap (n : nat) (v : str) (y : mstate) : mstate :=
  MState (bef y) (aft y) ((n, v) :: caps y).

Definition at_bol (ml : bool) (x : mstate) : bool :=
  match bef x with
  | [] => true
  | c :: _ => (ml && is_term c)%bool
  end.

Definition at_eol (ml : bool) (x : mstate) : bool :=
  match aft x with
  | [] => true
  | c :: _ => (ml && is_term c)%bool
  end.

Definition step_char (fwd : bool) (k : cclass) (x : mstate) : option mstate :=
  if fwd then
    match aft x with
    | c :: a => if cmatch k c then Some (MState (c :: bef x) a (caps x)) else None
    | [] => None
    end
  else
    match bef x with
    | c :: b => if cmatch k c then Some (MState b (c :: aft x) (caps x)) else None
    | [] => None
    end.

Definition max_zero (mx : option nat) : bool :=
  match mx with Some 0 => true | _ => false end.

Definition max_pred (mx : option nat) : option nat :=
  match mx with Some n => Some (pred n) | None => None end.

(** RepeatMatcher of the ECMAScript specification.  [body] is the matcher
    of the quantified atom, [gs] its capture groups (reset at each
    iteration).  An iteration that consumes nothing once [min] is reached
    is rejected, so the number of iterations is bounded by the input
    length plus [min]: [fuel] is that bound. *)
Fixpoint rep_loop (body : mstate -> cont -> option mstate) (gs : list nat)
    (greedy : bool) (fuel min : nat) (max : option nat) (x : mstate)
    (k : cont) {struct fuel} : option mstate :=
  match fuel with
  | O => None
  | S fuel' =>
      if max_zero max then k x
      else
        let d := fun y : mstate =>
          if (Nat.eqb min 0 && Nat.eqb (length (aft y)) (length (aft x)))%bool
          then None
          else rep_loop body gs greedy fuel' (pred min) (max_pred max) y k in
        let xr := clear_groups gs x in
        if negb (Nat.eqb min 0) then body xr d
        else if greedy then
          match body xr d with
          | Some z => Some z
          | None => k x
          end
        else
          match k x with
          | Some z => Some z
          | None => body xr d
          end
  end.

(** The matcher [m ml r fwd x k]: match [r] at state [x] in direction [fwd]
    and hand the resulting state to the continuation [k]; [ml] is the
    multi-line flag. *)
Fixpoint m (ml : bool) (r : regex) (fwd : bool) (x : mstate) (k : cont)
    {struct r} : option mstate :=
  match r with
  | Eps => k x
  | Chr c =>
      match step_char fwd c x with
      | Some y => k y
      | None => None
      end
  | Seq r1 r2 =>
      if fwd then m ml r1 fwd x (fun y => m ml r2 fwd y k)
      else m ml r2 fwd x (fun y => m ml r1 fwd y k)
  | Alt r1 r2 =>
      match m ml r1 fwd x k with
      | Some z => Some z
      | None => m ml r2 fwd x k
      end
  | Rep greedy mn mx r1 =>
      rep_loop (m ml r1 fwd) (groups r1) greedy
        (S (mn + length (bef x) + length (aft x))) mn mx x k
  | Grp n r1 =>
      m ml r1 fwd x (fun y => k (set_cap n (between fwd x y) y))
  | Bol => if at_bol ml x then k x else None
  | Eol => if at_eol ml x then k x else None
  | Look ahead positive r1 =>
      match m ml r1 ahead x (fun y => Some y) with
      | Some y =>
          if positive then k (MState (bef x) (aft x) (caps y)) else None
      | None => if positive then None else k x
      end
  end.

(** One attempt at the current position. *)
Definition exec_at (ml : bool) (r : regex) (b a : str) : option mstate :=
  m ml r true (MState b a []) (fun y => Some y).

(** [RegExp.prototype.exec] from the start of [a]: the first position at
    which the pattern matches, with the start and end states. *)
Fixpoint search (ml : bool) (r : regex) (b a : str) {struct a}
  : option (mstate * mstate) :=
  match exec_at ml r b a with
  | Some y => Some (MState b a [], y)
  | None =>
      match a with
      | [] => None
      | c :: a' => search ml r (c :: b) a'
      end
  end.

Definition test (ml : bool) (r : regex) (s : str) : bool :=
  match search ml r [] s with Some _ => true | None => false end.

(** The matched text of a successful attempt. *)
Definition matched (x y : mstate) : str := between true x y.

(** ** Replacement *)

(** GetSubstitution of the ECMAScript specification, for a pattern with
    [ncaps] capture groups and no named groups. *)
Fixpoint getSubstitution (mt before after : str) (ncaps : nat)
    (cs : list (nat * str)) (t : str) {struct t} : str :=
  let capture n := match cap_get n cs with Some v => v | None => [] end in
  let idx d := N.to_nat (d - 48)%N in
  match t with
  | [] => []
  | c :: t1 =>
      if negb (N.eqb c 36%N) then c :: getSubstitution mt before after ncaps cs t1
      else
        match t1 with
        | [] => [c]
        | d :: t2 =>
            let one :=
              if (Nat.leb 1 (idx d) && Nat.leb (idx d) ncaps)%bool
              then capture (idx d) ++ getSubstitution mt before after ncaps cs t2
              else c :: d :: getSubstitution mt before after ncaps cs t2 in
            if N.eqb d 36%N then 36%N :: getSubstitution mt before after ncaps cs t2
            else if N.eqb d 96%N then before ++ getSubstitution mt before after ncaps cs t2
            else if N.eqb d 38%N then mt ++ getSubstitution mt before after ncaps cs t2
            else if N.eqb d 39%N then after ++ getSubstitution mt before after ncaps cs t2
            else if is_digit d then
              match t2 with
              | e :: t3 =>
                  if is_digit e then
                    let i2 := 10 * idx d + idx e in
                    if Nat.ltb ncaps i2 then one
                    else if Nat.leb 1 i2
                         then capture i2 ++ getSubstitution mt before after ncaps cs t3
                         else c :: d :: e :: getSubstitution mt before after ncaps cs t3
                  else one
              | [] => one
              end
            else c :: getSubstitution mt before after ncaps cs t1
        end
  end.

(** [String.prototype.replace] with a global pattern and a function that
    threads a state [S] (the closure variables the callback updates).
    [skip] counts the code units of the previous match still to be passed
    over.  [f st x y] receives the start and end states of the match. *)
Section GlobalReplace.
Variable St : Type.
Variable ml : bool.
Variable r : regex.
Variable f : St -> mstate -> mstate -> str * St.

Fixpoint gsub_from (b a : str) (skip : nat) (st : St) {struct a} : str * St :=
  match skip with
  | S k =>
      match a with
      | [] => ([], st)
      | c :: a' => gsub_from (c :: b) a' k st
      end
  | O =>
      match exec_at ml r b a with
      | Some y =>
          let x := MState b a [] in
          let '(rp, st1) := f st x y in
          let len := length (matched x y) in
          match a with
          | [] => (rp, st1)
          | c :: a' =>
              match len with
              | O =>
                  let '(out, st2) := gsub_from (c :: b) a' 0 st1 in
                  (rp ++ c :: out, st2)
              | S l =>
                  let '(out, st2) := gsub_from (c :: b) a' l st1 in
                  (rp ++ out, st2)
              end
          end
      | None =>
          match a with
          | [] => ([], st)
          | c :: a' =>
              let '(out, st2) := gsub_from (c :: b) a' 0 st in
              (c :: out, st2)
          end
      end
  end.

Definition gsubS (s : str) (st : St) : str * St := gsub_from [] s 0 st.
End GlobalReplace.

(** Global replace with a pure callback. *)
Definition gsub (ml : bool) (r : regex) (f : mstate -> mstate -> str) (s : str) : str :=
  fst (gsubS ml r (fun (_ : unit) x y => (f x y, tt)) s tt).

(** Global replace with a replacement template. *)
Definition template (ncaps : nat) (t : str) (x y : mstate) : str :=
  getSubstitution (matched x y) (rev (bef x)) (aft y) ncaps (caps y) t.

Definition gsubT (ml : bool) (r : regex) (ncaps : nat) (t : str) (s : str) : str :=
  gsub ml r (template ncaps t) s.

(** [s.replace(re, f)] with a pattern that is not global: first match only. *)
Definition replace_first (ml : bool) (r : regex) (f : mstate -> mstate -> str)
    (s : str) : str :=
  match search ml r [] s with
  | Some (x, y) => rev (bef x) ++ f x y ++ aft y
  | None => s
  end.

(** First occurrence of a string pattern: the text before it and after it. *)
Fixpoint find_sub (p : str) (b a : str) {struct a} : option (str * str) :=
  if starts_with p a then Some (rev b, skipn (length p) a)
  else match a with
       | [] => None
       | c :: a' => find_sub p (c :: b) a'
       end.

(** [s.replace(p, t)] for strings [p] and [t]: the first occurrence, with
    the dollar patterns of [t] expanded. *)
Definition replace_str (p t s : str) : str :=
  match find_sub p [] s with
  | Some (before, after) =>
      before ++ getSubstitution p before after 0 [] t ++ after
  | None => s
  end.

(** [s.replaceAll(p, t)] for a non-empty string [p]. *)
Fixpoint replaceAll_from (p t : str) (b a : str) (skip : nat) {struct a} : str :=
  match a with
  | [] => []
  | c :: a' =>
      match skip with
      | S k => replaceAll_from p t (c :: b) a' k
      | O =>
          if starts_with p a then
            getSubstitution p (rev b) (skipn (length p) a) 0 [] t
              ++ replaceAll_from p t (c :: b) a' (pred (length p))
          else c :: replaceAll_from p t (c :: b) a' 0
      end
  end.

Definition replaceAll (p t s : str) : str := replaceAll_from p t [] s 0.

(** ** Building patterns

    Each pattern below is preceded by its source text.  There the double
    quote is written DQ, and a star that directly precedes a closing
    parenthesis is written as the equivalent quantifier {0,}. *)

Definition c1 (c : char) : regex := Chr (Cls false [CC c]).
Definition set (s : str) : regex := Chr (Cls false (map CC s)).
Definition nset (s : str) : regex := Chr (Cls true (map CC s)).

Fixpoint lit (s : str) : regex :=
  match s with
  | [] => Eps
  | [c] => c1 c
  | c :: s' => Seq (c1 c) (lit s')
  end.

Fixpoint seqs (rs : list regex) : regex :=
  match rs with
  | [] => Eps
  | [r] => r
  | r :: rs' => Seq r (seqs rs')
  end.

Definition star (r : regex) : regex := Rep true 0 None r.
Definition plus (r : regex) : regex := Rep true 1 None r.
Definition opt (r : regex) : regex := Rep true 0 (Some 1) r.
Definition lazy_star (r : regex) : regex := Rep false 0 None r.
Definition lazy_plus (r : regex) : regex := Rep false 1 None r.
Definition rep_min (n : nat) (r : regex) : regex := Rep true n None r.

Definition SP : char := 32%N.
Definition sp : regex := c1 SP.
Definition ws : regex := Chr (Cls false [CSpace]).
Definition nonws : regex := Chr (Cls true [CSpace]).
Definition digit : regex := Chr (Cls false [CDigit]).
Definition nonword : regex := Chr (Cls true [CWord]).
Definition any : regex := Chr Dot.
Definition nl_or_eol : regex := Alt (c1 NL) Eol.

(** A double-quoted attribute value. *)
Definition q (s : str) : str := DQ :: s ++ [DQ].

Definition cap (n : nat) (y : mstate) : str :=
  match cap_get n (caps y) with Some v => v | None => [] end.

(** ** Results *)

Inductive res (A : Type) : Type :=
| Ok (a : A)
| Throw        (* a JavaScript exception *)
| OutOfFuel.   (* a recursion went deeper than its bound; for the converter
                  itself the bound is the room of the call stack, and this
                  is the RangeError of the engine *)
Arguments Ok {A} a.
Arguments Throw {A}.
Arguments OutOfFuel {A}.

Definition bind {A B : Type} (r : res A) (f : A -> res B) : res B :=
  match r with
  | Ok a => f a
  | Throw => Throw
  | OutOfFuel => OutOfFuel
  end.

Notation "x <- e ;; k" := (bind e (fun x => k))
  (at level 61, e at next level, right associativity).

Fixpoint mapM {A B : Type} (f : A -> res B) (l : list A) : res (list B) :=
  match l with
  | [] => Ok []
  | a :: l' => b <- f a ;; bs <- mapM f l' ;; Ok (b :: bs)
  end.

(** ** escapeHtml (lines 60-71) *)

(** "/&(?![a-zA-Z]+;)|[<>DQ']/g", where DQ stands for the double quote *)
Definition re_escapeHtml : regex :=
  Alt (Seq (c1 (ch "&"))
           (Look true false
              (Seq (plus (Chr (Cls false [CRange (ch "a") (ch "z");
                                          CRange (ch "A") (ch "Z")])))
                   (c1 (ch ";")))))
      (set [ch "<"; ch ">"; DQ; ch "'"]).

Definition escapeHtml_entity (mt : str) : str :=
  if str_eqb mt (js "&") then js "&amp;"
  else if str_eqb mt (js "<") then js "&lt;"
  else if str_eqb mt (js ">") then js "&gt;"
  else if str_eqb mt [DQ] then js "&quot;"
  else if str_eqb mt (js "'") then js "&#39;"
  else mt.

Definition escapeHtml (html : str) : str :=
  gsub false re_escapeHtml (fun x y => escapeHtml_entity (matched x y)) html.

(** ** The closure variables of one call (lines 73-80) *)

Record tables := Tables {
  codeBlocks : list (str * str);          (* placeholder, html *)
  inlineCodeBlocks : list (str * str);    (* placeholder, code *)
  escapePlaceholders : list (str * str);  (* placeholder, ch *)
  codeIndex : nat;
  inlineIndex : nat;
  escapeIndex : nat
}.

Definition tables0 : tables := Tables [] [] [] 0 0 0.

(** ** Escaped characters (lines 83-87) *)

(** The punctuation of /\\([\\`*_{}\[\]()#+\-.!~>])/g *)
Definition escape_set : str := js "\`*_{}[]()#+-.!~>".

Definition re_escape : regex := Seq (c1 (ch "\")) (Grp 1 (set escape_set)).

Definition escape_cb (t : tables) (x y : mstate) : str * tables :=
  let placeholder := js "<!--escaped_" ++ num_to_str (escapeIndex t) ++ js "-->" in
  (placeholder,
   Tables (codeBlocks t) (inlineCodeBlocks t)
          (escapePlaceholders t ++ [(placeholder, cap 1 y)])
          (codeIndex t) (inlineIndex t) (S (escapeIndex t))).

Definition escapePass (md : str) (t : tables) : str * tables :=
  gsubS false re_escape escape_cb md t.

(** ** parseBackticks (lines 98-212) *)

(** "/[^\s\n]/" *)
Definition re_nonspace : regex := Chr (Cls true [CSpace; CC NL]).

(** The language tag after an opening fence (lines 115-118). *)
Fixpoint lang_scan (s : str) : str * str :=
  match s with
  | [] => ([], [])
  | c :: s' =>
      if test false re_nonspace [c] then
        if (N.eqb c CR || N.eqb c NL)%bool then ([], s)
        else let '(l, rest) := lang_scan s' in (c :: l, rest)
      else ([], s)
  end.

Definition skip_char (c : char) (s : str) : str :=
  match s with
  | d :: s' => if N.eqb d c then s' else s
  | [] => s
  end.

Definition is_blank (l : str) : bool :=
  match trim l with [] => true | _ => false end.

Fixpoint dropWhileL {A : Type} (f : A -> bool) (l : list A) : list A :=
  match l with
  | [] => []
  | a :: l' => if f a then dropWhileL f l' else l
  end.

(** "/^ */" *)
Definition re_spaces : regex := Seq Bol (star sp).

(** [l.match(/^ */)[0].length]: a null match would throw. *)
Definition leading_spaces (l : str) : res nat :=
  match search false re_spaces [] l with
  | Some (x, y) => Ok (length (matched x y))
  | None => Throw
  end.

Fixpoint min_indent (lines : list str) (acc : nat) : res nat :=
  match lines with
  | [] => Ok acc
  | l :: ls =>
      if negb (is_blank l) then
        spaces <- leading_spaces l ;;
        min_indent ls (if Nat.ltb spaces acc then spaces else acc)
      else min_indent ls acc
  end.

Fixpoint restore_escapes_all (esc : list (str * str)) (s : str) : str :=
  match esc with
  | [] => s
  | (placeholder, c) :: esc' => restore_escapes_all esc' (replaceAll placeholder c s)
  end.

Definition BT : char := 96%N.
Definition fence : str := [BT; BT; BT].

(** The body of a fenced block (lines 137-162): the lines of [codeText]
    without blank lines at either end, dedented, escapes restored,
    HTML-escaped and wrapped. *)
Definition code_block_html (t : tables) (lang codeText : str) : res str :=
  let lines := split_on NL (gsub false (c1 CR) (fun _ _ => []) codeText) in
  let lines := dropWhileL is_blank lines in
  let lines := rev (dropWhileL is_blank (rev lines)) in
  minIndent <- min_indent lines 9999 ;;
  let cleaned := join [NL] (map (skipn minIndent) lines) in
  let cleaned := restore_escapes_all (escapePlaceholders t) cleaned in
  let l := trim lang in
  Ok (js "<pre class=" ++ q (js "language-" ++ match l with [] => js "plaintext" | _ => l end)
      ++ js "><code>" ++ escapeHtml cleaned ++ js "</code></pre>").

(** One step of the scanning loop at a position where [src] is what is
    left of the input: the text to append to [out], the number of code
    units consumed, and the updated tables. *)
Definition backtick_step (src : str) (t : tables) : res (str * nat * tables) :=
  if starts_with fence src then
    let '(lang, s1) := lang_scan (skipn 3 src) in
    let s2 := skip_char CR s1 in
    let s3 := skip_char NL s2 in
    let skipped := length (skipn 3 src) - length s3 in
    let '(codeText, closing) :=
      match find_sub fence [] s3 with
      | Some (before, _) => (before, 3)
      | None => (s3, 0)
      end in
    let placeholder := js "<!--codeblock_" ++ num_to_str (codeIndex t) ++ js "-->" in
    html <- code_block_html t lang codeText ;;
    Ok (placeholder, 3 + skipped + length codeText + closing,
        Tables (codeBlocks t ++ [(placeholder, html)]) (inlineCodeBlocks t)
               (escapePlaceholders t) (S (codeIndex t)) (inlineIndex t)
               (escapeIndex t))
  else
    let inline (codeText : str) (used : nat) :=
      let placeholder := js "<!--inlinecode_" ++ num_to_str (inlineIndex t) ++ js "-->" in
      Ok (placeholder, used,
          Tables (codeBlocks t) (inlineCodeBlocks t ++ [(placeholder, codeText)])
                 (escapePlaceholders t) (codeIndex t) (S (inlineIndex t))
                 (escapeIndex t)) in
    if starts_with [BT; BT] src then
      match find_sub [BT; BT] [] (skipn 2 src) with
      | Some (before, _) => inline before (2 + length before + 2)
      | None => inline (skipn 2 src) (length src)
      end
    else
      match src with
      | c :: rest =>
          if N.eqb c BT then
            match find_sub [BT] [] rest with
            | Some (before, _) => inline before (1 + length before + 1)
            | None => inline rest (length src)
            end
          else Ok ([c], 1, t)
      | [] => Ok ([], 0, t)
      end.

Fixpoint parseBackticks_from (src : str) (skip : nat) (t : tables) {struct src}
  : res (str * tables) :=
  match src with
  | [] => Ok ([], t)
  | _ :: rest =>
      match skip with
      | S k => parseBackticks_from rest k t
      | O =>
          step <- backtick_step src t ;;
          let '(piece, used, t1) := step in
          r <- parseBackticks_from rest (pred used) t1 ;;
          let '(out, t2) := r in
          Ok (piece ++ out, t2)
      end
  end.

Definition parseBackticks (src : str) (t : tables) : res (str * tables) :=
  parseBackticks_from src 0 t.

(** ** Indentation (lines 217-225) *)

(** "/^( {0,})(\d+\. |[-+*] )/" *)
Definition re_list_prefix : regex :=
  seqs [Bol; Grp 1 (star sp);
        Grp 2 (Alt (seqs [plus digit; c1 (ch "."); sp])
                   (Seq (set (js "-+*")) sp))].

(** "/^\s+/" *)
Definition re_leading_ws : regex := Seq Bol (plus ws).

Definition trim_line (line : str) : str :=
  if (test false re_list_prefix line || starts_with fence line
      || starts_with (js "<!--codeblock_") line)%bool
  then line
  else replace_first false re_leading_ws (fun _ _ => []) line.

Definition trimIndentation (md : str) : str :=
  join [NL] (map trim_line (split_on NL md)).

(** ** Checkbox lists (lines 228-244) *)

(** "/((?:^ *[-+*] \[[ xX]\] .+(?:\n|$))+)/gm" *)
Definition re_checkbox_block : regex :=
  Grp 1 (plus (seqs [Bol; star sp; set (js "-+*"); sp; c1 (ch "[");
                     set (js " xX"); c1 (ch "]"); sp; plus any; nl_or_eol])).

(** "/\[x\]/i": the only code units whose upper case is X are x and X. *)
Definition re_checked : regex := seqs [c1 (ch "["); set (js "xX"); c1 (ch "]")].

(** "/^ *[-+*] \[[ xX]\] /" *)
Definition re_checkbox_prefix : regex :=
  seqs [Bol; star sp; set (js "-+*"); sp; c1 (ch "["); set (js " xX");
        c1 (ch "]"); sp].

Definition checkbox_item (line : str) : str :=
  let checked := test false re_checked line in
  let content := replace_first false re_checkbox_prefix (fun _ _ => []) line in
  js "<li style=" ++ q (js "list-style: none;") ++ js "><label><input type="
    ++ q (js "checkbox") ++ (if checked then js " checked" else [])
    ++ js " disabled /> " ++ content ++ js "</label></li>".

Definition checkbox_cb (x y : mstate) : str :=
  js "<ul>" ++ concat (map checkbox_item (split_on NL (trim (matched x y))))
    ++ js "</ul>".

Definition checkboxPass (md : str) : str := gsub true re_checkbox_block checkbox_cb md.

(** ** Nested lists (lines 247-282) *)

(** "/((?:^ *(?:[-+*]|\d+\.) .+(?:\n|$))+)/gm" *)
Definition re_list_block : regex :=
  Grp 1 (plus (seqs [Bol; star sp;
                     Alt (set (js "-+*")) (Seq (plus digit) (c1 (ch ".")));
                     sp; plus any; nl_or_eol])).

(** "/^( {0,})([-+*]|\d+)\. (.+)$/" *)
Definition re_item_dot : regex :=
  seqs [Bol; Grp 1 (star sp); Grp 2 (Alt (set (js "-+*")) (plus digit));
        c1 (ch "."); sp; Grp 3 (plus any); Eol].

(** "/^( {0,})([-+*]) (.+)$/" *)
Definition re_item_bullet : regex :=
  seqs [Bol; Grp 1 (star sp); Grp 2 (set (js "-+*")); sp; Grp 3 (plus any); Eol].

(** "/^\d+$/" *)
Definition re_all_digits : regex := seqs [Bol; plus digit; Eol].

Inductive list_type := ol | ul.

Definition type_name (t : list_type) : str :=
  match t with ol => js "ol" | ul => js "ul" end.

(** A frame of [stack]; the head of the Rocq list is the top of the stack
    (the last element of the JavaScript array). *)
Record frame := Frame { indent : nat; type : list_type }.

(** [line.match(re_item_dot) || line.match(re_item_bullet)]:
    indent, marker and content. *)
Definition item_match (line : str) : option (nat * str * str) :=
  match search false re_item_dot [] line with
  | Some (_, y) => Some (length (cap 1 y), cap 2 y, cap 3 y)
  | None =>
      match search false re_item_bullet [] line with
      | Some (_, y) => Some (length (cap 1 y), cap 2 y, cap 3 y)
      | None => None
      end
  end.

(** The closing loop of lines 263-265 and 277-279. *)
Fixpoint pop_deeper (ind : nat) (html : str) (stack : list frame) : str * list frame :=
  match stack with
  | top :: below =>
      if Nat.ltb ind (indent top)
      then pop_deeper ind (html ++ js "</li></" ++ type_name (type top) ++ js ">") below
      else (html, stack)
  | [] => (html, stack)
  end.

Fixpoint pop_all (html : str) (stack : list frame) : str :=
  match stack with
  | top :: below => pop_all (html ++ js "</li></" ++ type_name (type top) ++ js ">") below
  | [] => html
  end.

Definition index_span (marker : str) : str :=
  js "<span style=" ++ q (js "display:none") ++ js " data-md-index=" ++ q marker
    ++ js "></span>".

(** The body of [lines.forEach] (lines 252-275) on an item that matched. *)
Definition list_item_step (ind : nat) (marker content : str)
    (st : str * list frame) : str * list frame :=
  let ty := if test false re_all_digits marker then ol else ul in
  let isOrdered := match ty with ol => true | ul => false end in
  let '(html, stack) := pop_deeper ind (fst st) (snd st) in
  let '(html, stack) :=
    match stack with
    | top :: _ =>
        if Nat.ltb (indent top) ind
        then (html ++ js "<" ++ type_name ty ++ js "><li>", Frame ind ty :: stack)
        else (html ++ js "</li><li>", stack)
    | [] => (html ++ js "<" ++ type_name ty ++ js "><li>", Frame ind ty :: stack)
    end in
  (html ++ (if isOrdered then index_span marker ++ content else content), stack).

Definition list_line_step (st : str * list frame) (line : str) : str * list frame :=
  match item_match line with
  | Some (ind, marker, content) => list_item_step ind marker content st
  | None => st
  end.

(** "/<li><span style=DQdisplay:noneDQ data-md-index=DQ(\d+)DQ><\/span>/g" *)
Definition re_index_span : regex :=
  seqs [lit (js "<li><span style=" ++ q (js "display:none") ++ js " data-md-index="
             ++ [DQ]);
        Grp 1 (plus digit); lit (DQ :: js "></span>")].

Definition list_block_html (block : str) : str :=
  let lines := split_on NL (trimEnd block) in
  let '(html, stack) := fold_left list_line_step lines ([], []) in
  let html := pop_all html stack in
  gsubT false re_index_span 1 (js "<li value=" ++ q (js "$1") ++ js ">") html.

Definition list_cb (x y : mstate) : str := list_block_html (matched x y).

Definition listPass (md : str) : str := gsub true re_list_block list_cb md.

(** ** Inline patterns (lines 285-305) *)

Record pattern := Pattern {
  p_ml : bool; p_re : regex; p_ncaps : nat; p_template : str
}.

(** "/^#{n} (.{0,})$/gm" *)
Definition re_heading (n : nat) : regex :=
  seqs [Bol; lit (repeat (ch "#") n); sp; Grp 1 (star any); Eol].

Definition heading (n : nat) : pattern :=
  Pattern true (re_heading n) 1
    (js "<h" ++ num_to_str n ++ js ">$1</h" ++ num_to_str n ++ js ">").

(** "/^(-{3,}|\*{3,}|_{3,})$/gm" *)
Definition re_rule : regex :=
  seqs [Bol;
        Grp 1 (Alt (rep_min 3 (c1 (ch "-")))
                   (Alt (rep_min 3 (c1 (ch "*"))) (rep_min 3 (c1 (ch "_")))));
        Eol].

(** "/~~(.*?)~~/g" *)
Definition re_del : regex := seqs [lit (js "~~"); Grp 1 (lazy_star any); lit (js "~~")].

(** "/(^|\W)MMM(?!M)(.+?)(?<!BBB)MMM(?=\W|$)/g" for a marker M written [n]
    times and [behind] times in the look-behind. *)
Definition re_emphasis (mk : char) (n behind : nat) : regex :=
  seqs [Grp 1 (Alt Bol nonword); lit (repeat mk n); Look true false (c1 mk);
        Grp 2 (lazy_plus any); Look false false (lit (repeat mk behind));
        lit (repeat mk n); Look true true (Alt nonword Eol)].

(** "/<((https?|ftp):\/\/[^>\s]+)>/g" *)
Definition re_autolink : regex :=
  seqs [c1 (ch "<");
        Grp 1 (seqs [Grp 2 (Alt (Seq (lit (js "http")) (opt (c1 (ch "s"))))
                                (lit (js "ftp")));
                     lit (js "://");
                     plus (Chr (Cls true [CC (ch ">"); CSpace]))]);
        c1 (ch ">")].

Definition patterns : list pattern :=
  [ heading 6; heading 5; heading 4; heading 3; heading 2; heading 1;
    Pattern true re_rule 1 (js "<hr>");
    Pattern false re_del 1 (js "<del>$1</del>");
    Pattern false (re_emphasis (ch "*") 3 2) 2 (js "$1<strong><em>$2</em></strong>");
    Pattern false (re_emphasis (ch "_") 3 3) 2 (js "$1<strong><em>$2</em></strong>");
    Pattern false (re_emphasis (ch "*") 2 2) 2 (js "$1<strong>$2</strong>");
    Pattern false (re_emphasis (ch "_") 2 2) 2 (js "$1<strong>$2</strong>");
    Pattern false (re_emphasis (ch "*") 1 1) 2 (js "$1<em>$2</em>");
    Pattern false (re_emphasis (ch "_") 1 1) 2 (js "$1<em>$2</em>");
    Pattern false re_autolink 2
      (js "<a href=" ++ q (js "$1") ++ js " target=" ++ q (js "_blank") ++ js ">$1</a>") ].

Definition apply_pattern (md : str) (p : pattern) : str :=
  gsubT (p_ml p) (p_re p) (p_ncaps p) (p_template p) md.

Definition inlinePass (md : str) : str := fold_left apply_pattern patterns md.

(** ** Images and links (lines 308-315) *)

(** The tail shared by both patterns: "\((\S+?)(?: +DQ([^DQ]+)DQ)?\)" *)
Definition re_target : list regex :=
  [c1 (ch "("); Grp 2 (lazy_plus nonws);
   opt (seqs [plus sp; c1 DQ; Grp 3 (plus (nset [DQ])); c1 DQ]);
   c1 (ch ")")].

(** "/!\[([^\]]{0,})\]\((\S+?)(?: +DQ([^DQ]+)DQ)?\)/g" *)
Definition re_image : regex :=
  seqs ([c1 (ch "!"); c1 (ch "["); Grp 1 (star (nset (js "]"))); c1 (ch "]")]
        ++ re_target).

(** "/\[([^\]]+)\]\((\S+?)(?: +DQ([^DQ]+)DQ)?\)/g" *)
Definition re_link : regex :=
  seqs ([c1 (ch "["); Grp 1 (plus (nset (js "]"))); c1 (ch "]")] ++ re_target).

Definition title_attr (y : mstate) : str :=
  match cap 3 y with
  | [] => []
  | title => js " title=" ++ q title
  end.

Definition image_cb (x y : mstate) : str :=
  js "<img alt=" ++ q (cap 1 y) ++ js " src=" ++ q (cap 2 y) ++ title_attr y
    ++ js " style=" ++ q (js "max-width: 100%;") ++ js ">".

Definition link_cb (x y : mstate) : str :=
  js "<a href=" ++ q (cap 2 y) ++ title_attr y ++ js " target=" ++ q (js "_blank")
    ++ js ">" ++ cap 1 y ++ js "</a>".

Definition imagePass (md : str) : str := gsub false re_image image_cb md.
Definition linkPass (md : str) : str := gsub false re_link link_cb md.

(** ** Blockquotes (lines 318-392) *)

(** "/^((&gt; ?.*(?:\n|$))+((?!(&gt;|<|\n|$)).*(?:\n|$)){0,})+/gm" *)
Definition re_quote_block : regex :=
  Seq Bol
    (plus (Grp 1
       (Seq (plus (Grp 2 (seqs [lit (js "&gt;"); opt sp; star any; nl_or_eol])))
            (star (Grp 3 (seqs [Look true false
                                  (Grp 4 (Alt (lit (js "&gt;"))
                                         (Alt (c1 (ch "<")) (Alt (c1 NL) Eol))));
                                star any; nl_or_eol])))))).

(** "/^((?:&gt;\s?)+)(.{0,})$/" *)
Definition re_quote_line : regex :=
  seqs [Bol; Grp 1 (plus (Seq (lit (js "&gt;")) (opt ws))); Grp 2 (star any); Eol].

(** The number of matches of a global pattern: [(s.match(re) || []).length]. *)
Definition count_matches (ml : bool) (r : regex) (s : str) : nat :=
  snd (gsubS ml r (fun (n : nat) _ _ => ([], S n)) s 0).

Record qitem := QItem { level : nat; content : str; isQuote : bool }.

(** The classification of one line (lines 323-341). *)
Definition quote_item (line : str) : qitem :=
  match search false re_quote_line [] line with
  | Some (_, y) =>
      let arrowStr := gsub false (plus ws) (fun _ _ => []) (cap 1 y) in
      let count := count_matches false (lit (js "&gt;")) arrowStr in
      QItem count (trimStart (cap 2 y)) true
  | None => QItem 0 line false
  end.

Fixpoint takeWhileL {A : Type} (f : A -> bool) (l : list A) : list A :=
  match l with
  | [] => []
  | a :: l' => if f a then a :: takeWhileL f l' else []
  end.

Definition collapse_empty (nestedHtml : str) : str :=
  let stripped := gsub false ws (fun _ _ => []) nestedHtml in
  if (str_eqb stripped (js "<blockquote></blockquote>")
      || str_eqb stripped (js "<blockquote><br></blockquote>"))%bool
  then js "<br>" else nestedHtml.

(** The [for] loop of [renderQuote] (lines 346-384): [mth] is the
    converter itself, [rq] is [renderQuote], [skip] counts the items the
    nested run has already taken ([i = j - 1]). *)
Fixpoint quote_loop (mth : str -> res str) (rq : list qitem -> nat -> res str)
    (lvl : nat) (items : list qitem) (skip : nat) {struct items} : res (list str) :=
  match items with
  | [] => Ok []
  | item :: rest =>
      match skip with
      | S k => quote_loop mth rq lvl rest k
      | O =>
          if negb (isQuote item) then
            h <- mth (content item) ;;
            hs <- quote_loop mth rq lvl rest 0 ;;
            Ok (h :: hs)
          else if Nat.eqb (level item) lvl then
            h <- match content item with
                 | [] => Ok (js "<br>")
                 | c => mth c
                 end ;;
            hs <- quote_loop mth rq lvl rest 0 ;;
            Ok (h :: hs)
          else if Nat.ltb lvl (level item) then
            let run :=
              takeWhileL (fun it => (isQuote it && negb (Nat.ltb (level it) (level item)))%bool)
                         rest in
            nestedHtml <- rq (item :: run) (level item) ;;
            hs <- quote_loop mth rq lvl rest (length run) ;;
            Ok (collapse_empty nestedHtml :: hs)
          else quote_loop mth rq lvl rest 0
      end
  end.

(** [renderQuote(items, level)]; [fuel] bounds the nesting of its own
    calls, which the number of items bounds. *)
Fixpoint renderQuote (mth : str -> res str) (fuel : nat) (items : list qitem)
    (lvl : nat) {struct fuel} : res str :=
  match fuel with
  | O => OutOfFuel
  | S fuel' =>
      result <- quote_loop mth (renderQuote mth fuel') lvl items 0 ;;
      Ok (js "<blockquote>" ++ join [NL] result ++ js "</blockquote>")
  end.

Definition quote_lines (raw : str) : list qitem :=
  map quote_item (split_on NL (trimEnd raw)).

Definition quote_html (mth : str -> res str) (raw : str) : res str :=
  let lines := quote_lines raw in
  renderQuote mth (S (S (length lines))) lines 1.

(** The callback of the blockquote replace; the state keeps the first
    exception raised by a callback. *)
Definition quote_cb (mth : str -> res str) (st : res unit) (x y : mstate)
  : str * res unit :=
  match quote_html mth (matched x y) with
  | Ok h => (h, st)
  | Throw => ([], match st with Ok _ => Throw | e => e end)
  | OutOfFuel => ([], match st with Ok _ => OutOfFuel | e => e end)
  end.

Definition quotePass (mth : str -> res str) (md : str) : res str :=
  let '(out, st) := gsubS true re_quote_block (quote_cb mth) md (Ok tt) in
  _ <- st ;; Ok out.

(** ** Tables (lines 395-435) *)

(** "/((?:^\|.*\|\n?)+)/gm" *)
Definition re_table_block : regex :=
  Grp 1 (plus (seqs [Bol; c1 (ch "|"); star any; c1 (ch "|"); opt (c1 NL)])).

(** "/^\|(?:[\s\-:]+\|)+$/" *)
Definition re_table_sep : regex :=
  seqs [Bol; c1 (ch "|");
        plus (Seq (plus (Chr (Cls false [CSpace; CC (ch "-"); CC (ch ":")])))
                  (c1 (ch "|")));
        Eol].

(** [s.slice(1, -1)] *)
Definition slice_inner (s : str) : str := removelast (tl s).

Definition alignment (cell : str) : str :=
  let t := trim cell in
  let first := match t with c :: _ => N.eqb c (ch ":") | [] => false end in
  let last := match rev t with c :: _ => N.eqb c (ch ":") | [] => false end in
  if (first && last)%bool then js "center"
  else if first then js "left"
  else if last then js "right"
  else js "left".

Definition row_cells (row : str) : list str :=
  map trim (split_on (ch "|") (slice_inner (trim row))).

Fixpoint render_cells (tag : str) (alignments : list str) (i : nat) (cells : list str) : str :=
  match cells with
  | [] => []
  | c :: cells' =>
      js "<" ++ tag ++ js " style="
        ++ q (js "text-align:"
              ++ match nth_error alignments i with
                 | Some ((_ :: _) as a) => a
                 | _ => js "left"
                 end ++ js ";")
        ++ js ">" ++ c ++ js "</" ++ tag ++ js ">"
        ++ render_cells tag alignments (S i) cells'
  end.

Definition renderRow (alignments : list str) (row tag : str) : str :=
  js "<tr>" ++ render_cells tag alignments 0 (row_cells row) ++ js "</tr>".

Definition table_html (lines : list str) (header separator : str) (body : list str) : str :=
  let alignments := map alignment (split_on (ch "|") (slice_inner (trim separator))) in
  let thead := renderRow alignments header (js "th") in
  let tbody := concat (map (fun row => renderRow alignments row (js "td")) body) in
  js "<table><thead>" ++ thead ++ js "</thead><tbody>" ++ tbody ++ js "</tbody></table>".

Definition table_block (block : str) : str :=
  let lines := split_on NL (trim block) in
  match lines with
  | header :: separator :: body =>
      if test false re_table_sep separator
      then table_html lines header separator body
      else block
  | _ => block
  end.

Definition table_cb (x y : mstate) : str := table_block (matched x y).

Definition tablePass (md : str) : str := gsub true re_table_block table_cb md.

(** ** Paragraphs (lines 438-469) *)

(** "/^<\/?[a-zA-Z][\w\-]*(\s[^>]{0,})?>/" *)
Definition re_html_tag : regex :=
  seqs [Bol; c1 (ch "<"); opt (c1 (ch "/"));
        Chr (Cls false [CRange (ch "a") (ch "z"); CRange (ch "A") (ch "Z")]);
        star (Chr (Cls false [CWord; CC (ch "-")]));
        opt (Grp 1 (Seq ws (star (nset (js ">")))));
        c1 (ch ">")].

Definition isHtmlTagLike (line : str) : bool := test false re_html_tag (trim line).

(** [flush()] on the pair of [result] and [paragraph]. *)
Definition flush (st : list str * list str) : list str * list str :=
  match snd st with
  | [] => (fst st, [])
  | paragraph => (fst st ++ [js "<p>" ++ join (js "<br>") paragraph ++ js "</p>"], [])
  end.

Definition paragraph_step (st : list str * list str) (line : str) : list str * list str :=
  let trimmed := trim line in
  match trimmed with
  | [] => flush st
  | _ =>
      if (starts_with (js "<!--codeblock_") trimmed || isHtmlTagLike trimmed)%bool
      then (fst (flush st) ++ [trimmed], [])
      else (fst st, snd st ++ [trimmed])
  end.

Definition paragraphs (md : str) : str :=
  join [NL] (fst (flush (fold_left paragraph_step (split_on NL md) ([], [])))).

(** ** Reassembly (lines 471-487) *)

Definition restore_code (html : str) (cb : str * str) : str :=
  replace_str (fst cb) (snd cb) html.

Definition restore_inline (html : str) (cb : str * str) : str :=
  replace_str (fst cb) (js "<code>" ++ escapeHtml (snd cb) ++ js "</code>") html.

Definition restore_escape (html : str) (e : str * str) : str :=
  replace_str (fst e) (snd e) html.

Definition reassemble (t : tables) (html : str) : str :=
  let html := fold_left restore_code (codeBlocks t) html in
  let html := fold_left restore_inline (inlineCodeBlocks t) html in
  let html := fold_left restore_escape (escapePlaceholders t) html in
  trim html.

(** ** markdownToHtml (lines 59-488) *)

(** Everything before the blockquote pass. *)
Definition prepare (md : str) : res (str * tables) :=
  let '(md, t) := escapePass md tables0 in
  r <- parseBackticks md t ;;
  let '(md, t) := r in
  Ok (linkPass (imagePass (inlinePass (listPass (checkboxPass (trimIndentation md))))), t).

(** Everything after it. *)
Definition finish (t : tables) (md : str) : str :=
  reassemble t (paragraphs (tablePass md)).

(** [fuel] bounds the depth of the recursion through blockquotes: it is
    the number of nested activations of the converter that the call stack
    of the engine has room for.  The source sets no cap of its own on the
    depth (lines 350 and 359); an activation that finds no room left ends
    the whole call with the RangeError of the engine, here [OutOfFuel]. *)
Fixpoint markdownToHtml (fuel : nat) (md : str) {struct fuel} : res str :=
  match fuel with
  | O => OutOfFuel
  | S fuel' =>
      p <- prepare md ;;
      quoted <- quotePass (markdownToHtml fuel') (fst p) ;;
      Ok (finish (snd p) quoted)
  end.


(** * Specification-level definitions *)

(** ** What a successful match says

    [sem ml r fwd x y]: the state [y] can be reached from [x] by matching
    [r].  The matcher only ever succeeds along such a path. *)

Fixpoint iterN (R : mstate -> mstate -> Prop) (n : nat) (x y : mstate) : Prop :=
  match n with
  | O => y = x
  | S n' => exists z, R x z /\ iterN R n' z y
  end.

Definition within (mx : option nat) (n : nat) : Prop :=
  match mx with Some k => n <= k | None => True end.

Fixpoint sem (ml : bool) (r : regex) (fwd : bool) (x y : mstate) {struct r} : Prop :=
  match r with
  | Eps => y = x
  | Chr k => step_char fwd k x = Some y
  | Seq r1 r2 =>
      if fwd then exists z, sem ml r1 fwd x z /\ sem ml r2 fwd z y
      else exists z, sem ml r2 fwd x z /\ sem ml r1 fwd z y
  | Alt r1 r2 => sem ml r1 fwd x y \/ sem ml r2 fwd x y
  | Rep _ mn mx r1 =>
      exists n, mn <= n /\ within mx n /\
        iterN (fun a b => sem ml r1 fwd (clear_groups (groups r1) a) b) n x y
  | Grp n r1 =>
      exists z, sem ml r1 fwd x z /\ y = set_cap n (between fwd x z) z
  | Bol => at_bol ml x = true /\ y = x
  | Eol => at_eol ml x = true /\ y = x
  | Look ahead positive r1 =>
      if positive
      then exists z, sem ml r1 ahead x z /\ y = MState (bef x) (aft x) (caps z)
      else y = x /\ m ml r1 ahead x (fun z => Some z) = None
  end.

(** Quantifiers are well formed when [min <= max], as the grammar of
    ECMAScript patterns demands. *)
Fixpoint wf (r : regex) : bool :=
  match r with
  | Eps | Chr _ | Bol | Eol => true
  | Seq a b | Alt a b => (wf a && wf b)%bool
  | Rep _ mn mx a =>
      (match mx with Some k => Nat.leb mn k | None => true end && wf a)%bool
  | Grp _ a | Look _ _ a => wf a
  end.

(** The whole input of a state. *)
Definition inp (x : mstate) : str := rev (bef x) ++ aft x.

(** The list stack is strictly increasing in indent from bottom to top;
    the top of the stack is the head of the list. *)
Fixpoint increasing_to_top (stack : list frame) : Prop :=
  match stack with
  | top :: rest =>
      match rest with
      | below :: _ => indent below < indent top
      | [] => True
      end /\ increasing_to_top rest
  | [] => True
  end.

(** What the item step appends after the list has been opened or the
    previous item closed. *)
Definition item_html (marker content : str) : str :=
  if test false re_all_digits marker then index_span marker ++ content else content.

(** A string without line terminators. *)
Definition term_free (s : str) : Prop := Forall (fun c => is_term c = false) s.

(** A property of every code unit of a match state. *)
Definition st_all (Q : char -> Prop) (x : mstate) : Prop :=
  Forall Q (bef x) /\ Forall Q (aft x) /\ Forall (fun kv => Forall Q (snd kv)) (caps x).

(** The leading quote depth of a line: the number of [&gt;] markers at
    its start, whatever white space stands before and between them. *)
Fixpoint qdepth (s : str) : nat :=
  match s with
  | [] => 0
  | c :: r =>
      if is_ws c then qdepth r
      else
        match r with
        | c2 :: c3 :: c4 :: r' =>
            if (N.eqb c 38 && N.eqb c2 103 && N.eqb c3 116 && N.eqb c4 59)%bool
            then S (qdepth r') else 0
        | _ => 0
        end
  end.

Definition LT : char := 60%N.

(** [out] keeps a prefix of [x] up to its end or to a [<]. *)
Definition safe_prefix (x out : str) : Prop :=
  exists p z w, out = p ++ z /\ x = p ++ w /\ (z = [] \/ exists z', z = LT :: z').

(** No white space at either end. *)
Definition trimmed (s : str) : Prop :=
  match s with c :: _ => is_ws c = false | [] => True end /\
  match rev s with c :: _ => is_ws c = false | [] => True end.

(** A replacement that starts with [<], or with the first code unit of the
    match followed by [<]. *)
Definition head_ok (rp a : str) : Prop :=
  (exists z, rp = LT :: z) \/ (exists c a' z, a = c :: a' /\ rp = c :: LT :: z).

(** Every code unit that [r] can consume satisfies [Q]. *)
Fixpoint consumes (Q : char -> Prop) (r : regex) : Prop :=
  match r with
  | Chr k => forall c, cmatch k c = true -> Q c
  | Seq a b | Alt a b => consumes Q a /\ consumes Q b
  | Rep _ _ _ a | Grp _ a => consumes Q a
  | Eps | Bol | Eol | Look _ _ _ => True
  end.

(** A pass keeps a line free of terminators and does not raise its
    leading quote depth. *)
Definition quiet (f : str -> str) : Prop :=
  forall x, term_free x -> term_free (f x) /\ qdepth (f x) <= qdepth x.

(** Empty, or starting with [<]. *)
Definition lt_headed (s : str) : Prop := s = [] \/ exists z, s = LT :: z.

(** The converter is defined on the content of an item whenever
    [renderQuote] hands that content to it. *)
Definition item_ok (Phi : str -> Prop) (it : qitem) : Prop :=
  if isQuote it then content it = [] \/ Phi (content it) else Phi (content it).

(** A nested run as [renderQuote] builds it: quote items at level [l] or
    deeper, the first one at level [l]. *)
Definition nested_at (l : nat) (items : list qitem) : Prop :=
  match items with
  | [] => True
  | it :: rest =>
      isQuote it = true /\ level it = l /\
      Forall (fun x => isQuote x = true /\ l <= level x) rest
  end.

(** The quote marker. *)
Definition GT4 : str := js "&gt;".



(** ** escapeHtml in the words of its pattern

    An ampersand is left alone when one or more ASCII letters and a
    semicolon follow it; any other ampersand and the four characters
    [<], [>], the double quote and ['] become entities. *)
Definition is_letter (c : char) : bool :=
  (in_range (ch "a") (ch "z") c || in_range (ch "A") (ch "Z") c)%bool.

(** One or more letters and then a semicolon; [seen] tells whether a
    letter has been read. *)
Fixpoint entity_tail (seen : bool) (s : str) : bool :=
  match s with
  | [] => false
  | c :: r => if is_letter c then entity_tail true r else (seen && N.eqb c (ch ";"))%bool
  end.

Definition escape_unit (c : char) (rest : str) : str :=
  if N.eqb c (ch "&") then (if entity_tail false rest then [c] else js "&amp;")
  else if N.eqb c (ch "<") then js "&lt;"
  else if N.eqb c (ch ">") then js "&gt;"
  else if N.eqb c DQ then js "&quot;"
  else if N.eqb c (ch "'") then js "&#39;"
  else [c].

Fixpoint escapeHtml_spec (s : str) : str :=
  match s with
  | [] => []
  | c :: r => escape_unit c r ++ escapeHtml_spec r
  end.

(** ** Code content without the characters that the tokenizer, the escape
    pass and the replacement templates of the reassembly read *)
Definition code_plain (t : str) : bool :=
  forallb (fun c => negb (N.eqb c BT || N.eqb c (ch "\") || N.eqb c (ch "$"))%bool) t.

(** The tables after the tokenizer has read one backtick span. *)
Definition inline_tables (code : str) : tables :=
  Tables [] [(js "<!--inlinecode_0-->", code)] [] 0 1 0.

(** The tables after the tokenizer has read one fenced block. *)
Definition fence_tables (html : str) : tables :=
  Tables [(js "<!--codeblock_0-->", html)] [] [] 1 0 0.


(** ** The quote markers at the start of a line

    The markers [&gt;] that stand at the start of [s], each followed by at
    most one white-space character: their number, their text and the rest
    of the line.  [fuel] is the length of the line. *)
Fixpoint lead_from (fuel : nat) (s : str) : nat * str * str :=
  match fuel with
  | O => (0, [], s)
  | S f =>
      if starts_with GT4 s then
        let r := skipn 4 s in
        let '(w, r') := match r with
                        | c :: r1 => if is_ws c then ([c], r1) else ([], r)
                        | [] => ([], r)
                        end in
        let '(n, M, rest) := lead_from f r' in
        (S n, GT4 ++ w ++ M, rest)
      else (0, [], s)
  end.

Definition lead_markers (s : str) : nat * str * str := lead_from (length s) s.

(** The record of a line according to its leading markers. *)
Definition quote_item_by_markers (line : str) : qitem :=
  let '(n, _, rest) := lead_markers line in
  match n with
  | O => QItem 0 line false
  | S _ => QItem n (trimStart rest) true
  end.

(** ** A pure alignment-separator row

    Every cell of the row, cut out as the table pass cuts cells, is
    composed only of [-], [:] and white space. *)
Definition sep_char (c : char) : bool :=
  (is_ws c || N.eqb c (ch "-") || N.eqb c (ch ":"))%bool.

Definition pure_separator (row : str) : bool :=
  forallb (forallb sep_char) (split_on (ch "|") (slice_inner (trim row))).

(** ** The quote-nesting depth of an input

    White space that does not end a line. *)
Definition is_iws (c : char) : bool := (is_ws c && negb (is_term c))%bool.

(** The number of quote markers that stand in a row at the start of
    [s], within one line: white space of the line may stand before and
    between them. *)
Fixpoint ldepth (s : str) : nat :=
  match s with
  | [] => 0
  | c :: r =>
      if is_iws c then ldepth r
      else
        match r with
        | c2 :: c3 :: c4 :: r' =>
            if (N.eqb c 38 && N.eqb c2 103 && N.eqb c3 116 && N.eqb c4 59)%bool
            then S (ldepth r') else 0
        | _ => 0
        end
  end.

(** The quote-nesting depth of a text: the longest run of quote markers
    within one line, wherever it starts. *)
Fixpoint max_ldepth (s : str) : nat :=
  match s with
  | [] => 0
  | _ :: r => Nat.max (ldepth s) (max_ldepth r)
  end.

(** A code unit that ends a run of markers: neither white space of the
    line nor one of the characters of the marker. *)
Definition barrier (c : char) : bool :=
  negb (is_iws c || N.eqb c 38 || N.eqb c 103 || N.eqb c 116 || N.eqb c 59)%bool.

(** Empty, or starting with a barrier. *)
Definition stops (z : str) : Prop :=
  match z with [] => True | c :: _ => barrier c = true end.

(** Every run of markers that starts in [x] has at most [M] markers,
    whatever follows [x] after a barrier. *)
Definition tame (M : nat) (x : str) : Prop :=
  forall u v z, x = u ++ v -> stops z -> ldepth (v ++ z) <= M.

(** Empty, or ending with a barrier. *)
Definition ends (x : str) : Prop :=
  match rev x with [] => True | c :: _ => barrier c = true end.

(** The head of a replacement: a barrier, or the first code unit of the
    match and then a barrier. *)
Definition head_fine (a rp : str) : Prop :=
  (exists h z, rp = h :: z /\ barrier h = true)
  \/ (exists c a' h z, a = c :: a' /\ rp = c :: h :: z /\ barrier h = true).

(** What a replacement must be for a global replace to keep a text tame:
    empty at the start of a line, or headed and ended by barriers. *)
Definition rp_ok (M : nat) (b a rp : str) : Prop :=
  tame M rp /\
  ((rp = [] /\ match b with [] => True | h :: _ => barrier h = true end)
   \/ (ends rp /\ head_fine a rp)).

(** A replacement template whose captures are each followed by a barrier. *)
Fixpoint tmpl_ok (ncaps : nat) (t : str) : bool :=
  match t with
  | [] => true
  | c :: t1 =>
      if N.eqb c 36%N then
        match t1 with
        | d :: t2 =>
            (is_digit d && Nat.leb 1 (N.to_nat (d - 48)%N)
             && Nat.leb (N.to_nat (d - 48)%N) ncaps
             && match t2 with
                | e :: _ => barrier e && negb (N.eqb e 36%N) && negb (is_digit e)
                | [] => false
                end
             && tmpl_ok ncaps t2)%bool
        | [] => false
        end
      else (negb (N.eqb c 38%N) && tmpl_ok ncaps t1)%bool
  end.

(** ** Patterns that cannot match

    [foreign alpha r]: every match of [r] consumes a code unit that is
    not in [alpha], so [r] matches nowhere in a text written with the
    code units of [alpha] only. *)
Fixpoint foreign (alpha : str) (r : regex) : bool :=
  match r with
  | Chr k => forallb (fun c => negb (cmatch k c)) alpha
  | Seq a b => (foreign alpha a || foreign alpha b)%bool
  | Alt a b => (foreign alpha a && foreign alpha b)%bool
  | Rep _ mn _ a => (Nat.leb 1 mn && foreign alpha a)%bool
  | Grp _ a => foreign alpha a
  | Eps | Bol | Eol | Look _ _ _ => false
  end.

Definition written_in (alpha s : str) : Prop := Forall (fun c => In c alpha) s.

(** ** A deeply nested quote

    [n] quote markers on one line, each followed by two blanks, and a
    letter: the second blank keeps the next marker out of the run, so
    each marker opens a quote inside the content of the one before. *)
Fixpoint deep_quote (n : nat) : str :=
  match n with
  | O => js "a"
  | S k => js "&gt;  " ++ deep_quote k
  end.

(** The passes before the blockquote pass find nothing in a text that
    is written in [alpha], when each of their patterns needs a code unit
    that is foreign to [alpha]. *)
Definition inert (alpha : str) : bool :=
  (forallb (fun c => negb (N.eqb c BT || N.eqb c (ch "\") || N.eqb c NL)) alpha
   && foreign alpha re_checkbox_block && foreign alpha re_list_block
   && forallb (fun p => foreign alpha (p_re p) && wf (p_re p)) patterns
   && foreign alpha re_image && foreign alpha re_link)%bool.
(** * Theory of the matcher *)

Unset Implicit Arguments.

Arguments js : simpl never.
Arguments num_to_str : simpl never.



Section RepLoopSound.
Variable body : mstate -> cont -> option mstate.
Variable R : mstate -> mstate -> Prop.
Variable gs : list nat.
Hypothesis body_sound :
  forall x k z, body x k = Some z -> exists y, R x y /\ k y = Some z.

Lemma rep_loop_sound greedy fuel : forall mn mx x k z,
  within mx mn ->
  rep_loop body gs greedy fuel mn mx x k = Some z ->
  exists n y, mn <= n /\ within mx n /\
    iterN (fun a b => R (clear_groups gs a) b) n x y /\ k y = Some z.
Proof.
  induction fuel as [|fuel IH]; intros mn mx x k z Hwf H; simpl in H;
    [discriminate|].
  assert (Hnext : forall y1, R (clear_groups gs x) y1 ->
    max_zero mx = false ->
    rep_loop body gs greedy fuel (pred mn) (max_pred mx) y1 k = Some z ->
    exists n y, mn <= n /\ within mx n /\
      iterN (fun a b => R (clear_groups gs a) b) n x y /\ k y = Some z).
  { intros y1 HR Hz Hrec.
    apply IH in Hrec.
    - destruct Hrec as (n & y & Hle & Hw & Hit & Hk).
      exists (S n), y. repeat split; auto.
      + lia.
      + destruct mx as [[|k']|]; simpl in *; try discriminate; auto. lia.
      + simpl. exists y1. auto.
    - destruct mx as [[|k']|]; simpl in *; try discriminate; auto. lia. }
  destruct (max_zero mx) eqn:Hz.
  - destruct mx as [[|?]|]; try discriminate. simpl in Hwf.
    exists 0, x. simpl. repeat split; auto.
  - destruct (Nat.eqb mn 0) eqn:Hmn; simpl in H.
    + apply Nat.eqb_eq in Hmn. subst mn.
      assert (Hbody : body (clear_groups gs x)
          (fun y => if Nat.eqb (length (aft y)) (length (aft x)) then None
                    else rep_loop body gs greedy fuel 0 (max_pred mx) y k) = Some z ->
        exists n y, 0 <= n /\ within mx n /\
          iterN (fun a b => R (clear_groups gs a) b) n x y /\ k y = Some z).
      { intros Hb. apply body_sound in Hb. destruct Hb as (y1 & HR & Hd).
        destruct (Nat.eqb _ _); [discriminate|]. eapply Hnext; eauto. }
      assert (Hzero : k x = Some z ->
        exists n y, 0 <= n /\ within mx n /\
          iterN (fun a b => R (clear_groups gs a) b) n x y /\ k y = Some z).
      { intros Hk. exists 0, x. simpl.
        repeat split; auto; destruct mx; simpl; auto with arith. }
      destruct greedy.
      * destruct (body _ _) eqn:Hb.
        -- inversion H; subst. auto.
        -- auto.
      * destruct (k x) eqn:Hk.
        -- inversion H; subst. auto.
        -- auto.
    + apply body_sound in H. destruct H as (y1 & HR & Hd).
      eapply Hnext; eauto.
Qed.
End RepLoopSound.

(** Soundness of the matcher. *)
Theorem m_sound ml r : wf r = true -> forall fwd x k z,
  m ml r fwd x k = Some z -> exists y, sem ml r fwd x y /\ k y = Some z.
Proof.
  induction r as [|c|r1 IH1 r2 IH2|r1 IH1 r2 IH2|g mn mx r1 IH|n r1 IH| | |ah ps r1 IH];
    intros Hwf fwd x k z H; cbn [m wf sem] in *.
  - exists x. auto.
  - destruct (step_char fwd c x) as [y|] eqn:Hs; [|discriminate].
    exists y. auto.
  - apply andb_prop in Hwf. destruct Hwf as [W1 W2]. destruct fwd.
    + apply (IH1 W1) in H. destruct H as (y1 & S1 & H).
      apply (IH2 W2) in H. destruct H as (y2 & S2 & H).
      exists y2. split; auto. exists y1. auto.
    + apply (IH2 W2) in H. destruct H as (y1 & S1 & H).
      apply (IH1 W1) in H. destruct H as (y2 & S2 & H).
      exists y2. split; auto. exists y1. auto.
  - apply andb_prop in Hwf. destruct Hwf as [W1 W2].
    destruct (m ml r1 fwd x k) eqn:H1.
    + inversion H; subst. apply (IH1 W1) in H1. destruct H1 as (y & S1 & Hk).
      exists y. auto.
    + apply (IH2 W2) in H. destruct H as (y & S2 & Hk). exists y. auto.
  - apply andb_prop in Hwf. destruct Hwf as [W1 W2].
    eapply rep_loop_sound with (R := sem ml r1 fwd) in H.
    + destruct H as (n & y & Hle & Hw & Hit & Hk). exists y. split; auto.
      exists n. auto.
    + intros. apply IH; auto.
    + destruct mx; simpl; auto. apply Nat.leb_le. auto.
  - apply (IH Hwf) in H. destruct H as (y & S1 & Hk).
    exists (set_cap n (between fwd x y) y). split; auto. exists y. auto.
  - destruct (at_bol ml x) eqn:Hb; [|discriminate]. exists x. auto.
  - destruct (at_eol ml x) eqn:Hb; [|discriminate]. exists x. auto.
  - destruct (m ml r1 ah x (fun y => Some y)) as [y|] eqn:Hl.
    + destruct ps; [|discriminate].
      apply (IH Hwf) in Hl. destruct Hl as (y' & S1 & Hy). inversion Hy; subst.
      exists (MState (bef x) (aft x) (caps y)). split; auto. exists y. auto.
    + destruct ps; [discriminate|]. exists x. auto.
Qed.

Corollary exec_at_sound ml r b a y : wf r = true ->
  exec_at ml r b a = Some y -> sem ml r true (MState b a []) y.
Proof.
  intros Hwf H. apply m_sound in H; auto.
  destruct H as (y' & Hs & Hy). inversion Hy; subst. auto.
Qed.

(** ** Positions *)


Lemma iterN_ind_inv (P : mstate -> Prop) (R : mstate -> mstate -> Prop) :
  (forall a b, P a -> R a b -> P b) ->
  forall n x y, P x -> iterN R n x y -> P y.
Proof.
  intros HR. induction n as [|n IH]; simpl; intros x y Hx H.
  - subst. auto.
  - destruct H as (z & Hz & H). eauto.
Qed.

Lemma step_char_inp fwd k x y : step_char fwd k x = Some y ->
  inp y = inp x /\ caps y = caps x.
Proof.
  unfold step_char, inp. destruct fwd.
  - destruct (aft x) as [|c a] eqn:Ha; [discriminate|].
    destruct (cmatch k c); [|discriminate]. intros H; inversion H; subst; simpl.
    rewrite <- app_assoc. auto.
  - destruct (bef x) as [|c b] eqn:Hb; [discriminate|].
    destruct (cmatch k c); [|discriminate]. intros H; inversion H; subst; simpl.
    rewrite <- app_assoc. auto.
Qed.

(** Matching never changes the input. *)
Lemma sem_inp ml r : forall fwd x y, sem ml r fwd x y -> inp y = inp x.
Proof.
  induction r as [|c|r1 IH1 r2 IH2|r1 IH1 r2 IH2|g mn mx r1 IH|n r1 IH| | |ah ps r1 IH];
    intros fwd x y H; simpl in H.
  - subst. auto.
  - apply step_char_inp in H. tauto.
  - destruct fwd; destruct H as (z & H1 & H2).
    + rewrite (IH2 _ _ _ H2). eauto.
    + rewrite (IH1 _ _ _ H2). eauto.
  - destruct H; eauto.
  - destruct H as (n & _ & _ & H).
    revert H. apply (iterN_ind_inv (fun s => inp s = inp x)); auto.
    intros a b Ha Hab. apply IH in Hab. rewrite Hab. exact Ha.
  - destruct H as (z & H & ->). apply IH in H. exact H.
  - destruct H as [_ ->]. auto.
  - destruct H as [_ ->]. auto.
  - destruct ps.
    + destruct H as (z & _ & ->). reflexivity.
    + destruct H as [-> _]. auto.
Qed.

(** A forward match consumes a prefix of what is left. *)
Lemma sem_fwd ml r : forall x y, sem ml r true x y ->
  exists mt, aft x = mt ++ aft y /\ bef y = rev mt ++ bef x.
Proof.
  induction r as [|c|r1 IH1 r2 IH2|r1 IH1 r2 IH2|g mn mx r1 IH|n r1 IH| | |ah ps r1 IH];
    intros x y H; simpl in H.
  - subst. exists []. auto.
  - unfold step_char in H. destruct (aft x) as [|d a] eqn:Ha; [discriminate|].
    destruct (cmatch c d); [|discriminate]. inversion H; subst; simpl.
    exists [d]. auto.
  - destruct H as (z & H1 & H2).
    apply IH1 in H1. apply IH2 in H2.
    destruct H1 as (m1 & A1 & B1). destruct H2 as (m2 & A2 & B2).
    exists (m1 ++ m2). rewrite A1, A2, B2, B1, rev_app_distr, !app_assoc. auto.
  - destruct H; eauto.
  - destruct H as (n & _ & _ & H).
    revert x H. induction n as [|n IHn]; simpl; intros x H.
    + subst. exists []. auto.
    + destruct H as (z & H1 & H2). apply IH in H1. apply IHn in H2.
      destruct H1 as (m1 & A1 & B1). destruct H2 as (m2 & A2 & B2).
      simpl in A1, B1.
      exists (m1 ++ m2). rewrite A1, A2, B2, B1, rev_app_distr, !app_assoc. auto.
  - destruct H as (z & H & ->). apply IH in H. exact H.
  - destruct H as [_ ->]. exists []. auto.
  - destruct H as [_ ->]. exists []. auto.
  - destruct ps.
    + destruct H as (z & _ & ->). exists []. auto.
    + destruct H as [-> _]. exists []. auto.
Qed.

Lemma matched_app b a cs mt y : a = mt ++ aft y -> matched (MState b a cs) y = mt.
Proof.
  intros ->. unfold matched, between. simpl.
  rewrite length_app, Nat.add_sub, firstn_app, firstn_all, Nat.sub_diag.
  simpl. apply app_nil_r.
Qed.

(** * The nested-list stack (lines 247-282) *)

Lemma increasing_tail top rest : increasing_to_top (top :: rest) -> increasing_to_top rest.
Proof. simpl. tauto. Qed.

(** The closing loop pops exactly the frames that are strictly deeper than
    the line, and stops at the first frame that is not. *)
Lemma pop_deeper_spec ind : forall stack html,
  exists popped,
    stack = popped ++ snd (pop_deeper ind html stack) /\
    Forall (fun f => ind < indent f) popped /\
    match snd (pop_deeper ind html stack) with
    | top :: _ => indent top <= ind
    | [] => True
    end.
Proof.
  induction stack as [|top below IH]; intros html; cbn [pop_deeper].
  - exists []. simpl. auto.
  - destruct (Nat.ltb ind (indent top)) eqn:Hlt.
    + destruct (IH (html ++ js "</li></" ++ type_name (type top) ++ js ">"))
        as (popped & Heq & Hall & Htop).
      exists (top :: popped). cbn [app]. rewrite <- Heq. repeat split; auto.
      constructor; auto. apply Nat.ltb_lt. exact Hlt.
    + exists []. cbn [snd app]. repeat split; auto. apply Nat.ltb_ge. exact Hlt.
Qed.

Lemma increasing_app_r popped : forall rest,
  increasing_to_top (popped ++ rest) -> increasing_to_top rest.
Proof.
  induction popped as [|f popped IH]; intros rest H; auto.
  apply IH. eapply increasing_tail. exact H.
Qed.

Lemma pop_deeper_increasing ind stack html :
  increasing_to_top stack -> increasing_to_top (snd (pop_deeper ind html stack)).
Proof.
  intros H. destruct (pop_deeper_spec ind stack html) as (popped & Heq & _).
  rewrite Heq in H. eapply increasing_app_r. exact H.
Qed.

Lemma list_item_step_increasing ind marker content st :
  increasing_to_top (snd st) ->
  increasing_to_top (snd (list_item_step ind marker content st)).
Proof.
  intros H. unfold list_item_step.
  pose proof (pop_deeper_increasing ind (snd st) (fst st) H) as Hinc.
  destruct (pop_deeper_spec ind (snd st) (fst st)) as (_ & _ & _ & Htop).
  destruct (pop_deeper ind (fst st) (snd st)) as [html stack]. simpl in *.
  destruct stack as [|top below].
  - simpl. auto.
  - destruct (Nat.ltb (indent top) ind) eqn:Hlt; simpl.
    + apply Nat.ltb_lt in Hlt. simpl in Hinc. tauto.
    + exact Hinc.
Qed.

Lemma list_lines_increasing lines : forall st,
  increasing_to_top (snd st) ->
  increasing_to_top (snd (fold_left list_line_step lines st)).
Proof.
  induction lines as [|line lines IH]; intros st H; simpl; auto.
  apply IH. unfold list_line_step.
  destruct (item_match line) as [[[ind marker] content]|]; auto.
  apply list_item_step_increasing. exact H.
Qed.

Lemma pop_deeper_stop ind html top below :
  indent top <= ind -> pop_deeper ind html (top :: below) = (html, top :: below).
Proof.
  intros H. cbn [pop_deeper]. destruct (Nat.ltb ind (indent top)) eqn:Hlt; auto.
  apply Nat.ltb_lt in Hlt. lia.
Qed.

(** C6.  The stack of the nested-list pass is strictly increasing in
    indent from bottom to top after every line of a block; the closing
    loop keeps it so and pops exactly the frames whose indent is strictly
    greater than the indent of the line; and a line whose indent equals
    the indent of the top frame closes nothing: it appends a sibling item
    and leaves the stack as it is. *)
Theorem list_stack_discipline :
  (forall lines, increasing_to_top (snd (fold_left list_line_step lines ([], [])))) /\
  (forall ind html lines,
     let stack := snd (fold_left list_line_step lines ([], [])) in
     increasing_to_top (snd (pop_deeper ind html stack)) /\
     exists popped,
       stack = popped ++ snd (pop_deeper ind html stack) /\
       Forall (fun f => ind < indent f) popped /\
       match snd (pop_deeper ind html stack) with
       | top :: _ => indent top <= ind
       | [] => True
       end) /\
  (forall ind ty below html marker content,
     list_item_step ind marker content (html, Frame ind ty :: below)
     = (html ++ js "</li><li>" ++ item_html marker content, Frame ind ty :: below)).
Proof.
  split; [|split].
  - intros lines. apply list_lines_increasing. simpl. auto.
  - intros ind html lines stack. split.
    + apply pop_deeper_increasing. apply list_lines_increasing. simpl. auto.
    + apply pop_deeper_spec.
  - intros ind ty below html marker content. unfold list_item_step, item_html.
    cbn [fst snd]. rewrite pop_deeper_stop by (simpl; lia).
    cbn [indent]. rewrite Nat.ltb_irrefl.
    destruct (test false re_all_digits marker); rewrite <- ?app_assoc; reflexivity.
Qed.

(** * Theory of search and replace *)

Lemma search_sound ml r : forall a b x y,
  search ml r b a = Some (x, y) ->
  exists pre a', a = pre ++ a' /\ x = MState (rev pre ++ b) a' [] /\
    exec_at ml r (rev pre ++ b) a' = Some y.
Proof.
  induction a as [|c a IH]; intros b x y H; simpl in H.
  - destruct (exec_at ml r b []) eqn:He; [|discriminate].
    inversion H; subst. exists [], []. auto.
  - destruct (exec_at ml r b (c :: a)) eqn:He.
    + inversion H; subst. exists [], (c :: a). auto.
    + apply IH in H. destruct H as (pre & a' & -> & -> & H).
      exists (c :: pre), a'. simpl. rewrite <- app_assoc. auto.
Qed.

Lemma search_none ml r : forall a b,
  search ml r b a = None ->
  forall pre a', a = pre ++ a' -> exec_at ml r (rev pre ++ b) a' = None.
Proof.
  induction a as [|c a IH]; intros b H pre a' Heq; simpl in H.
  - destruct (exec_at ml r b []) eqn:He; [discriminate|].
    destruct pre; [|discriminate]. simpl in Heq. subst. exact He.
  - destruct (exec_at ml r b (c :: a)) eqn:He; [discriminate|].
    destruct pre as [|d pre]; simpl in Heq.
    + subst. exact He.
    + inversion Heq; subst. simpl. rewrite <- app_assoc. eapply IH; eauto.
Qed.

Section GsubInduction.
Variable St : Type.
Variable ml : bool.
Variable r : regex.
Variable f : St -> mstate -> mstate -> str * St.
Variable P : str -> str -> nat -> St -> str * St -> Prop.

Hypothesis skip_nil : forall b k st, P b [] (S k) st ([], st).
Hypothesis skip_cons : forall b c a k st,
  P (c :: b) a k st (gsub_from ml r f (c :: b) a k st) ->
  P b (c :: a) (S k) st (gsub_from ml r f (c :: b) a k st).
Hypothesis miss_nil : forall b st, exec_at ml r b [] = None -> P b [] 0 st ([], st).
Hypothesis miss_cons : forall b c a st out st2,
  exec_at ml r b (c :: a) = None ->
  gsub_from ml r f (c :: b) a 0 st = (out, st2) ->
  P (c :: b) a 0 st (out, st2) ->
  P b (c :: a) 0 st (c :: out, st2).
Hypothesis hit_nil : forall b st y rp st1,
  exec_at ml r b [] = Some y -> f st (MState b [] []) y = (rp, st1) ->
  P b [] 0 st (rp, st1).
Hypothesis hit_empty : forall b c a st y rp st1 out st2,
  exec_at ml r b (c :: a) = Some y ->
  f st (MState b (c :: a) []) y = (rp, st1) ->
  length (matched (MState b (c :: a) []) y) = 0 ->
  gsub_from ml r f (c :: b) a 0 st1 = (out, st2) ->
  P (c :: b) a 0 st1 (out, st2) ->
  P b (c :: a) 0 st (rp ++ c :: out, st2).
Hypothesis hit_cons : forall b c a st y rp st1 l out st2,
  exec_at ml r b (c :: a) = Some y ->
  f st (MState b (c :: a) []) y = (rp, st1) ->
  length (matched (MState b (c :: a) []) y) = S l ->
  gsub_from ml r f (c :: b) a l st1 = (out, st2) ->
  P (c :: b) a l st1 (out, st2) ->
  P b (c :: a) 0 st (rp ++ out, st2).

Lemma gsub_from_ind : forall a b skip st, P b a skip st (gsub_from ml r f b a skip st).
Proof.
  induction a as [|c a IH]; intros b skip st.
  - destruct skip as [|k]; cbn [gsub_from]; auto.
    destruct (exec_at ml r b []) as [y|] eqn:He; auto.
    destruct (f st (MState b [] []) y) as [rp st1] eqn:Hf. eauto.
  - destruct skip as [|k]; cbn [gsub_from]; auto.
    destruct (exec_at ml r b (c :: a)) as [y|] eqn:He.
    + destruct (f st (MState b (c :: a) []) y) as [rp st1] eqn:Hf.
      destruct (length (matched (MState b (c :: a) []) y)) as [|l] eqn:Hl.
      * destruct (gsub_from ml r f (c :: b) a 0 st1) as [out st2] eqn:Hg.
        eapply hit_empty; eauto. rewrite <- Hg. apply IH.
      * destruct (gsub_from ml r f (c :: b) a l st1) as [out st2] eqn:Hg.
        eapply hit_cons; eauto. rewrite <- Hg. apply IH.
    + destruct (gsub_from ml r f (c :: b) a 0 st) as [out st2] eqn:Hg.
      eapply miss_cons; eauto. rewrite <- Hg. apply IH.
Qed.
End GsubInduction.

(** Where no attempt succeeds, a global replace changes nothing. *)
Lemma gsub_from_miss St ml r (f : St -> mstate -> mstate -> str * St) : forall a b st,
  (forall pre a', a = pre ++ a' -> exec_at ml r (rev pre ++ b) a' = None) ->
  gsub_from ml r f b a 0 st = (a, st).
Proof.
  induction a as [|c a IH]; intros b st H; cbn [gsub_from].
  - pose proof (H [] [] eq_refl) as H0. simpl in H0. rewrite H0. reflexivity.
  - pose proof (H [] (c :: a) eq_refl) as H0. simpl in H0. rewrite H0.
    rewrite IH; auto.
    intros pre a' ->. specialize (H (c :: pre) a' eq_refl).
    simpl in H. rewrite <- app_assoc in H. exact H.
Qed.

(** A property of all code units carries over from the input to the
    output when every replacement has it. *)
Lemma gsub_from_Forall St ml r (f : St -> mstate -> mstate -> str * St)
    (Q : char -> Prop) :
  (forall st b a y, Forall Q b -> Forall Q a -> exec_at ml r b a = Some y ->
     Forall Q (fst (f st (MState b a []) y))) ->
  forall a b skip st, Forall Q b -> Forall Q a ->
    Forall Q (fst (gsub_from ml r f b a skip st)).
Proof.
  intros Hf.
  intros a0 b0 skip0 st0.
  apply (@gsub_from_ind St ml r f
    (fun b a skip st res => Forall Q b -> Forall Q a -> Forall Q (fst res)));
    cbn [fst].
  - auto.
  - intros b c a k st IH Hb Ha. inversion Ha; subst. auto.
  - auto.
  - intros b c a st out st2 _ _ IH Hb Ha. inversion Ha; subst. auto.
  - intros b st y rp st1 He Hrp Hb Ha.
    specialize (Hf st b [] y Hb Ha He). rewrite Hrp in Hf. exact Hf.
  - intros b c a st y rp st1 out st2 He Hrp _ _ IH Hb Ha.
    specialize (Hf st b (c :: a) y Hb Ha He). rewrite Hrp in Hf.
    inversion Ha; subst. apply Forall_app. split; auto.
  - intros b c a st y rp st1 l out st2 He Hrp _ _ IH Hb Ha.
    specialize (Hf st b (c :: a) y Hb Ha He). rewrite Hrp in Hf.
    inversion Ha; subst. apply Forall_app. split; auto.
Qed.

(** A property of the closure state carries over when every callback
    keeps it. *)
Lemma gsub_from_state St ml r (f : St -> mstate -> mstate -> str * St)
    (I : St -> Prop) (s : str) :
  (forall st b a y, I st -> rev b ++ a = s ->
     exec_at ml r b a = Some y -> I (snd (f st (MState b a []) y))) ->
  forall a b skip st, rev b ++ a = s -> I st ->
    I (snd (gsub_from ml r f b a skip st)).
Proof.
  intros Hf.
  assert (Hshift : forall b c (a : str), rev b ++ c :: a = s -> rev (c :: b) ++ a = s).
  { intros b c a H. simpl. rewrite <- app_assoc. exact H. }
  intros a0 b0 skip0 st0.
  apply (@gsub_from_ind St ml r f
    (fun b a skip st res => rev b ++ a = s -> I st -> I (snd res)));
    cbn [snd].
  - auto.
  - intros b c a k st IH Hs Hi. auto.
  - auto.
  - intros b c a st out st2 _ _ IH Hs Hi. auto.
  - intros b st y rp st1 He Hrp Hs Hi.
    specialize (Hf st b [] y Hi Hs He). rewrite Hrp in Hf. exact Hf.
  - intros b c a st y rp st1 out st2 He Hrp _ _ IH Hs Hi.
    specialize (Hf st b (c :: a) y Hi Hs He). rewrite Hrp in Hf. auto.
  - intros b c a st y rp st1 l out st2 He Hrp _ _ IH Hs Hi.
    specialize (Hf st b (c :: a) y Hi Hs He). rewrite Hrp in Hf. auto.
Qed.

(** ** Properties of all code units *)

Lemma step_char_all Q fwd k x y : step_char fwd k x = Some y -> st_all Q x -> st_all Q y.
Proof.
  unfold step_char, st_all. destruct fwd.
  - destruct (aft x) as [|c a] eqn:Ha; [discriminate|].
    destruct (cmatch k c); [|discriminate]. intros H; inversion H; subst; simpl.
    intros (Hb & Ha' & Hc). inversion Ha'; subst. auto.
  - destruct (bef x) as [|c b] eqn:Hb; [discriminate|].
    destruct (cmatch k c); [|discriminate]. intros H; inversion H; subst; simpl.
    intros (Hb' & Ha' & Hc). inversion Hb'; subst. auto.
Qed.

Lemma Forall_firstn (Q : char -> Prop) n (l : str) : Forall Q l -> Forall Q (firstn n l).
Proof.
  intros H. rewrite <- (firstn_skipn n l) in H. apply Forall_app in H. tauto.
Qed.

Lemma Forall_skipn (Q : char -> Prop) n (l : str) : Forall Q l -> Forall Q (skipn n l).
Proof.
  intros H. rewrite <- (firstn_skipn n l) in H. apply Forall_app in H. tauto.
Qed.

Lemma between_all Q fwd x y : st_all Q x -> st_all Q y -> Forall Q (between fwd x y).
Proof.
  unfold st_all, between. intros (_ & Hx & _) (_ & Hy & _).
  destruct fwd; apply Forall_firstn; auto.
Qed.

Lemma cap_clear_all (Q : str -> Prop) gs cs :
  Forall (fun kv : nat * str => Q (snd kv)) cs ->
  Forall (fun kv : nat * str => Q (snd kv)) (cap_clear gs cs).
Proof.
  unfold cap_clear. induction 1; simpl; auto.
  destruct (negb _); auto.
Qed.

(** Matching keeps a property that every code unit of the input has:
    captures are cut out of the input. *)
Lemma sem_all Q ml r : forall fwd x y, sem ml r fwd x y -> st_all Q x -> st_all Q y.
Proof.
  induction r as [|c|r1 IH1 r2 IH2|r1 IH1 r2 IH2|g mn mx r1 IH|n r1 IH| | |ah ps r1 IH];
    intros fwd x y H Hx; cbn [sem] in H.
  - subst. auto.
  - eapply step_char_all; eauto.
  - destruct fwd; destruct H as (z & H1 & H2); eauto.
  - destruct H; eauto.
  - destruct H as (n & _ & _ & H).
    revert H. apply (iterN_ind_inv (st_all Q)); auto.
    intros a b Ha Hab. eapply IH; eauto.
    destruct Ha as (A1 & A2 & A3). repeat split; auto.
    simpl. apply cap_clear_all. exact A3.
  - destruct H as (z & H & ->). pose proof (IH _ _ _ H Hx) as Hz.
    pose proof (between_all Q fwd x z Hx Hz) as Hb.
    destruct Hz as (A1 & A2 & A3). repeat split; auto.
    simpl. constructor; auto.
  - destruct H as [_ ->]. auto.
  - destruct H as [_ ->]. auto.
  - destruct ps.
    + destruct H as (z & H & ->). apply IH in H; auto.
      destruct Hx as (A1 & A2 & A3). destruct H as (_ & _ & B3).
      repeat split; auto.
    + destruct H as [-> _]. auto.
Qed.

Lemma exec_at_all Q ml r b a y : wf r = true ->
  Forall Q b -> Forall Q a -> exec_at ml r b a = Some y -> st_all Q y.
Proof.
  intros Hwf Hb Ha H. apply exec_at_sound in H; auto.
  eapply sem_all; [exact H|]. repeat split; simpl; auto.
Qed.

Lemma cap_all Q n y : st_all Q y -> Forall Q (cap n y).
Proof.
  intros (_ & _ & H). unfold cap.
  induction H as [|[k v] cs Hv Hcs IH]; simpl; auto.
  destruct (Nat.eqb k n); auto.
Qed.

Lemma matched_all Q b a y : Forall Q a -> Forall Q (matched (MState b a []) y).
Proof. intros H. unfold matched, between. simpl. apply Forall_firstn. exact H. Qed.

(** The match of a forward attempt, spelled out. *)
Lemma exec_at_split ml r b a y : wf r = true -> exec_at ml r b a = Some y ->
  a = matched (MState b a []) y ++ aft y /\
  bef y = rev (matched (MState b a []) y) ++ b.
Proof.
  intros Hwf H. apply exec_at_sound in H; auto. apply sem_fwd in H.
  destruct H as (mt & Ha & Hb). simpl in Ha, Hb.
  rewrite (matched_app b a [] mt y Ha). auto.
Qed.

(** Groups that a pattern does not contain keep their captures. *)
Lemma cap_get_clear n gs cs : ~ In n gs -> cap_get n (cap_clear gs cs) = cap_get n cs.
Proof.
  intros Hn. unfold cap_clear. induction cs as [|[k v] cs IH]; simpl; auto.
  destruct (existsb (Nat.eqb k) gs) eqn:He; simpl.
  - destruct (Nat.eqb k n) eqn:Hk; auto.
    apply Nat.eqb_eq in Hk. subst. apply existsb_exists in He.
    destruct He as (g & Hg & Hgn). apply Nat.eqb_eq in Hgn. subst. contradiction.
  - rewrite IH. reflexivity.
Qed.

Lemma sem_cap_other ml r n : forall fwd x y, sem ml r fwd x y -> ~ In n (groups r) ->
  cap_get n (caps y) = cap_get n (caps x).
Proof.
  induction r as [|c|r1 IH1 r2 IH2|r1 IH1 r2 IH2|g mn mx r1 IH|k r1 IH| | |ah ps r1 IH];
    intros fwd x y H Hn; cbn [sem groups] in *.
  - subst. auto.
  - apply step_char_inp in H. destruct H as [_ ->]. auto.
  - rewrite in_app_iff in Hn.
    destruct fwd; destruct H as (z & H1 & H2).
    + rewrite (IH2 _ _ _ H2), (IH1 _ _ _ H1); tauto.
    + rewrite (IH1 _ _ _ H2), (IH2 _ _ _ H1); tauto.
  - rewrite in_app_iff in Hn. destruct H; [eapply IH1|eapply IH2]; eauto.
  - destruct H as (j & _ & _ & H).
    revert H. apply (iterN_ind_inv (fun s => cap_get n (caps s) = cap_get n (caps x))); auto.
    intros a b Ha Hab. rewrite (IH _ _ _ Hab Hn). simpl.
    rewrite cap_get_clear; auto.
  - destruct H as (z & H & ->). simpl.
    destruct (Nat.eqb k n) eqn:Hk.
    + apply Nat.eqb_eq in Hk. subst. simpl in Hn. tauto.
    + apply (IH _ _ _ H). simpl in Hn. tauto.
  - destruct H as [_ ->]. auto.
  - destruct H as [_ ->]. auto.
  - destruct ps.
    + destruct H as (z & H & ->). simpl. eapply IH; eauto.
    + destruct H as [-> _]. auto.
Qed.

(** ** Leading quote depth *)

Lemma qdepth_LT z : qdepth (LT :: z) = 0.
Proof. destruct z as [|? [|? [|? ?]]]; reflexivity. Qed.

Lemma qdepth_stop z : z = [] \/ (exists z', z = LT :: z') -> qdepth z = 0.
Proof. intros [->|[z' ->]]; [reflexivity|apply qdepth_LT]. Qed.

Lemma qdepth_prefix_le : forall n p w z, length p <= n ->
  (z = [] \/ exists z', z = LT :: z') -> qdepth (p ++ z) <= qdepth (p ++ w).
Proof.
  induction n as [|n IH]; intros p w z Hlen Hz.
  - destruct p; [|simpl in Hlen; lia]. cbn [app].
    rewrite (qdepth_stop z Hz). lia.
  - destruct p as [|c p]; simpl in Hlen.
    + cbn [app]. rewrite (qdepth_stop z Hz). lia.
    + cbn [app qdepth]. destruct (is_ws c).
      * apply IH; auto. lia.
      * destruct p as [|c2 [|c3 [|c4 p]]]; cbn [app].
        -- destruct Hz as [->|[z' ->]]; [lia|].
           destruct z' as [|? [|? ?]]; try lia.
           destruct (N.eqb c 38); simpl; lia.
        -- destruct Hz as [->|[z' ->]]; [lia|].
           destruct z' as [|? ?]; try lia.
           destruct (N.eqb c 38), (N.eqb c2 103); simpl; lia.
        -- destruct Hz as [->|[z' ->]]; [lia|].
           destruct (N.eqb c 38), (N.eqb c2 103), (N.eqb c3 116); simpl; lia.
        -- destruct (_ && _)%bool; [|lia].
           apply le_n_S. apply IH; auto. simpl in Hlen. lia.
Qed.

Lemma qdepth_safe_prefix x out : safe_prefix x out -> qdepth out <= qdepth x.
Proof.
  intros (p & z & w & -> & -> & Hz). eapply qdepth_prefix_le; eauto.
Qed.

Lemma safe_prefix_refl x : safe_prefix x x.
Proof. exists x, [], []. rewrite app_nil_r. auto. Qed.

Lemma safe_prefix_cons c x out : safe_prefix x out -> safe_prefix (c :: x) (c :: out).
Proof.
  intros (p & z & w & -> & -> & Hz). exists (c :: p), z, w. auto.
Qed.

Lemma safe_prefix_head rp a rest : head_ok rp a -> safe_prefix a (rp ++ rest).
Proof.
  intros [[z ->]|(c & a' & z & -> & ->)].
  - exists [], (LT :: z ++ rest), a. simpl. eauto.
  - exists [c], (LT :: z ++ rest), a'. simpl. eauto.
Qed.

Lemma qdepth_ws u z : Forall (fun c => is_ws c = true) u -> qdepth (u ++ z) = qdepth z.
Proof.
  induction 1 as [|c u Hc Hu IH]; auto. cbn [app qdepth]. rewrite Hc. exact IH.
Qed.

Lemma dropWhile_split f s :
  exists u, s = u ++ dropWhile f s /\ Forall (fun c => f c = true) u /\
    match dropWhile f s with c :: _ => f c = false | [] => True end.
Proof.
  induction s as [|c s (u & Hs & Hu & Hh)]; simpl.
  - exists []. auto.
  - destruct (f c) eqn:Hc.
    + exists (c :: u). simpl. rewrite <- Hs. auto.
    + exists []. simpl. auto.
Qed.

Lemma qdepth_trimStart s : qdepth (trimStart s) = qdepth s.
Proof.
  unfold trimStart. destruct (dropWhile_split is_ws s) as (u & Hs & Hu & _).
  rewrite Hs at 2. rewrite qdepth_ws; auto.
Qed.

(** ** Prefixes under a global replace *)

Lemma gsub_from_safe_prefix St ml r (f : St -> mstate -> mstate -> str * St) :
  (forall st b a y, exec_at ml r b a = Some y ->
     head_ok (fst (f st (MState b a []) y)) a) ->
  forall a b st, safe_prefix a (fst (gsub_from ml r f b a 0 st)).
Proof.
  intros Hf a0 b0 st0.
  cut (0 = 0 -> safe_prefix a0 (fst (gsub_from ml r f b0 a0 0 st0))); [auto|].
  generalize 0 at 1 3. intros skip0.
  apply (@gsub_from_ind St ml r f
    (fun b a skip st res => skip = 0 -> safe_prefix a (fst res))); cbn [fst].
  - discriminate.
  - discriminate.
  - intros. apply safe_prefix_refl.
  - intros b c a st out st2 _ _ IH _. apply safe_prefix_cons. auto.
  - intros b st y rp st1 He Hrp _.
    specialize (Hf st b [] y He). rewrite Hrp in Hf.
    rewrite <- (app_nil_r rp). apply safe_prefix_head. exact Hf.
  - intros b c a st y rp st1 out st2 He Hrp _ _ _ _.
    specialize (Hf st b (c :: a) y He). rewrite Hrp in Hf.
    apply safe_prefix_head. exact Hf.
  - intros b c a st y rp st1 l out st2 He Hrp _ _ _ _.
    specialize (Hf st b (c :: a) y He). rewrite Hrp in Hf.
    apply safe_prefix_head. exact Hf.
Qed.

(** ** Replacement templates *)

Lemma getSubstitution_Forall (Q : char -> Prop) mt before after ncaps cs :
  Forall Q mt -> Forall Q before -> Forall Q after ->
  Forall (fun kv : nat * str => Forall Q (snd kv)) cs ->
  forall n t, length t <= n -> Forall Q t ->
    Forall Q (getSubstitution mt before after ncaps cs t).
Proof.
  intros Hmt Hbe Haf Hcs.
  assert (Hcap : forall i, Forall Q (match cap_get i cs with Some v => v | None => [] end)).
  { intros i. induction Hcs as [|[k v] cs' Hv _ IH]; simpl; auto.
    destruct (Nat.eqb k i); auto. }
  induction n as [|n IH]; intros t Hlen Ht.
  - destruct t; [constructor|simpl in Hlen; lia].
  - destruct t as [|c t1]; [constructor|].
    cbn [getSubstitution]. simpl in Hlen.
    inversion Ht as [|? ? Hc Ht1]; subst.
    destruct (N.eqb c 36) eqn:Hdollar; cbn [negb];
      [|constructor; auto; apply IH; auto; lia].
    destruct t1 as [|d t2]; [auto|].
    simpl in Hlen. inversion Ht1 as [|? ? Hd Ht2]; subst.
    assert (R1 : Forall Q (getSubstitution mt before after ncaps cs (d :: t2))).
    { apply IH; auto. simpl. lia. }
    assert (R2 : Forall Q (getSubstitution mt before after ncaps cs t2)).
    { apply IH; auto. lia. }
    assert (Hone : Forall Q
      (if (Nat.leb 1 (N.to_nat (d - 48)) && Nat.leb (N.to_nat (d - 48)) ncaps)%bool
       then match cap_get (N.to_nat (d - 48)) cs with Some v => v | None => [] end
            ++ getSubstitution mt before after ncaps cs t2
       else c :: d :: getSubstitution mt before after ncaps cs t2)).
    { destruct (_ && _)%bool; [apply Forall_app; auto|auto]. }
    destruct (N.eqb d 36);
      [constructor; [apply N.eqb_eq in Hdollar; rewrite <- Hdollar; exact Hc|exact R2]|].
    destruct (N.eqb d 96); [apply Forall_app; auto|].
    destruct (N.eqb d 38); [apply Forall_app; auto|].
    destruct (N.eqb d 39); [apply Forall_app; auto|].
    destruct (is_digit d); [|auto].
    destruct t2 as [|e t3]; [exact Hone|].
    destruct (is_digit e); [|exact Hone].
    destruct (Nat.ltb _ _); [exact Hone|].
    inversion Ht2 as [|? ? He Ht3]; subst.
    assert (R3 : Forall Q (getSubstitution mt before after ncaps cs t3)).
    { apply IH; auto. simpl in Hlen. lia. }
    destruct (Nat.leb 1 (10 * N.to_nat (d - 48) + N.to_nat (e - 48)));
      [apply Forall_app; auto|repeat constructor; auto].
Qed.

Lemma template_Forall (Q : char -> Prop) ml r ncaps t b a y : wf r = true ->
  Forall Q t -> Forall Q b -> Forall Q a -> exec_at ml r b a = Some y ->
  Forall Q (template ncaps t (MState b a []) y).
Proof.
  intros Hwf Ht Hb Ha He. unfold template.
  pose proof (exec_at_all Q ml r b a y Hwf Hb Ha He) as (Y1 & Y2 & Y3).
  eapply getSubstitution_Forall; eauto.
  - apply matched_all. exact Ha.
  - simpl. apply Forall_rev. exact Hb.
Qed.

Lemma gsub_Forall (Q : char -> Prop) ml r f s :
  (forall b a y, Forall Q b -> Forall Q a -> exec_at ml r b a = Some y ->
     Forall Q (f (MState b a []) y)) ->
  Forall Q s -> Forall Q (gsub ml r f s).
Proof.
  intros Hf Hs. unfold gsub, gsubS. apply gsub_from_Forall; auto.
Qed.

Lemma gsubT_Forall (Q : char -> Prop) ml r ncaps t s : wf r = true ->
  Forall Q t -> Forall Q s -> Forall Q (gsubT ml r ncaps t s).
Proof.
  intros Hwf Ht Hs. unfold gsubT. apply gsub_Forall; auto.
  intros b a y Hb Ha He. eapply template_Forall; eauto.
Qed.

Lemma gsub_safe_prefix ml r f s :
  (forall b a y, exec_at ml r b a = Some y -> head_ok (f (MState b a []) y) a) ->
  safe_prefix s (gsub ml r f s).
Proof.
  intros Hf. unfold gsub, gsubS. apply gsub_from_safe_prefix. intros. cbn [fst]. auto.
Qed.

(** * The passes on a single line *)

Lemma sem_consumes Q ml r : consumes Q r -> forall x y, sem ml r true x y ->
  exists mt, aft x = mt ++ aft y /\ bef y = rev mt ++ bef x /\ Forall Q mt.
Proof.
  induction r as [|c|r1 IH1 r2 IH2|r1 IH1 r2 IH2|g mn mx r1 IH|n r1 IH| | |ah ps r1 IH];
    intros HQ x y H; cbn [sem consumes] in *.
  - subst. exists []. auto.
  - unfold step_char in H. destruct (aft x) as [|d a] eqn:Ha; [discriminate|].
    destruct (cmatch c d) eqn:Hc; [|discriminate]. inversion H; subst; simpl.
    exists [d]. auto.
  - destruct HQ as [Q1 Q2]. destruct H as (z & H1 & H2).
    apply (IH1 Q1) in H1. apply (IH2 Q2) in H2.
    destruct H1 as (m1 & A1 & B1 & C1). destruct H2 as (m2 & A2 & B2 & C2).
    exists (m1 ++ m2). rewrite A1, A2, B2, B1, rev_app_distr, !app_assoc.
    repeat split; auto. apply Forall_app. auto.
  - destruct HQ as [Q1 Q2]. destruct H; eauto.
  - destruct H as (n & _ & _ & H).
    revert x H. induction n as [|n IHn]; cbn [iterN]; intros x H.
    + subst. exists []. auto.
    + destruct H as (z & H1 & H2). apply (IH HQ) in H1. apply IHn in H2.
      destruct H1 as (m1 & A1 & B1 & C1). destruct H2 as (m2 & A2 & B2 & C2).
      simpl in A1, B1.
      exists (m1 ++ m2). rewrite A1, A2, B2, B1, rev_app_distr, !app_assoc.
      repeat split; auto. apply Forall_app. auto.
  - destruct H as (z & H & ->). apply (IH HQ) in H. exact H.
  - destruct H as [_ ->]. exists []. auto.
  - destruct H as [_ ->]. exists []. auto.
  - destruct ps.
    + destruct H as (z & _ & ->). exists []. auto.
    + destruct H as [-> _]. exists []. auto.
Qed.

Lemma forallb_term_free s :
  forallb (fun c => negb (is_term c)) s = true -> term_free s.
Proof.
  intros H. apply Forall_forall. intros c Hc.
  rewrite forallb_forall in H. apply H in Hc. destruct (is_term c); auto; discriminate.
Qed.

Ltac tf_closed := apply forallb_term_free; vm_compute; reflexivity.

Lemma uint_digits_term_free u : term_free (uint_digits u).
Proof. induction u; simpl; constructor; auto. Qed.

Lemma num_to_str_term_free n : term_free (num_to_str n).
Proof. apply uint_digits_term_free. Qed.

Lemma term_free_app a b : term_free a -> term_free b -> term_free (a ++ b).
Proof. intros. apply Forall_app. auto. Qed.

Lemma term_free_q s : term_free s -> term_free (q s).
Proof.
  intros H. unfold q. constructor; [reflexivity|].
  apply term_free_app; auto. constructor; [reflexivity|constructor].
Qed.

Lemma split_on_single sep s : Forall (fun c => N.eqb c sep = false) s ->
  split_on sep s = [s].
Proof.
  induction 1 as [|c s Hc Hs IH]; simpl; auto.
  rewrite Hc, IH. reflexivity.
Qed.

Lemma term_free_no_nl s : term_free s -> Forall (fun c => N.eqb c NL = false) s.
Proof.
  apply Forall_impl. intros c Hc. destruct (N.eqb c NL) eqn:E; auto.
  apply N.eqb_eq in E. subst. discriminate.
Qed.

Lemma split_on_Forall (Q : char -> Prop) sep s : Forall Q s ->
  Forall (Forall Q) (split_on sep s).
Proof.
  induction 1 as [|c s Hc Hs IH]; simpl.
  - repeat constructor.
  - destruct (N.eqb c sep).
    + constructor; auto.
    + destruct (split_on sep s) as [|l ls].
      * repeat constructor; auto.
      * inversion IH; subst. constructor; auto.
Qed.

Lemma dropWhile_Forall (Q : char -> Prop) f s : Forall Q s -> Forall Q (dropWhile f s).
Proof.
  induction 1 as [|c s Hc Hs IH]; simpl; auto. destruct (f c); auto.
Qed.

Lemma trimStart_Forall (Q : char -> Prop) s : Forall Q s -> Forall Q (trimStart s).
Proof. apply dropWhile_Forall. Qed.

Lemma trimEnd_Forall (Q : char -> Prop) s : Forall Q s -> Forall Q (trimEnd s).
Proof.
  intros H. unfold trimEnd. apply Forall_rev. apply dropWhile_Forall.
  apply Forall_rev. exact H.
Qed.

Lemma trim_Forall (Q : char -> Prop) s : Forall Q s -> Forall Q (trim s).
Proof. intros H. unfold trim. apply trimEnd_Forall. apply trimStart_Forall. exact H. Qed.

Lemma concat_Forall (Q : char -> Prop) ls : Forall (Forall Q) ls -> Forall Q (concat ls).
Proof. induction 1; simpl; auto. apply Forall_app. auto. Qed.

Lemma join_Forall (Q : char -> Prop) sep ls : Forall Q sep -> Forall (Forall Q) ls ->
  Forall Q (join sep ls).
Proof.
  intros Hsep. induction 1 as [|l ls Hl Hls IH]; simpl; auto.
  destruct ls; auto. apply Forall_app. split; auto. apply Forall_app. auto.
Qed.

Lemma search_Forall (Q : char -> Prop) ml r s x y : wf r = true -> Forall Q s ->
  search ml r [] s = Some (x, y) ->
  Forall Q (rev (bef x)) /\ Forall Q (aft y) /\ st_all Q y.
Proof.
  intros Hwf Hs H. apply search_sound in H.
  destruct H as (pre & a' & -> & -> & He). apply Forall_app in Hs. destruct Hs as [Hp Ha].
  rewrite app_nil_r in He. simpl. rewrite app_nil_r, rev_involutive.
  assert (Hy : st_all Q y).
  { apply (exec_at_all Q ml r (rev pre) a' y); auto. apply Forall_rev. exact Hp. }
  split; auto. split; auto. destruct Hy as (_ & Hy & _). exact Hy.
Qed.

Lemma replace_first_Forall (Q : char -> Prop) ml r f s : wf r = true ->
  (forall x y, st_all Q y -> Forall Q (f x y)) ->
  Forall Q s -> Forall Q (replace_first ml r f s).
Proof.
  intros Hwf Hf Hs. unfold replace_first.
  destruct (search ml r [] s) as [[x y]|] eqn:H; auto.
  destruct (search_Forall Q ml r s x y Hwf Hs H) as (A & B & C).
  apply Forall_app. split; auto. apply Forall_app. split; auto.
Qed.

(** A pass whose replacements all start with [<] is quiet. *)
Lemma quiet_gsub ml r f : wf r = true ->
  (forall b a y, term_free b -> term_free a -> exec_at ml r b a = Some y ->
     term_free (f (MState b a []) y)) ->
  (forall b a y, exec_at ml r b a = Some y -> head_ok (f (MState b a []) y) a) ->
  quiet (gsub ml r f).
Proof.
  intros Hwf Hq Hh x Hx. split.
  - apply gsub_Forall; auto.
  - apply qdepth_safe_prefix. apply gsub_safe_prefix. exact Hh.
Qed.

Lemma head_ok_lt z a : head_ok (LT :: z) a.
Proof. left. eauto. Qed.

Lemma template_lt ncaps t x y :
  template ncaps (LT :: t) x y
  = LT :: getSubstitution (matched x y) (rev (bef x)) (aft y) ncaps (caps y) t.
Proof. reflexivity. Qed.

Lemma quiet_template_lt ml r ncaps t : wf r = true -> term_free t ->
  quiet (gsubT ml r ncaps (LT :: t)).
Proof.
  intros Hwf Ht. apply quiet_gsub; auto.
  - intros b a y Hb Ha He. apply (template_Forall _ ml r); auto.
  - intros b a y He. rewrite template_lt. apply head_ok_lt.
Qed.

(** ** The escape pass *)

Lemma placeholder_term_free p n : term_free p ->
  term_free (p ++ num_to_str n ++ js "-->").
Proof.
  intros Hp. apply term_free_app; auto. apply term_free_app.
  - apply num_to_str_term_free.
  - tf_closed.
Qed.

Lemma escapePass_quiet t x : term_free x ->
  term_free (fst (escapePass x t)) /\ qdepth (fst (escapePass x t)) <= qdepth x.
Proof.
  intros Hx. unfold escapePass, gsubS. split.
  - apply gsub_from_Forall; [|constructor|exact Hx].
    intros st b a y _ _ _. cbn [escape_cb fst].
    apply placeholder_term_free. tf_closed.
  - apply qdepth_safe_prefix. apply gsub_from_safe_prefix.
    intros st b a y _. cbn [escape_cb fst].
    change (js "<!--escaped_") with (LT :: js "!--escaped_").
    apply head_ok_lt.
Qed.

(** ** The tokenizer *)

Lemma rep_loop_greedy_total body gs fuel mx x k :
  (forall y, k y <> None) ->
  rep_loop body gs true (S fuel) 0 mx x k <> None.
Proof.
  intros Hk. cbn [rep_loop]. destruct (max_zero mx); [apply Hk|].
  cbn [Nat.eqb negb]. destruct (body _ _); [discriminate|apply Hk].
Qed.

(** [l.match(/^ */)] is never null. *)
Lemma leading_spaces_total l : exists n, leading_spaces l = Ok n.
Proof.
  unfold leading_spaces.
  destruct (search false re_spaces [] l) as [[x y]|] eqn:H; [eauto|].
  exfalso. pose proof (search_none false re_spaces l [] H [] l eq_refl) as He.
  revert He. unfold exec_at, re_spaces, star. cbn [m rev app at_bol bef].
  apply rep_loop_greedy_total. discriminate.
Qed.

Lemma min_indent_total lines : forall acc, exists n, min_indent lines acc = Ok n.
Proof.
  induction lines as [|l ls IH]; intros acc; cbn [min_indent]; eauto.
  destruct (negb (is_blank l)); auto.
  destruct (leading_spaces_total l) as [n ->]. cbn [bind]. auto.
Qed.

Lemma code_block_html_total t lang codeText :
  exists html, code_block_html t lang codeText = Ok html.
Proof.
  unfold code_block_html.
  match goal with |- context [min_indent ?ls ?acc] =>
    destruct (min_indent_total ls acc) as [n ->] end.
  cbn [bind]. eauto.
Qed.

(** One step of the tokenizer never throws; it copies one code unit or
    emits a placeholder. *)
Lemma backtick_step_spec src t :
  exists piece used t', backtick_step src t = Ok (piece, used, t') /\
    (term_free src -> term_free piece) /\
    match src with
    | c :: _ => (piece = [c] /\ used = 1) \/ exists z, piece = LT :: z
    | [] => piece = []
    end.
Proof.
  unfold backtick_step.
  destruct (starts_with fence src) eqn:Hf.
  - destruct (lang_scan (skipn 3 src)) as [lang s1].
    destruct (find_sub fence [] (skip_char NL (skip_char CR s1))) as [[before after]|];
      match goal with |- context [code_block_html ?t ?l ?c] =>
        destruct (code_block_html_total t l c) as [html ->] end;
      cbn [bind]; do 3 eexists; (split; [reflexivity|]);
      (split; [intros _; apply placeholder_term_free; tf_closed|]);
      (destruct src; [discriminate|]); right;
      change (js "<!--codeblock_") with (LT :: js "!--codeblock_");
      eexists; reflexivity.
  - assert (Hin : forall (code : str) (used : nat),
      exists (piece : str) (used' : nat) (t' : tables),
        @Ok (str * nat * tables) (js "<!--inlinecode_" ++ num_to_str (inlineIndex t) ++ js "-->", used,
            Tables (codeBlocks t)
              (inlineCodeBlocks t ++
                 [(js "<!--inlinecode_" ++ num_to_str (inlineIndex t) ++ js "-->", code)])
              (escapePlaceholders t) (codeIndex t) (S (inlineIndex t)) (escapeIndex t))
        = Ok (piece, used', t') /\
        (term_free src -> term_free piece) /\ exists z, piece = LT :: z).
    { intros code used. do 3 eexists. split; [reflexivity|]. split.
      - intros _. apply placeholder_term_free. tf_closed.
      - change (js "<!--inlinecode_") with (LT :: js "!--inlinecode_").
        eexists; reflexivity. }
    destruct (starts_with [BT; BT] src) eqn:H2.
    + destruct src as [|c src']; [discriminate|].
      destruct (find_sub [BT; BT] [] (skipn 2 (c :: src'))) as [[before after]|];
        match goal with |- context [Ok (_, ?u, Tables _ (_ ++ [(_, ?cd)]) _ _ _ _)] =>
          destruct (Hin cd u) as (piece & used' & t' & E & T & Z) end;
        exists piece, used', t'; auto.
    + destruct src as [|c src'].
      * do 3 eexists. split; [reflexivity|]. split; auto.
      * destruct (N.eqb c BT).
        -- destruct (find_sub [BT] [] src') as [[before after]|];
             match goal with |- context [Ok (_, ?u, Tables _ (_ ++ [(_, ?cd)]) _ _ _ _)] =>
               destruct (Hin cd u) as (piece & used' & t' & E & T & Z) end;
             exists piece, used', t'; auto.
        -- do 3 eexists. split; [reflexivity|]. split; auto.
           intros H. inversion H; subst. constructor; auto.
Qed.

Lemma parseBackticks_from_spec : forall src skip t,
  exists out t', parseBackticks_from src skip t = Ok (out, t') /\
    (term_free src -> term_free out) /\
    (skip = 0 -> safe_prefix src out).
Proof.
  induction src as [|c rest IH]; intros skip t.
  - exists [], t. cbn [parseBackticks_from]. repeat split; auto.
    intros _. apply safe_prefix_refl.
  - cbn [parseBackticks_from]. destruct skip as [|k].
    + destruct (backtick_step_spec (c :: rest) t) as (piece & used & t1 & -> & Ht & Hp).
      cbn [bind]. destruct Hp as [[-> ->]|[z ->]].
      * cbn [pred]. destruct (IH 0 t1) as (out & t2 & -> & Ho & Hs).
        cbn [bind]. exists ([c] ++ out), t2. split; [reflexivity|]. split.
        -- intros H. inversion H; subst. constructor; auto. apply Ho. auto.
        -- intros _. simpl. apply safe_prefix_cons. auto.
      * destruct (IH (pred used) t1) as (out & t2 & -> & Ho & _).
        cbn [bind]. exists ((LT :: z) ++ out), t2. split; [reflexivity|]. split.
        -- intros H. apply term_free_app; auto. apply Ho. inversion H; auto.
        -- intros _. apply safe_prefix_head. apply head_ok_lt.
    + destruct (IH k t) as (out & t2 & -> & Ho & _).
      exists out, t2. split; [reflexivity|]. split; [|discriminate].
      intros H. apply Ho. inversion H; auto.
Qed.

(** ** Anchors on a line without terminators *)

Lemma at_bol_term_free ml b a cs :
  at_bol ml (MState b a cs) = true -> term_free b -> b = [].
Proof.
  unfold at_bol. simpl. destruct b as [|c b]; auto.
  intros H Hb. inversion Hb as [|? ? Hc _]; subst. rewrite Hc in H.
  destruct ml; discriminate.
Qed.

Lemma at_eol_term_free ml x : at_eol ml x = true -> term_free (aft x) -> aft x = [].
Proof.
  unfold at_eol. destruct (aft x) as [|c a]; auto.
  intros H Ha. inversion Ha as [|? ? Hc _]; subst. rewrite Hc in H.
  destruct ml; discriminate.
Qed.

Lemma at_bol_false b a cs : at_bol false (MState b a cs) = true -> b = [].
Proof. unfold at_bol. simpl. destruct b; auto. discriminate. Qed.

(** ** Indentation *)

Lemma trim_line_quiet x : term_free x ->
  term_free (trim_line x) /\ qdepth (trim_line x) <= qdepth x.
Proof.
  intros Hx. unfold trim_line. destruct (_ || _)%bool; [auto|].
  split.
  - apply replace_first_Forall; auto.
  - unfold replace_first.
    destruct (search false re_leading_ws [] x) as [[x0 y0]|] eqn:H; [|auto].
    apply search_sound in H. destruct H as (pre & a' & -> & -> & He).
    apply exec_at_sound in He; [|reflexivity].
    unfold re_leading_ws in He. cbn [sem] in He.
    destruct He as (z & [Hb ->] & Hp).
    apply at_bol_false in Hb. rewrite app_nil_r in Hb.
    assert (pre = []) by (destruct pre; auto; apply (f_equal (@length _)) in Hb;
      rewrite length_rev in Hb; discriminate).
    subst pre. cbn [rev app bef].
    apply (sem_consumes (fun c => is_ws c = true)) in Hp.
    + destruct Hp as (mt & Ha & _ & Hmt). cbn [aft] in Ha. subst a'.
      rewrite qdepth_ws; auto.
    + cbn. intros c Hc. rewrite orb_false_r in Hc. exact Hc.
Qed.

Lemma trimIndentation_quiet : quiet trimIndentation.
Proof.
  intros x Hx. unfold trimIndentation.
  rewrite split_on_single by (apply term_free_no_nl; exact Hx).
  cbn [map join]. apply trim_line_quiet. exact Hx.
Qed.

(** ** Checkbox lists *)

Lemma checkbox_item_term_free line : term_free line -> term_free (checkbox_item line).
Proof.
  intros H. unfold checkbox_item.
  repeat (apply term_free_app || apply term_free_q); try tf_closed.
  - destruct (test _ _ _); [tf_closed|constructor].
  - apply replace_first_Forall; auto.
Qed.

Lemma checkboxPass_quiet : quiet checkboxPass.
Proof.
  apply quiet_gsub; [reflexivity| |].
  - intros b a y Hb Ha He. unfold checkbox_cb.
    repeat apply term_free_app; try tf_closed.
    apply concat_Forall. apply Forall_map.
    eapply Forall_impl; [intros l; apply checkbox_item_term_free|].
    apply split_on_Forall. apply trim_Forall. apply matched_all. exact Ha.
  - intros b a y He. unfold checkbox_cb.
    change (js "<ul>") with (LT :: js "ul>"). apply head_ok_lt.
Qed.

(** ** Nested lists *)

Lemma type_name_term_free ty : term_free (type_name ty).
Proof. destruct ty; tf_closed. Qed.

Lemma pop_deeper_term_free ind : forall stack html, term_free html ->
  term_free (fst (pop_deeper ind html stack)).
Proof.
  induction stack as [|top below IH]; intros html H; cbn [pop_deeper]; auto.
  destruct (Nat.ltb ind (indent top)); auto.
  apply IH. repeat apply term_free_app; auto; try tf_closed.
  apply type_name_term_free.
Qed.

Lemma pop_all_term_free : forall stack html, term_free html ->
  term_free (pop_all html stack).
Proof.
  induction stack as [|top below IH]; intros html H; cbn [pop_all]; auto.
  apply IH. repeat apply term_free_app; auto; try tf_closed.
  apply type_name_term_free.
Qed.

Lemma item_match_term_free line ind marker content : term_free line ->
  item_match line = Some (ind, marker, content) ->
  term_free marker /\ term_free content.
Proof.
  intros Hl. unfold item_match.
  destruct (search false re_item_dot [] line) as [[x y]|] eqn:H1.
  - intros E. inversion E; subst.
    destruct (search_Forall _ false re_item_dot line x y eq_refl Hl H1) as (_ & _ & Hy).
    split; apply cap_all; exact Hy.
  - destruct (search false re_item_bullet [] line) as [[x y]|] eqn:H2; [|discriminate].
    intros E. inversion E; subst.
    destruct (search_Forall _ false re_item_bullet line x y eq_refl Hl H2) as (_ & _ & Hy).
    split; apply cap_all; exact Hy.
Qed.

Lemma list_item_step_term_free ind marker content st :
  term_free marker -> term_free content -> term_free (fst st) ->
  term_free (fst (list_item_step ind marker content st)).
Proof.
  intros Hm Hc Hs. unfold list_item_step.
  pose proof (pop_deeper_term_free ind (snd st) (fst st) Hs) as Hp.
  destruct (pop_deeper ind (fst st) (snd st)) as [html stack]. cbn [fst] in Hp.
  assert (Hopen : forall ty, term_free (html ++ js "<" ++ type_name ty ++ js "><li>")).
  { intros ty. repeat apply term_free_app; auto; try tf_closed.
    apply type_name_term_free. }
  assert (Hitem : term_free
    (if match (if test false re_all_digits marker then ol else ul) with
        | ol => true | ul => false end
     then index_span marker ++ content else content)).
  { destruct (test false re_all_digits marker); auto.
    unfold index_span. repeat (apply term_free_app || apply term_free_q); auto;
      tf_closed. }
  destruct stack as [|top below]; [|destruct (Nat.ltb (indent top) ind)];
    cbn [fst]; apply term_free_app; auto.
  apply term_free_app; auto. tf_closed.
Qed.

Lemma list_lines_term_free lines : forall st, Forall term_free lines ->
  term_free (fst st) -> term_free (fst (fold_left list_line_step lines st)).
Proof.
  induction lines as [|line lines IH]; intros st Hl Hs; cbn [fold_left]; auto.
  inversion Hl; subst. apply IH; auto. unfold list_line_step.
  destruct (item_match line) as [[[ind marker] content]|] eqn:Hi; auto.
  destruct (item_match_term_free line ind marker content) as [A B]; auto.
  apply list_item_step_term_free; auto.
Qed.

Lemma list_block_html_term_free block : term_free block ->
  term_free (list_block_html block).
Proof.
  intros H. unfold list_block_html.
  pose proof (list_lines_term_free (split_on NL (trimEnd block)) ([], [])) as Hf.
  destruct (fold_left list_line_step _ _) as [html stack]. cbn [fst] in Hf.
  apply gsubT_Forall; [reflexivity|tf_closed|].
  apply pop_all_term_free. apply Hf; [|constructor].
  apply split_on_Forall. apply trimEnd_Forall. exact H.
Qed.

Lemma lt_headed_app s t : lt_headed s -> s <> [] -> lt_headed (s ++ t).
Proof.
  intros [->|[z ->]] Hs; [contradiction|]. right. simpl. eauto.
Qed.

Lemma strict_lt_app z t : exists z', (LT :: z) ++ t = LT :: z'.
Proof. simpl. eauto. Qed.

Lemma pop_deeper_lt ind : forall stack html z, html = LT :: z ->
  exists z', fst (pop_deeper ind html stack) = LT :: z'.
Proof.
  induction stack as [|top below IH]; intros html z ->; cbn [pop_deeper].
  - cbn [fst]. eauto.
  - destruct (Nat.ltb ind (indent top)); cbn [fst]; eauto.
    eapply IH. cbn [app]. reflexivity.
Qed.

Lemma pop_all_lt : forall stack html z, html = LT :: z -> exists z', pop_all html stack = LT :: z'.
Proof.
  induction stack as [|top below IH]; intros html z ->; cbn [pop_all]; eauto.
  eapply IH. cbn [app]. reflexivity.
Qed.

Lemma list_item_step_lt ind marker content st :
  (fst st = [] /\ snd st = []) \/ (exists z, fst st = LT :: z) ->
  exists z, fst (list_item_step ind marker content st) = LT :: z.
Proof.
  intros H. unfold list_item_step. destruct st as [h s]. cbn [fst snd] in *.
  destruct H as [[H1 H2]|[z Hz]].
  - subst h s. cbn [pop_deeper app].
    change (js "<") with [LT]. cbn [app fst]. eauto.
  - destruct (pop_deeper_lt ind s h z Hz) as [z' Hp].
    destruct (pop_deeper ind h s) as [html stack]. cbn [fst] in Hp.
    subst html.
    destruct stack as [|top below]; [|destruct (Nat.ltb (indent top) ind)];
      cbn [fst app]; eauto.
Qed.

Lemma list_lines_lt lines : forall st,
  (fst st = [] /\ snd st = []) \/ (exists z, fst st = LT :: z) ->
  let st' := fold_left list_line_step lines st in
  (fst st' = [] /\ snd st' = []) \/ (exists z, fst st' = LT :: z).
Proof.
  induction lines as [|line lines IH]; intros st H; cbn [fold_left]; auto.
  apply IH. unfold list_line_step.
  destruct (item_match line) as [[[ind marker] content]|]; auto.
  right. apply list_item_step_lt. exact H.
Qed.

Lemma safe_prefix_lt_headed x out : lt_headed x -> safe_prefix x out -> lt_headed out.
Proof.
  intros Hx (p & z & w & -> & -> & Hz).
  destruct p as [|c p].
  - destruct Hz as [->|[z' ->]]; [left|right]; simpl; eauto.
  - destruct Hx as [Hx|[z' Hx]]; [discriminate|]. inversion Hx; subst.
    right. simpl. eauto.
Qed.

Lemma list_block_html_lt block : lt_headed (list_block_html block).
Proof.
  unfold list_block_html.
  pose proof (list_lines_lt (split_on NL (trimEnd block)) ([], [])
                (or_introl (conj eq_refl eq_refl))) as Hf.
  cbv zeta in Hf.
  destruct (fold_left list_line_step _ _) as [html stack]. cbn [fst snd] in Hf.
  apply safe_prefix_lt_headed with (x := pop_all html stack).
  - destruct Hf as [[-> ->]|[z ->]]; [left; reflexivity|].
    right. apply pop_all_lt with (z := z). reflexivity.
  - unfold gsubT. apply gsub_safe_prefix. intros b a y _.
    change (js "<li value=") with (LT :: js "li value=").
    unfold template. cbn [app getSubstitution]. apply head_ok_lt.
Qed.

Lemma gsub_from_skip St ml r (f : St -> mstate -> mstate -> str * St) : forall u b a st,
  gsub_from ml r f b (u ++ a) (length u) st = gsub_from ml r f (rev u ++ b) a 0 st.
Proof.
  induction u as [|c u IH]; intros b a st; [reflexivity|].
  cbn [app length gsub_from]. rewrite IH. cbn [rev]. rewrite <- app_assoc. reflexivity.
Qed.

(** A pattern that can only match a whole line without terminators
    either leaves such a line alone or replaces all of it. *)
Lemma gsub_whole_line ml r f x : wf r = true -> term_free x ->
  (forall b a y, exec_at ml r b a = Some y -> term_free b -> term_free a ->
     b = [] /\ aft y = []) ->
  gsub ml r f x = x \/
  exists y, exec_at ml r [] x = Some y /\ gsub ml r f x = f (MState [] x []) y.
Proof.
  intros Hwf Hx Hr. unfold gsub, gsubS.
  assert (Hmiss : forall c b a st, term_free (rev (c :: b) ++ a) ->
    gsub_from ml r (fun (_ : unit) x y => (f x y, tt)) (c :: b) a 0 st = (a, st)).
  { intros c b a st Hba. apply gsub_from_miss. intros pre a' ->.
    destruct (exec_at ml r (rev pre ++ c :: b) a') as [y|] eqn:He; auto.
    exfalso. apply Hr in He.
    - destruct He as [He _]. destruct (rev pre); discriminate.
    - apply Forall_app in Hba. destruct Hba as [Hb Ha].
      apply Forall_app in Ha. destruct Ha as [Hp _].
      apply Forall_app. split; [apply Forall_rev; exact Hp|].
      apply Forall_rev in Hb. rewrite rev_involutive in Hb. exact Hb.
    - apply Forall_app in Hba. destruct Hba as [_ Ha].
      apply Forall_app in Ha. tauto. }
  destruct (exec_at ml r [] x) as [y|] eqn:He.
  - right. exists y. split; auto.
    destruct (Hr [] x y He) as [_ Hy]; auto. { constructor. }
    destruct (exec_at_split ml r [] x y Hwf He) as [Hs _].
    rewrite Hy, app_nil_r in Hs.
    destruct x as [|c a]; cbn [gsub_from]; rewrite He; [reflexivity|].
    cbv beta iota zeta. rewrite <- Hs. cbn [length].
    pose proof (gsub_from_skip unit ml r (fun (_ : unit) x y => (f x y, tt))
                  a [c] [] tt) as Hk.
    rewrite app_nil_r in Hk. rewrite Hk. clear Hk.
    destruct (rev a ++ [c]) as [|c' b'] eqn:Hb.
    { destruct (rev a); discriminate. }
    rewrite Hmiss.
    + cbn [fst]. apply app_nil_r.
    + rewrite app_nil_r, <- Hb, rev_app_distr, rev_involutive. exact Hx.
  - left. destruct x as [|c a]; cbn [gsub_from]; rewrite He; [reflexivity|].
    rewrite Hmiss; [reflexivity|]. exact Hx.
Qed.

Lemma qdepth_lt_headed s t : lt_headed s -> (s = [] -> t = []) -> qdepth (s ++ t) = 0.
Proof.
  intros [->|[z ->]] Ht.
  - rewrite Ht; reflexivity.
  - simpl. apply qdepth_LT.
Qed.

Lemma iterN_last R : forall n x y, iterN R (S n) x y ->
  exists z, iterN R n x z /\ R z y.
Proof.
  induction n as [|n IH]; intros x y H.
  - destruct H as (z & Hz & ->). exists x. simpl. auto.
  - destruct H as (z & Hz & H). apply IH in H. destruct H as (z' & H1 & H2).
    exists z'. split; auto. exists z. auto.
Qed.

Lemma iterN_first_last R n x y : 1 <= n -> iterN R n x y ->
  (exists z, R x z) /\ (exists z, R z y).
Proof.
  intros Hn H. destruct n as [|n]; [lia|]. split.
  - destruct H as (z & Hz & _). eauto.
  - apply iterN_last in H. destruct H as (z & _ & Hz). eauto.
Qed.

(** A match of the list-block pattern starts at the start of a line and
    ends at its end. *)
Lemma list_block_whole b a y :
  exec_at true re_list_block b a = Some y -> term_free b -> term_free a ->
  b = [] /\ aft y = [].
Proof.
  intros He Hb Ha.
  pose proof (exec_at_all _ true re_list_block b a y eq_refl Hb Ha He) as (Hyb & Hy & _).
  apply exec_at_sound in He; [|reflexivity].
  unfold re_list_block, plus in He. cbn [sem] in He.
  destruct He as (z & (n & Hn & _ & Hit) & ->). cbn [set_cap aft bef] in *.
  destruct (iterN_first_last _ n _ _ Hn Hit) as [(z1 & H1) (z2 & H2)].
  split.
  - cbn [seqs sem] in H1. destruct H1 as (z0 & [Hbol _] & _).
    apply at_bol_term_free in Hbol; auto.
  - cbn [seqs sem nl_or_eol] in H2.
    destruct H2 as (? & _ & ? & _ & ? & _ & ? & _ & w & _ & Hend).
    destruct Hend as [Hnl|[Heol ->]].
    + unfold c1 in Hnl. cbn [sem] in Hnl. unfold step_char in Hnl.
      destruct (aft w) as [|d a'] eqn:Hw; [discriminate|].
      destruct (cmatch _ d) eqn:Hd; [|discriminate]. inversion Hnl; subst.
      cbn in Hd. rewrite orb_false_r in Hd. apply N.eqb_eq in Hd. subst d.
      cbn [bef] in Hyb. inversion Hyb; subst. discriminate.
    + apply at_eol_term_free in Heol; auto.
Qed.

Lemma listPass_quiet : quiet listPass.
Proof.
  intros x Hx. split.
  - apply gsub_Forall; auto. intros b a y Hb Ha He. unfold list_cb.
    apply list_block_html_term_free. apply matched_all. exact Ha.
  - destruct (gsub_whole_line true re_list_block list_cb x eq_refl Hx list_block_whole)
      as [E|(y & _ & E)]; unfold listPass; rewrite E; [lia|].
    rewrite <- (app_nil_r (list_cb _ _)).
    rewrite qdepth_lt_headed; [lia|apply list_block_html_lt|auto].
Qed.

(** ** Inline patterns *)

Lemma between_self fwd x : between fwd x x = [].
Proof. unfold between. destruct fwd; rewrite Nat.sub_diag; reflexivity. Qed.

(** The first group of an emphasis pattern, [(^|\W)], captures nothing or
    the first code unit of the match. *)
Lemma lead_group_cap ml rest b a y : wf rest = true ->
  exec_at ml (Seq (Grp 1 (Alt Bol nonword)) rest) b a = Some y ->
  ~ In 1 (groups rest) ->
  cap 1 y = [] \/ exists c a', a = c :: a' /\ cap 1 y = [c].
Proof.
  intros Hwf He Hg. apply exec_at_sound in He; [|exact Hwf].
  cbn [sem] in He. destruct He as (z & (z0 & Hz0 & ->) & Hrest).
  unfold cap. rewrite (sem_cap_other ml rest 1 true _ y Hrest Hg).
  cbn [set_cap caps cap_get Nat.eqb].
  destruct Hz0 as [[_ ->]|Hstep].
  - left. apply between_self.
  - right. unfold nonword in Hstep. cbn [sem] in Hstep. unfold step_char in Hstep.
    cbn [aft bef caps] in Hstep. destruct a as [|c a']; [discriminate|].
    destruct (cmatch _ c); [|discriminate]. inversion Hstep; subst.
    exists c, a'. split; auto. unfold between. cbn [aft length].
    replace (S (length a') - length a') with 1 by lia. reflexivity.
Qed.

Lemma quiet_pattern_lt p t : p_template p = LT :: t -> wf (p_re p) = true ->
  term_free t -> quiet (fun md => apply_pattern md p).
Proof.
  intros Ht Hwf Htf. unfold apply_pattern. rewrite Ht.
  apply quiet_template_lt; auto.
Qed.

Lemma template_lead_group t x y :
  template 2 (36%N :: 49%N :: LT :: t) x y
  = cap 1 y ++ LT :: getSubstitution (matched x y) (rev (bef x)) (aft y) 2 (caps y) t.
Proof. reflexivity. Qed.

Lemma quiet_pattern_em p rest t :
  p_template p = 36%N :: 49%N :: LT :: t ->
  p_re p = Seq (Grp 1 (Alt Bol nonword)) rest ->
  p_ml p = false -> p_ncaps p = 2 ->
  wf rest = true -> ~ In 1 (groups rest) -> term_free t ->
  quiet (fun md => apply_pattern md p).
Proof.
  intros Ht Hre Hml Hn Hwf Hg Htf. unfold apply_pattern.
  rewrite Ht, Hre, Hml, Hn. unfold gsubT. apply quiet_gsub; auto.
  - intros b a y Hb Ha He.
    apply (template_Forall _ false (Seq (Grp 1 (Alt Bol nonword)) rest)); auto.
  - intros b a y He. rewrite template_lead_group.
    destruct (lead_group_cap false rest b a y Hwf He Hg) as [->|(c & a' & -> & ->)].
    + apply head_ok_lt.
    + right. exists c, a'. eexists. split; reflexivity.
Qed.

Lemma quiet_fold ps : Forall (fun p => quiet (fun md => apply_pattern md p)) ps ->
  quiet (fun md => fold_left apply_pattern ps md).
Proof.
  induction 1 as [|p ps Hp Hps IH]; intros x Hx; cbn [fold_left].
  - auto.
  - destruct (Hp x Hx) as [A B]. destruct (IH _ A) as [C D]. split; auto. lia.
Qed.

Lemma inlinePass_quiet : quiet inlinePass.
Proof.
  apply quiet_fold. unfold patterns.
  repeat (apply Forall_cons; [|]); [..|apply Forall_nil];
    first [ eapply quiet_pattern_lt;
              [vm_compute; reflexivity|reflexivity|tf_closed]
          | eapply quiet_pattern_em;
              [vm_compute; reflexivity|reflexivity|reflexivity|reflexivity
              |reflexivity|vm_compute; intuition discriminate|tf_closed] ].
Qed.

(** ** Images and links *)

Lemma title_attr_term_free y : term_free (cap 3 y) -> term_free (title_attr y).
Proof.
  intros H. unfold title_attr. destruct (cap 3 y) as [|c title] eqn:E; [constructor|].
  apply term_free_app; [tf_closed|]. apply term_free_q. exact H.
Qed.

Lemma imagePass_quiet : quiet imagePass.
Proof.
  apply quiet_gsub; [reflexivity| |].
  - intros b a y Hb Ha He.
    pose proof (exec_at_all _ false re_image b a y eq_refl Hb Ha He) as Hy.
    unfold image_cb.
    repeat (apply term_free_app || apply term_free_q || apply title_attr_term_free
            || apply cap_all); auto; tf_closed.
  - intros b a y He. unfold image_cb.
    change (js "<img alt=") with (LT :: js "img alt="). apply head_ok_lt.
Qed.

Lemma linkPass_quiet : quiet linkPass.
Proof.
  apply quiet_gsub; [reflexivity| |].
  - intros b a y Hb Ha He.
    pose proof (exec_at_all _ false re_link b a y eq_refl Hb Ha He) as Hy.
    unfold link_cb.
    repeat (apply term_free_app || apply term_free_q || apply title_attr_term_free
            || apply cap_all); auto; tf_closed.
  - intros b a y He. unfold link_cb.
    change (js "<a href=") with (LT :: js "a href="). apply head_ok_lt.
Qed.

(** ** Everything before the blockquote pass *)

(** [prepare] never throws. *)
Lemma prepare_total md : exists b t, prepare md = Ok (b, t).
Proof.
  unfold prepare. destruct (escapePass md tables0) as [md1 t1].
  unfold parseBackticks.
  destruct (parseBackticks_from_spec md1 0 t1) as (out & t2 & -> & _).
  cbn [bind]. eauto.
Qed.

(** On a line without terminators, [prepare] yields such a line again,
    with a leading quote depth that is no larger. *)
Lemma prepare_quiet md : term_free md ->
  exists b t, prepare md = Ok (b, t) /\ term_free b /\ qdepth b <= qdepth md.
Proof.
  intros Hmd. unfold prepare.
  destruct (escapePass_quiet tables0 md Hmd) as [E1 E2].
  destruct (escapePass md tables0) as [md1 t1]. cbn [fst] in E1, E2.
  unfold parseBackticks.
  destruct (parseBackticks_from_spec md1 0 t1) as (md2 & t2 & -> & P1 & P2).
  cbn [bind]. do 2 eexists. split; [reflexivity|].
  specialize (P1 E1). specialize (P2 eq_refl). apply qdepth_safe_prefix in P2.
  destruct (trimIndentation_quiet md2 P1) as [A1 A2].
  destruct (checkboxPass_quiet _ A1) as [B1 B2].
  destruct (listPass_quiet _ B1) as [C1 C2].
  destruct (inlinePass_quiet _ C1) as [D1 D2].
  destruct (imagePass_quiet _ D1) as [F1 F2].
  destruct (linkPass_quiet _ F1) as [G1 G2].
  split; [exact G1|lia].
Qed.

(** * The blockquote pass *)

Lemma takeWhileL_Forall {A} (P : A -> Prop) f (l : list A) :
  Forall P l -> Forall P (takeWhileL f l).
Proof. induction 1; simpl; auto. destruct (f x); auto. Qed.

Lemma takeWhileL_holds {A} (f : A -> bool) (l : list A) :
  Forall (fun a => f a = true) (takeWhileL f l).
Proof. induction l as [|a l IH]; simpl; auto. destruct (f a) eqn:E; auto. Qed.

Lemma takeWhileL_length {A} (f : A -> bool) (l : list A) :
  length (takeWhileL f l) <= length l.
Proof. induction l as [|a l IH]; simpl; auto. destruct (f a); simpl; lia. Qed.

Section RenderQuote.
Variable mth : str -> res str.
Variable Phi : str -> Prop.
Hypothesis mth_ok : forall c, Phi c -> exists h, mth c = Ok h.

(** The loop succeeds when the nested calls it can make succeed. *)
Lemma quote_loop_ok rq lvl : forall items skip,
  (forall sub l, nested_at l sub -> length sub <= length items ->
     Forall (item_ok Phi) sub -> exists h, rq sub l = Ok h) ->
  Forall (item_ok Phi) items ->
  exists hs, quote_loop mth rq lvl items skip = Ok hs.
Proof.
  induction items as [|item rest IH]; intros skip Hrq Hok; cbn [quote_loop]; eauto.
  inversion Hok as [|? ? Hitem Hrest]; subst.
  assert (Hrq' : forall sub l, nested_at l sub -> length sub <= length rest ->
     Forall (item_ok Phi) sub -> exists h, rq sub l = Ok h).
  { intros sub l H1 H2 H3. apply Hrq; auto. simpl. lia. }
  destruct skip as [|k]; [|apply IH; auto].
  unfold item_ok in Hitem.
  destruct (isQuote item) eqn:Hq; cbn [negb].
  - destruct (Nat.eqb (level item) lvl) eqn:Hl.
    + destruct (IH 0 Hrq' Hrest) as [hs Hhs].
      destruct (content item) as [|c0 s0] eqn:Hc.
      * cbn [bind]. rewrite Hhs. cbn [bind]. eauto.
      * destruct Hitem as [Hp|Hp]; [discriminate|].
        destruct (mth_ok _ Hp) as [h ->]. cbn [bind]. rewrite Hhs. cbn [bind]. eauto.
    + destruct (Nat.ltb lvl (level item)); [|apply IH; auto].
      set (run := takeWhileL _ rest).
      destruct (Hrq (item :: run) (level item)) as [h ->].
      * cbn [nested_at]. repeat split; auto.
        subst run. eapply Forall_impl; [|apply takeWhileL_holds].
        intros a Ha. cbn beta in Ha. apply andb_prop in Ha. destruct Ha as [A B].
        split; auto. apply Nat.ltb_ge. destruct (Nat.ltb _ _); auto; discriminate.
      * cbn [length]. apply le_n_S. apply takeWhileL_length.
      * constructor; [unfold item_ok; rewrite Hq; exact Hitem|].
        apply takeWhileL_Forall. exact Hrest.
      * cbn [bind]. destruct (IH (length run) Hrq' Hrest) as [hs ->].
        cbn [bind]. eauto.
  - destruct (mth_ok _ Hitem) as [h ->]. cbn [bind].
    destruct (IH 0 Hrq' Hrest) as [hs ->]. cbn [bind]. eauto.
Qed.

(** A nested run needs one unit of fuel more than it has items. *)
Lemma renderQuote_nested_ok : forall n fuel items l,
  length items <= n -> length items < fuel -> nested_at l items ->
  Forall (item_ok Phi) items ->
  exists h, renderQuote mth fuel items l = Ok h.
Proof.
  induction n as [|n IH]; intros fuel items l Hn Hf Hnest Hok;
    (destruct fuel as [|fuel]; [lia|]); cbn [renderQuote].
  - destruct items; [|simpl in Hn; lia]. cbn [quote_loop bind]. eauto.
  - destruct items as [|item rest]; [cbn [quote_loop bind]; eauto|].
    destruct Hnest as (Hq & Hl & Hrest). inversion Hok as [|? ? Hitem Hoks]; subst.
    cbn [quote_loop]. rewrite Hq, Nat.eqb_refl. cbn [negb].
    destruct (quote_loop_ok (renderQuote mth fuel) (level item) rest 0) as [hs Hhs]; auto.
    { intros sub l' H1 H2 H3. apply IH; auto; simpl in *; lia. }
    unfold item_ok in Hitem. rewrite Hq in Hitem.
    destruct (content item) as [|c0 s0] eqn:Hc.
    + cbn [bind]. rewrite Hhs. cbn [bind]. eauto.
    + destruct Hitem as [Hp|Hp]; [discriminate|].
      destruct (mth_ok _ Hp) as [h ->]. cbn [bind]. rewrite Hhs. cbn [bind]. eauto.
Qed.

(** Any list of items needs two units more. *)
Lemma renderQuote_ok fuel items l :
  S (length items) < fuel -> Forall (item_ok Phi) items ->
  exists h, renderQuote mth fuel items l = Ok h.
Proof.
  intros Hf Hok. destruct fuel as [|fuel]; [lia|]. cbn [renderQuote].
  destruct (quote_loop_ok (renderQuote mth fuel) l items 0) as [hs ->]; auto.
  - intros sub l' H1 H2 H3.
    apply (renderQuote_nested_ok (length sub)); auto. lia.
  - cbn [bind]. eauto.
Qed.

Lemma quote_html_ok raw : Forall (item_ok Phi) (quote_lines raw) ->
  exists h, quote_html mth raw = Ok h.
Proof. intros H. unfold quote_html. apply renderQuote_ok; auto. Qed.

(** The pass succeeds when the converter is defined on the content of
    every item of every block it finds. *)
Lemma quotePass_ok md :
  (forall b a y, rev b ++ a = md -> exec_at true re_quote_block b a = Some y ->
     Forall (item_ok Phi) (quote_lines (matched (MState b a []) y))) ->
  exists out, quotePass mth md = Ok out.
Proof.
  intros H. unfold quotePass, gsubS.
  pose proof (gsub_from_state (res unit) true re_quote_block (quote_cb mth)
                (fun st => st = Ok tt) md) as Hst.
  destruct (gsub_from true re_quote_block (quote_cb mth) [] md 0 (Ok tt))
    as [out st] eqn:Hg.
  assert (st = Ok tt) as ->.
  { change st with (snd (out, st)). rewrite <- Hg. apply Hst; auto.
    intros st0 b a y -> Hba He. unfold quote_cb.
    destruct (quote_html_ok (matched (MState b a []) y)) as [h ->]; auto. }
  cbn [bind]. eauto.
Qed.
End RenderQuote.

(** ** Literals *)

Lemma cmatch_c1 c d : cmatch (Cls false [CC c]) d = N.eqb d c.
Proof. cbn. apply orb_false_r. Qed.

Lemma sem_c1 ml c x y : sem ml (c1 c) true x y ->
  exists a, aft x = c :: a /\ y = MState (c :: bef x) a (caps x).
Proof.
  unfold c1. cbn [sem]. unfold step_char.
  destruct (aft x) as [|d a]; [discriminate|].
  rewrite cmatch_c1. destruct (N.eqb d c) eqn:E; [|discriminate].
  apply N.eqb_eq in E. subst d. intros H. inversion H; subst. eauto.
Qed.

Lemma sem_lit ml s : forall x y, sem ml (lit s) true x y ->
  aft x = s ++ aft y /\ bef y = rev s ++ bef x /\ caps y = caps x.
Proof.
  induction s as [|c s IH]; intros x y H.
  - cbn in H. subst. auto.
  - destruct s as [|c' s'].
    + apply sem_c1 in H. destruct H as (a & Ha & ->). simpl. auto.
    + cbn [lit sem] in H. destruct H as (z & H1 & H2).
      apply sem_c1 in H1. destruct H1 as (a & Ha & ->).
      apply IH in H2. cbn [aft bef caps] in H2. destruct H2 as (A & B & C).
      rewrite Ha, A, B, C. cbn [rev app]. rewrite <- !app_assoc. auto.
Qed.

Lemma m_c1 ml c x a k : aft x = c :: a ->
  m ml (c1 c) true x k = k (MState (c :: bef x) a (caps x)).
Proof.
  intros Ha. unfold c1. cbn [m]. unfold step_char. rewrite Ha, cmatch_c1, N.eqb_refl.
  reflexivity.
Qed.

Lemma m_lit ml s : forall x a k, aft x = s ++ a ->
  m ml (lit s) true x k = k (MState (rev s ++ bef x) a (caps x)).
Proof.
  induction s as [|c s IH]; intros x a k Ha.
  - cbn in *. destruct x; simpl in *; subst; reflexivity.
  - destruct s as [|c' s'].
    + apply m_c1. exact Ha.
    + cbn [lit m]. rewrite (m_c1 ml c x (c' :: s' ++ a)) by exact Ha.
      rewrite (IH _ a) by reflexivity.
      cbn [bef caps rev app]. rewrite <- !app_assoc. reflexivity.
Qed.

(** ** Greedy loops that cannot fail *)

Lemma rep_loop_greedy_succ body gs fuel mx x k :
  k x <> None -> rep_loop body gs true (S fuel) 0 mx x k <> None.
Proof.
  intros Hk. cbn [rep_loop]. destruct (max_zero mx); [exact Hk|].
  cbn [Nat.eqb negb]. destruct (body _ _); [discriminate|exact Hk].
Qed.

Lemma cap_clear_nil cs : cap_clear [] cs = cs.
Proof.
  unfold cap_clear. induction cs as [|kv cs IH]; simpl in *; congruence.
Qed.

Lemma clear_groups_nil x : clear_groups [] x = x.
Proof. unfold clear_groups. rewrite cap_clear_nil. destruct x; reflexivity. Qed.

(** [.*] runs to the end of a line without terminators. *)
Lemma star_any_succ ml : forall fuel x k,
  length (aft x) < fuel -> term_free (aft x) ->
  (forall y, aft y = [] -> k y <> None) ->
  rep_loop (m ml any true) [] true fuel 0 None x k <> None.
Proof.
  induction fuel as [|fuel IH]; intros x k Hf Hx Hk; [lia|].
  cbn [rep_loop max_zero Nat.eqb negb andb]. rewrite clear_groups_nil.
  destruct (aft x) as [|c a] eqn:Ha.
  - destruct (m ml any true x _); [discriminate|]. apply Hk. exact Ha.
  - inversion Hx as [|? ? Hc Hr]; subst.
    unfold any at 1. cbn [m]. unfold step_char. rewrite Ha. cbn [cmatch].
    rewrite Hc. cbn [negb aft length].
    replace (Nat.eqb (length a) (S (length a))) with false
      by (symmetry; apply Nat.eqb_neq; lia).
    assert (Hrec : rep_loop (m ml any true) [] true fuel 0 None
                     (MState (c :: bef x) a (caps x)) k <> None).
    { apply IH; auto. simpl in Hf. cbn [aft]. lia. }
    destruct (rep_loop _ _ _ _ _ _ _ _); [discriminate|contradiction].
Qed.

(** ** The line pattern of the blockquote pass *)

Lemma quote_line_matches rest : term_free rest ->
  exec_at false re_quote_line [] (GT4 ++ rest) <> None.
Proof.
  intros Hr. unfold exec_at, re_quote_line. cbn [seqs m at_bol bef].
  unfold plus at 1. cbn [m].
  cbn [rep_loop max_zero Nat.eqb negb andb pred max_pred].
  fold GT4. cbn [groups app]. rewrite clear_groups_nil.
  rewrite (m_lit false GT4 _ rest) by reflexivity.
  unfold opt at 1. cbn [m]. apply rep_loop_greedy_succ.
  cbn [bef aft length]. apply rep_loop_greedy_succ.
  unfold star. cbn [m]. apply star_any_succ.
  - cbn [aft set_cap]. lia.
  - exact Hr.
  - intros y Hy. unfold at_eol. cbn [set_cap aft]. rewrite Hy. discriminate.
Qed.

Lemma between_app x y mt : aft x = mt ++ aft y -> between true x y = mt.
Proof.
  intros H. unfold between. rewrite H, length_app, Nat.add_sub, firstn_app, firstn_all,
    Nat.sub_diag. simpl. apply app_nil_r.
Qed.

Lemma qdepth_marker w s : Forall (fun c => is_ws c = true) w ->
  qdepth (GT4 ++ w ++ s) = S (qdepth s).
Proof.
  intros Hw. change (GT4 ++ w ++ s) with (38%N :: 103%N :: 116%N :: 59%N :: w ++ s).
  cbn [qdepth]. change (is_ws 38%N) with false. cbv iota.
  rewrite !N.eqb_refl. cbn [andb]. rewrite qdepth_ws; auto.
Qed.

(** The markers that the line pattern takes: [n] of them, each followed
    by white space only. *)
Lemma quote_chunks ml : forall n x z,
  iterN (fun a b => sem ml (Seq (lit GT4) (opt ws)) true (clear_groups [] a) b) n x z ->
  exists chunk, aft x = chunk ++ aft z /\ (forall s, qdepth (chunk ++ s) = n + qdepth s).
Proof.
  induction n as [|n IH]; intros x z H; cbn [iterN] in H.
  - subst. exists []. auto.
  - destruct H as (y & Hxy & Hyz). apply IH in Hyz. destruct Hyz as (chunk & Hc & Hq).
    rewrite clear_groups_nil in Hxy. cbn [sem] in Hxy.
    destruct Hxy as (u & Hl & Ho). apply sem_lit in Hl. destruct Hl as (Hl & _ & _).
    apply (sem_consumes (fun c => is_ws c = true)) in Ho.
    + destruct Ho as (w & Hw & _ & Hws).
      exists (GT4 ++ w ++ chunk). split.
      * rewrite Hl, Hw, Hc, <- !app_assoc. reflexivity.
      * intros s. rewrite <- !app_assoc. rewrite qdepth_marker; auto.
        rewrite Hq. reflexivity.
    + cbn. intros c Hc'. rewrite orb_false_r in Hc'. exact Hc'.
Qed.

Lemma dropWhile_suffix f s : exists u, s = u ++ dropWhile f s.
Proof. destruct (dropWhile_split f s) as (u & H & _). eauto. Qed.

(** What the classification of a line yields. *)
Lemma quote_item_spec line : term_free line ->
  term_free (content (quote_item line)) /\
  (exists u, line = u ++ content (quote_item line)) /\
  (isQuote (quote_item line) = true -> qdepth (content (quote_item line)) < qdepth line).
Proof.
  intros Hl. unfold quote_item.
  destruct (search false re_quote_line [] line) as [[x y]|] eqn:Hs; cbn [content isQuote].
  - destruct (search_Forall _ false re_quote_line line x y eq_refl Hl Hs) as (_ & _ & Hy).
    apply search_sound in Hs. destruct Hs as (pre & a' & -> & -> & He).
    apply exec_at_sound in He; [|reflexivity].
    unfold re_quote_line in He. cbn [seqs sem] in He.
    destruct He as (z1 & [Hbol ->] & z2 & (z2' & HP & ->) & z3 & (z3' & HS & ->) & Heol & ->).
    apply at_bol_false in Hbol. rewrite app_nil_r in Hbol.
    assert (pre = []) by (destruct pre; auto; apply (f_equal (@length _)) in Hbol;
      rewrite length_rev in Hbol; discriminate).
    subst pre. cbn [app rev] in *.
    destruct HP as (n & Hn & _ & Hit). apply quote_chunks in Hit.
    destruct Hit as (chunk & Hc & Hq). cbn [aft] in Hc.
    pose proof (sem_fwd _ _ _ _ HS) as (mt & Hm & _). cbn [set_cap aft] in Hm.
    unfold at_eol in Heol. cbn [set_cap aft] in Heol.
    destruct (aft z3') as [|? ?] eqn:Hz3; [|discriminate].
    rewrite app_nil_r in Hm.
    assert (Hcap2 : cap 2 (set_cap 2 (between true (set_cap 1 (between true
               (MState [] a' []) z2') z2') z3') z3') = mt).
    { unfold cap. cbn [set_cap caps cap_get Nat.eqb]. apply between_app.
      cbn [set_cap aft]. rewrite Hz3, app_nil_r. exact Hm. }
    rewrite Hcap2.
    assert (Hmt : term_free mt).
    { rewrite <- Hcap2. apply cap_all. exact Hy. }
    split; [apply trimStart_Forall; exact Hmt|]. split.
    + destruct (dropWhile_suffix is_ws mt) as [u Hu]. unfold trimStart.
      exists (chunk ++ u). rewrite Hc, Hm, <- app_assoc, <- Hu. reflexivity.
    + intros _. rewrite qdepth_trimStart, Hc, Hm, Hq. lia.
  - split; auto. split; [exists []; reflexivity|discriminate].
Qed.

Lemma quote_item_quote rest : term_free rest -> isQuote (quote_item (GT4 ++ rest)) = true.
Proof.
  intros Hr. unfold quote_item.
  destruct (search false re_quote_line [] (GT4 ++ rest)) as [[x y]|] eqn:Hs; [reflexivity|].
  exfalso. apply (quote_line_matches rest Hr).
  apply (search_none false re_quote_line (GT4 ++ rest) [] Hs [] _ eq_refl).
Qed.

(** ** The block pattern of the blockquote pass *)

Lemma quote_block_consumes :
  consumes (fun c => is_term c = false \/ c = NL) re_quote_block.
Proof.
  assert (L : forall c, consumes (fun d => is_term d = false \/ d = NL) (c1 c) <->
                        (is_term c = false \/ c = NL)).
  { intros c. unfold c1. cbn [consumes]. split.
    - intros H. apply H. rewrite cmatch_c1. apply N.eqb_refl.
    - intros H d Hd. rewrite cmatch_c1 in Hd. apply N.eqb_eq in Hd. subst. exact H. }
  assert (A : consumes (fun d => is_term d = false \/ d = NL) any).
  { unfold any. cbn [consumes cmatch]. intros c Hc. left.
    destruct (is_term c); [discriminate|reflexivity]. }
  unfold re_quote_block, plus, star, opt, nl_or_eol, sp.
  change (lit (js "&gt;")) with
    (Seq (c1 38%N) (Seq (c1 103%N) (Seq (c1 116%N) (c1 59%N)))).
  cbn [seqs consumes]. rewrite !L. repeat split; auto.
Qed.

(** One-layer inversion of [sem]. *)
Lemma sem_Seq ml a b x y : sem ml (Seq a b) true x y ->
  exists z, sem ml a true x z /\ sem ml b true z y.
Proof. intros H. exact H. Qed.

Lemma sem_Rep ml g mn mx r fwd x y : sem ml (Rep g mn mx r) fwd x y ->
  exists n, mn <= n /\ within mx n /\
    iterN (fun a b => sem ml r fwd (clear_groups (groups r) a) b) n x y.
Proof. intros H. exact H. Qed.

Lemma sem_Grp ml n r fwd x y : sem ml (Grp n r) fwd x y ->
  exists z, sem ml r fwd x z /\ y = set_cap n (between fwd x z) z.
Proof. intros H. exact H. Qed.

Lemma sem_Bol ml fwd x y : sem ml Bol fwd x y -> at_bol ml x = true /\ y = x.
Proof. intros H. exact H. Qed.

Lemma sem_rep_fwd ml r : forall n x y,
  iterN (fun a b => sem ml r true (clear_groups (groups r) a) b) n x y ->
  exists mt, aft x = mt ++ aft y.
Proof.
  intros n x y H.
  assert (Hs : sem ml (Rep true 0 None r) true x y).
  { cbn [sem]. exists n. repeat split; auto. lia. }
  apply sem_fwd in Hs. destruct Hs as (mt & Hm & _). eauto.
Qed.

(** A quote block starts with a marker. *)
Lemma quote_block_head b a y : exec_at true re_quote_block b a = Some y ->
  at_bol true (MState b a []) = true /\
  exists raw', matched (MState b a []) y = GT4 ++ raw'.
Proof.
  intros He.
  destruct (exec_at_split true re_quote_block b a y eq_refl He) as [Hraw _].
  apply exec_at_sound in He; [|reflexivity].
  unfold re_quote_block, plus in He.
  apply sem_Seq in He. destruct He as (z0 & Hb & He).
  apply sem_Bol in Hb. destruct Hb as [Hbol ->]. split; [exact Hbol|].
  apply sem_Rep in He. destruct He as (n & Hn & _ & Hit).
  destruct n as [|n]; [lia|]. cbn [iterN] in Hit.
  destruct Hit as (z1 & H1 & Hrest).
  apply sem_rep_fwd in Hrest. destruct Hrest as (m4 & Hm4).
  apply sem_Grp in H1. destruct H1 as (z' & H1 & ->). cbn [set_cap aft] in Hm4.
  apply sem_Seq in H1. destruct H1 as (zA & HA & HB).
  apply sem_fwd in HB. destruct HB as (m3 & Hm3 & _).
  apply sem_Rep in HA. destruct HA as (k & Hk & _ & HitA).
  destruct k as [|k]; [lia|]. cbn [iterN] in HitA.
  destruct HitA as (w1 & Hw1 & HrestA).
  apply sem_rep_fwd in HrestA. destruct HrestA as (m2 & Hm2).
  apply sem_Grp in Hw1. destruct Hw1 as (w' & HL & ->). cbn [set_cap aft] in Hm2.
  cbn [seqs] in HL. apply sem_Seq in HL. destruct HL as (u & Hlit & HL').
  apply sem_lit in Hlit. destruct Hlit as (Hlit & _ & _).
  cbn [clear_groups aft] in Hlit.
  apply sem_fwd in HL'. destruct HL' as (m1 & Hm1 & _).
  exists (m1 ++ m2 ++ m3 ++ m4).
  fold GT4 in Hlit.
  assert (Ha : a = (GT4 ++ m1 ++ m2 ++ m3 ++ m4) ++ aft y).
  { rewrite Hlit, Hm1, Hm2, Hm3, Hm4, <- !app_assoc. reflexivity. }
  rewrite Hraw in Ha at 1. apply app_inv_tail in Ha. exact Ha.
Qed.

Lemma split_on_pieces (Q : char -> Prop) sep s :
  Forall (fun c => Q c \/ c = sep) s -> Forall (Forall Q) (split_on sep s).
Proof.
  induction 1 as [|c s Hc Hs IH]; cbn [split_on].
  - repeat constructor.
  - destruct (N.eqb c sep) eqn:E.
    + constructor; auto.
    + destruct Hc as [Hc|Hc]; [|subst; rewrite N.eqb_refl in E; discriminate].
      destruct (split_on sep s) as [|l ls].
      * repeat constructor; auto.
      * inversion IH; subst. constructor; auto.
Qed.

Lemma split_on_head sep s :
  match split_on sep s with
  | l :: ls => (exists v, s = l ++ v) /\ Forall (fun l' => exists u v, s = u ++ l' ++ v) ls
  | [] => False
  end.
Proof.
  induction s as [|c s IH]; cbn [split_on].
  - split; [exists []; reflexivity|constructor].
  - destruct (split_on sep s) as [|l ls]; [contradiction|].
    destruct IH as [(v & Hv) Hls].
    assert (Hshift : Forall (fun l' => exists u v, c :: s = u ++ l' ++ v) ls).
    { eapply Forall_impl; [|exact Hls]. intros l' (u & v' & E).
      exists (c :: u), v'. rewrite E. reflexivity. }
    destruct (N.eqb c sep).
    + split; [exists (c :: s); reflexivity|].
      constructor; auto. exists [c], v. rewrite Hv. reflexivity.
    + split; auto. exists v. rewrite Hv. reflexivity.
Qed.

Lemma split_on_infix sep s :
  Forall (fun l => exists u v, s = u ++ l ++ v) (split_on sep s).
Proof.
  pose proof (split_on_head sep s) as H.
  destruct (split_on sep s) as [|l ls]; [contradiction|].
  destruct H as [(v & Hv) Hls]. constructor; auto. exists [], v. exact Hv.
Qed.

Lemma dropWhile_app f a b :
  dropWhile f (a ++ b) = match dropWhile f a with
                         | [] => dropWhile f b
                         | d => d ++ b
                         end.
Proof.
  induction a as [|c a IH]; cbn [app dropWhile].
  - reflexivity.
  - destruct (f c); [exact IH|reflexivity].
Qed.

Lemma trimEnd_prefix s : exists w, s = trimEnd s ++ w.
Proof.
  unfold trimEnd. destruct (dropWhile_suffix is_ws (rev s)) as [u Hu].
  exists (rev u). rewrite <- rev_app_distr, <- Hu, rev_involutive. reflexivity.
Qed.

Lemma trimEnd_marker s : trimEnd (GT4 ++ s) = GT4 ++ trimEnd s.
Proof.
  unfold trimEnd. rewrite rev_app_distr, dropWhile_app.
  destruct (dropWhile is_ws (rev s)) as [|d ds].
  - reflexivity.
  - rewrite rev_app_distr. reflexivity.
Qed.

(** On a line without terminators a quote block holds one quote item,
    whose content is shallower than the line. *)
Lemma quote_block_inner md b a y : term_free md -> rev b ++ a = md ->
  exec_at true re_quote_block b a = Some y ->
  Forall (item_ok (fun c => term_free c /\ qdepth c < qdepth md))
         (quote_lines (matched (MState b a []) y)).
Proof.
  intros Hmd Hba He.
  assert (Hb : term_free b /\ term_free a).
  { rewrite <- Hba in Hmd. apply Forall_app in Hmd. destruct Hmd as [Hb Ha].
    split; auto. apply Forall_rev in Hb. rewrite rev_involutive in Hb. exact Hb. }
  destruct Hb as [Hb Ha].
  destruct (quote_block_head b a y He) as [Hbol (raw' & Hraw)].
  apply at_bol_term_free in Hbol; auto. subst b. cbn [rev app] in Hba. subst a.
  destruct (exec_at_split true re_quote_block [] md y eq_refl He) as [Hsplit _].
  assert (Hrawtf : term_free (matched (MState [] md []) y)).
  { apply matched_all. exact Ha. }
  unfold quote_lines. rewrite Hraw in *. rewrite trimEnd_marker.
  assert (Hraw' : term_free raw').
  { apply Forall_app in Hrawtf. tauto. }
  assert (Hline : term_free (GT4 ++ trimEnd raw')).
  { apply term_free_app; [tf_closed|apply trimEnd_Forall; exact Hraw']. }
  rewrite split_on_single by (apply term_free_no_nl; exact Hline).
  cbn [map]. constructor; [|constructor].
  unfold item_ok. rewrite quote_item_quote by (apply trimEnd_Forall; exact Hraw').
  right. destruct (quote_item_spec _ Hline) as (A & _ & C). split; auto.
  eapply Nat.lt_le_trans; [apply C; apply quote_item_quote;
                           apply trimEnd_Forall; exact Hraw'|].
  destruct (trimEnd_prefix raw') as [w Hw].
  rewrite Hsplit. rewrite Hw at 2. rewrite <- !app_assoc.
  rewrite (app_assoc GT4). rewrite <- (app_nil_r (GT4 ++ trimEnd raw')) at 1.
  apply (qdepth_prefix_le (length (GT4 ++ trimEnd raw'))); auto.
Qed.

(** In any buffer the items of a quote block are lines without
    terminators, cut out of the buffer. *)
Lemma quote_block_top md b a y : rev b ++ a = md ->
  exec_at true re_quote_block b a = Some y ->
  Forall (item_ok (fun c => term_free c /\ exists u v, md = u ++ c ++ v))
         (quote_lines (matched (MState b a []) y)).
Proof.
  intros Hba He. subst md.
  destruct (exec_at_split true re_quote_block b a y eq_refl He) as [Hsplit _].
  pose proof He as Hs. apply exec_at_sound in Hs; [|reflexivity].
  apply (sem_consumes _ true re_quote_block quote_block_consumes) in Hs.
  destruct Hs as (mt & Hmt & _ & HQ). cbn [aft] in Hmt.
  rewrite (matched_app b a [] mt y Hmt) in *.
  unfold quote_lines.
  assert (Hlines : Forall term_free (split_on NL (trimEnd mt))).
  { apply split_on_pieces. apply trimEnd_Forall. exact HQ. }
  pose proof (split_on_infix NL (trimEnd mt)) as Hinf.
  destruct (trimEnd_prefix mt) as [w Hw].
  induction (split_on NL (trimEnd mt)) as [|line lines IH]; cbn [map]; [constructor|].
  inversion Hlines as [|? ? Hl Hls]; subst. inversion Hinf as [|? ? (u & v & Hi) His]; subst.
  constructor; [|apply IH; auto].
  destruct (quote_item_spec line Hl) as (A & (u' & B) & _).
  match goal with |- item_ok ?P _ =>
    assert (Phi : P (content (quote_item line))) end.
  { cbn beta. split; auto. exists (rev b ++ u ++ u'), (v ++ w ++ aft y).
    rewrite Hw, Hi, B at 1. rewrite <- !app_assoc. reflexivity. }
  unfold item_ok. destruct (isQuote (quote_item line)); auto.
Qed.

(** * Termination *)



Lemma markdownToHtml_S fuel md :
  markdownToHtml (S fuel) md
  = (p <- prepare md ;;
     quoted <- quotePass (markdownToHtml fuel) (fst p) ;;
     Ok (finish (snd p) quoted)).
Proof. reflexivity. Qed.

(** On a line without terminators the recursion is as deep as the line's
    leading quote markers are many. *)
Lemma markdownToHtml_line : forall n c, term_free c -> qdepth c <= n ->
  exists h, markdownToHtml (S n) c = Ok h.
Proof.
  induction n as [|n IH]; intros c Hc Hq; rewrite markdownToHtml_S;
    destruct (prepare_quiet c Hc) as (b & t & -> & Hb & Hqb); cbn [bind fst snd].
  - destruct (quotePass_ok (markdownToHtml 0)
                (fun c' => term_free c' /\ qdepth c' < qdepth b)) with (md := b)
      as [out ->]; [| |cbn [bind]; eauto].
    + intros c' [_ Hq']. lia.
    + intros b0 a y Hba He. exact (quote_block_inner b b0 a y Hb Hba He).
  - destruct (quotePass_ok (markdownToHtml (S n))
                (fun c' => term_free c' /\ qdepth c' < qdepth b)) with (md := b)
      as [out ->]; [| |cbn [bind]; eauto].
    + intros c' [Hc' Hq']. apply IH; auto. lia.
    + intros b0 a y Hba He. exact (quote_block_inner b b0 a y Hb Hba He).
Qed.


(** * Evaluating the matcher on inputs of a known shape *)

Lemma m_Seq ml a b x k :
  m ml (Seq a b) true x k = m ml a true x (fun y => m ml b true y k).
Proof. reflexivity. Qed.

Lemma m_Rep ml g mn mx r fwd x k :
  m ml (Rep g mn mx r) fwd x k
  = rep_loop (m ml r fwd) (groups r) g (S (mn + length (bef x) + length (aft x))) mn mx x k.
Proof. reflexivity. Qed.

Lemma m_Grp ml n r fwd x k :
  m ml (Grp n r) fwd x k = m ml r fwd x (fun y => k (set_cap n (between fwd x y) y)).
Proof. reflexivity. Qed.

Lemma m_Alt ml a b fwd x k :
  m ml (Alt a b) fwd x k
  = match m ml a fwd x k with Some z => Some z | None => m ml b fwd x k end.
Proof. reflexivity. Qed.

Lemma m_Look_neg ml ah r fwd x k :
  m ml (Look ah false r) fwd x k
  = match m ml r ah x (fun y => Some y) with Some _ => None | None => k x end.
Proof. reflexivity. Qed.

Lemma m_Look_pos ml ah r fwd x k :
  m ml (Look ah true r) fwd x k
  = match m ml r ah x (fun y => Some y) with
    | Some y => k (MState (bef x) (aft x) (caps y))
    | None => None
    end.
Proof. reflexivity. Qed.

Lemma m_chr_step ml cl x c a k : aft x = c :: a -> cmatch cl c = true ->
  m ml (Chr cl) true x k = k (MState (c :: bef x) a (caps x)).
Proof. intros Ha Hc. cbn [m]. unfold step_char. rewrite Ha, Hc. reflexivity. Qed.

Lemma m_chr_stop ml cl x k :
  match aft x with c :: _ => cmatch cl c = false | [] => True end ->
  m ml (Chr cl) true x k = None.
Proof.
  intros H. cbn [m]. unfold step_char. destruct (aft x); [reflexivity|].
  rewrite H. reflexivity.
Qed.

(** A greedy loop over one character class takes a whole run of that
    class when the rest of the pattern matches after it. *)
Lemma rep_chr_run ml cl k z : forall w fuel mn x a,
  aft x = w ++ a -> Forall (fun c => cmatch cl c = true) w ->
  match a with c :: _ => cmatch cl c = false | [] => True end ->
  length w < fuel -> mn <= length w ->
  k (MState (rev w ++ bef x) a (caps x)) = Some z ->
  rep_loop (m ml (Chr cl) true) [] true fuel mn None x k = Some z.
Proof.
  induction w as [|c w IH]; intros fuel mn x a Ha Hw Hhd Hf Hmn Hk;
    (destruct fuel as [|fuel]; [simpl in Hf; lia|]);
    cbn [rep_loop max_zero]; rewrite clear_groups_nil.
  - simpl in Hmn. assert (mn = 0) as -> by lia. cbn [Nat.eqb negb].
    cbn [app] in Ha. rewrite m_chr_stop by (rewrite Ha; exact Hhd).
    destruct x as [b a0 cs]. cbn [aft bef caps rev app] in *. subst a0. exact Hk.
  - inversion Hw as [|? ? Hc Hw']; subst.
    cbn [app] in Ha. rewrite (m_chr_step ml cl x c (w ++ a)) by auto.
    cbn [aft length]. rewrite Ha. cbn [length].
    replace (Nat.eqb (length (w ++ a)) (S (length (w ++ a)))) with false
      by (symmetry; apply Nat.eqb_neq; lia).
    rewrite andb_false_r.
    assert (Hrec : rep_loop (m ml (Chr cl) true) [] true fuel (pred mn) None
                     (MState (c :: bef x) (w ++ a) (caps x)) k = Some z).
    { apply (IH fuel (pred mn) _ a); auto; cbn [aft bef caps length] in *; try lia.
      rewrite <- Hk. cbn [rev]. rewrite <- app_assoc. reflexivity. }
    cbn [max_pred]. rewrite Hrec. destruct (negb (Nat.eqb mn 0)); reflexivity.
Qed.

(** ** escapeHtml *)

Lemma is_letter_class c :
  cmatch (Cls false [CRange (ch "a") (ch "z"); CRange (ch "A") (ch "Z")]) c = is_letter c.
Proof. cbn. unfold is_letter. rewrite orb_false_r. reflexivity. Qed.

Lemma entity_tail_run : forall w rest, Forall (fun c => is_letter c = true) w ->
  w <> [] -> forall seen, entity_tail seen (w ++ ch ";" :: rest) = true.
Proof.
  induction w as [|c w IH]; intros rest Hw Hne seen; [contradiction|].
  inversion Hw as [|? ? Hc Hw']; subst. cbn [app entity_tail]. rewrite Hc.
  destruct w as [|d w]; [reflexivity|]. apply IH; auto. discriminate.
Qed.

Lemma entity_tail_inv : forall s seen, entity_tail seen s = true ->
  exists w rest, s = w ++ ch ";" :: rest /\ Forall (fun c => is_letter c = true) w /\
    (seen = false -> w <> []).
Proof.
  induction s as [|c s IH]; intros seen H; cbn [entity_tail] in H; [discriminate|].
  destruct (is_letter c) eqn:Hc.
  - apply IH in H. destruct H as (w & rest & -> & Hw & _).
    exists (c :: w), rest. repeat split; auto. discriminate.
  - apply andb_prop in H. destruct H as [-> H]. apply N.eqb_eq in H. subst c.
    exists [], s. repeat split; auto. discriminate.
Qed.

(** The look-ahead of the pattern: letters and a semicolon follow. *)
Lemma entity_look b a cs :
  m false (Seq (plus (Chr (Cls false [CRange (ch "a") (ch "z"); CRange (ch "A") (ch "Z")])))
               (c1 (ch ";"))) true (MState b a cs) (fun y => Some y) = None
  <-> entity_tail false a = false.
Proof.
  split.
  - intros H. destruct (entity_tail false a) eqn:E; auto. exfalso.
    apply entity_tail_inv in E. destruct E as (w & rest & -> & Hw & Hne).
    rewrite m_Seq in H. unfold plus in H. rewrite m_Rep in H. cbn [groups] in H.
    erewrite rep_chr_run in H; [discriminate|reflexivity| | | | |].
    + eapply Forall_impl; [|exact Hw]. intros c Hc. rewrite is_letter_class. exact Hc.
    + reflexivity.
    + cbn [aft bef length]. rewrite length_app. cbn [length]. lia.
    + destruct w; [exfalso; apply Hne; auto|simpl; lia].
    + cbn [bef caps]. erewrite m_c1; reflexivity.
  - intros E.
    destruct (m false _ true (MState b a cs) (fun y => Some y)) as [y|] eqn:H; auto.
    exfalso. apply m_sound in H; [|reflexivity]. destruct H as (y' & Hs & _).
    cbn [sem] in Hs. destruct Hs as (u & Hp & Hc).
    apply sem_c1 in Hc. destruct Hc as (rest & Hu & _).
    pose proof Hp as Hp'.
    apply (sem_consumes (fun c => is_letter c = true)) in Hp'.
    2:{ cbn [plus consumes]. intros c Hc. rewrite <- is_letter_class. exact Hc. }
    destruct Hp' as (w & Hw & _ & Hl). cbn [aft] in Hw. rewrite Hu in Hw.
    assert (Hne : w <> []).
    { intros ->. unfold plus in Hp. cbn [sem] in Hp. destruct Hp as (n & Hn & _ & Hit).
      destruct n as [|n]; [lia|]. cbn [iterN] in Hit. destruct Hit as (v & Hv & _).
      cbn [groups] in Hv. rewrite clear_groups_nil in Hv. unfold step_char in Hv.
      cbn [aft app] in Hv, Hw. rewrite Hw in Hv. rewrite is_letter_class in Hv.
      discriminate. }
    rewrite Hw, entity_tail_run in E; auto. discriminate.
Qed.

Lemma escape_exec_nil b : exec_at false re_escapeHtml b [] = None.
Proof. reflexivity. Qed.

Lemma escape_exec b c a :
  exec_at false re_escapeHtml b (c :: a)
  = if N.eqb c (ch "&") then
      (if entity_tail false a then None else Some (MState (c :: b) a []))
    else if (N.eqb c (ch "<") || N.eqb c (ch ">") || N.eqb c DQ || N.eqb c (ch "'"))%bool
    then Some (MState (c :: b) a []) else None.
Proof.
  unfold exec_at, re_escapeHtml. rewrite m_Alt, m_Seq.
  destruct (N.eqb c (ch "&")) eqn:Eamp.
  - apply N.eqb_eq in Eamp. subst c.
    rewrite (m_c1 false (ch "&") _ a) by reflexivity. cbn [bef caps aft].
    rewrite m_Look_neg.
    destruct (entity_tail false a) eqn:E.
    + destruct (m false _ true (MState (ch "&" :: b) a []) (fun y => Some y)) eqn:H.
      * reflexivity.
      * apply entity_look in H. congruence.
    + apply entity_look with (b := ch "&" :: b) (cs := []) in E. rewrite E. reflexivity.
  - unfold c1 at 1.
    rewrite m_chr_stop by (cbn [aft]; rewrite cmatch_c1; exact Eamp).
    unfold set. cbn [m map]. unfold step_char.
    cbn [aft cmatch existsb citem_match xorb bef caps].
    rewrite orb_false_r, !orb_assoc.
    destruct (N.eqb c (ch "<") || N.eqb c (ch ">") || N.eqb c DQ || N.eqb c (ch "'"))%bool;
      reflexivity.
Qed.

(** The replace of [escapeHtml] does, code unit by code unit, what the
    pattern says. *)
Lemma escapeHtml_from : forall a b,
  fst (gsub_from false re_escapeHtml
         (fun (_ : unit) x y => (escapeHtml_entity (matched x y), tt)) b a 0 tt)
  = escapeHtml_spec a.
Proof.
  induction a as [|c a IH]; intros b; cbn [gsub_from escapeHtml_spec].
  - rewrite escape_exec_nil. reflexivity.
  - rewrite escape_exec. unfold escape_unit.
    destruct (N.eqb c (ch "&")) eqn:Eamp.
    + destruct (entity_tail false a).
      * specialize (IH (c :: b)). destruct (gsub_from _ _ _ _ _ _ _) as [o s].
        cbn [fst] in *. subst o. reflexivity.
      * rewrite (matched_app b (c :: a) [] [c]) by reflexivity. cbn [length].
        specialize (IH (c :: b)). destruct (gsub_from _ _ _ _ _ _ _) as [o s].
        cbn [fst] in *. subst o. apply N.eqb_eq in Eamp. subst c. reflexivity.
    + destruct (N.eqb c (ch "<") || N.eqb c (ch ">") || N.eqb c DQ || N.eqb c (ch "'"))%bool
        eqn:Eset.
      * rewrite (matched_app b (c :: a) [] [c]) by reflexivity. cbn [length].
        specialize (IH (c :: b)). destruct (gsub_from _ _ _ _ _ _ _) as [o s].
        cbn [fst] in *. subst o.
        destruct (N.eqb c (ch "<")) eqn:E1;
          [apply N.eqb_eq in E1; subst c; reflexivity|].
        destruct (N.eqb c (ch ">")) eqn:E2;
          [apply N.eqb_eq in E2; subst c; reflexivity|].
        destruct (N.eqb c DQ) eqn:E3;
          [apply N.eqb_eq in E3; subst c; reflexivity|].
        destruct (N.eqb c (ch "'")) eqn:E4;
          [apply N.eqb_eq in E4; subst c; reflexivity|].
        discriminate.
      * apply orb_false_iff in Eset. destruct Eset as [Eset E4].
        apply orb_false_iff in Eset. destruct Eset as [Eset E3].
        apply orb_false_iff in Eset. destruct Eset as [E1 E2].
        rewrite E1, E2, E3, E4.
        specialize (IH (c :: b)). destruct (gsub_from _ _ _ _ _ _ _) as [o s].
        cbn [fst] in *. subst o. reflexivity.
Qed.

Lemma escapeHtml_refines s : escapeHtml s = escapeHtml_spec s.
Proof. unfold escapeHtml, gsub, gsubS. apply escapeHtml_from. Qed.

(** ** Strings *)

Lemma trim_tag c s d : is_ws c = false -> is_ws d = false ->
  trim (c :: s ++ [d]) = c :: s ++ [d].
Proof.
  intros Hc Hd. unfold trim, trimStart, trimEnd. cbn [dropWhile]. rewrite Hc.
  change (c :: s ++ [d]) with ((c :: s) ++ [d]). rewrite rev_app_distr.
  cbn [rev app dropWhile]. rewrite Hd.
  cbn [rev]. rewrite rev_app_distr, rev_involutive. reflexivity.
Qed.

Lemma getSubstitution_plain mt b a n cs : forall (t : str),
  Forall (fun c => N.eqb c (ch "$") = false) t -> getSubstitution mt b a n cs t = t.
Proof.
  induction t as [|c t IH]; intros H; [reflexivity|].
  inversion H as [|? ? Hc Ht]; subst. cbn [getSubstitution].
  change 36%N with (ch "$"). rewrite Hc. cbn [negb]. rewrite IH; auto.
Qed.

Lemma find_sub_unit (d : char) (r : str) : forall (t b : str), Forall (fun c => N.eqb c d = false) t ->
  find_sub [d] b (t ++ d :: r) = Some (rev b ++ t, r).
Proof.
  induction t as [|c t IH]; intros b H.
  - cbn [app find_sub starts_with]. rewrite N.eqb_refl. cbn. rewrite app_nil_r. reflexivity.
  - inversion H as [|? ? Hc Ht]; subst. cbn [app find_sub starts_with].
    rewrite N.eqb_sym, Hc. cbn [andb]. rewrite IH; auto.
    cbn [rev]. rewrite <- app_assoc. reflexivity.
Qed.

Lemma find_sub_fence : forall (u b : str), Forall (fun c => N.eqb c BT = false) u ->
  find_sub fence b (u ++ fence) = Some (rev b ++ u, []).
Proof.
  induction u as [|c u IH]; intros b H.
  - cbn. rewrite app_nil_r. reflexivity.
  - inversion H as [|? ? Hc Ht]; subst. cbn [app find_sub]. unfold fence at 1.
    cbn [starts_with]. rewrite N.eqb_sym, Hc. cbn [andb]. rewrite IH; auto.
    cbn [rev]. rewrite <- app_assoc. reflexivity.
Qed.

(** ** The escape pass on text without backslash *)

Lemma escape_exec_none b a :
  match a with c :: _ => N.eqb c (ch "\") = false | [] => True end ->
  exec_at false re_escape b a = None.
Proof.
  intros H. unfold exec_at, re_escape. rewrite m_Seq. unfold c1.
  apply m_chr_stop. cbn [aft]. destruct a; auto. rewrite cmatch_c1. exact H.
Qed.

Lemma escapePass_plain (s : str) t : Forall (fun c => N.eqb c (ch "\") = false) s ->
  escapePass s t = (s, t).
Proof.
  intros H. unfold escapePass, gsubS. apply gsub_from_miss.
  intros pre a' ->. apply escape_exec_none.
  apply Forall_app in H. destruct H as [_ H]. destruct a'; auto.
  inversion H; auto.
Qed.

(** ** The tokenizer on one code span *)

Lemma parseBackticks_skip : forall s k t, length s <= k ->
  parseBackticks_from s k t = Ok ([], t).
Proof.
  induction s as [|c s IH]; intros k t H; [reflexivity|].
  destruct k as [|k]; [simpl in H; lia|]. cbn [parseBackticks_from].
  apply IH. simpl in H. lia.
Qed.

Lemma parseBackticks_from_cons c rest t :
  parseBackticks_from (c :: rest) 0 t
  = (step <- backtick_step (c :: rest) t ;;
     let '(piece, used, t1) := step in
     r <- parseBackticks_from rest (pred used) t1 ;;
     let '(out, t2) := r in
     Ok (piece ++ out, t2)).
Proof. reflexivity. Qed.

Lemma backtick_step_inline (c : char) (t : str) :
  Forall (fun c => N.eqb c BT = false) (c :: t) ->
  backtick_step (BT :: (c :: t) ++ [BT]) tables0
  = Ok (js "<!--inlinecode_0-->", 1 + length (c :: t) + 1, inline_tables (c :: t)).
Proof.
  intros H. inversion H as [|? ? Hc Ht]; subst.
  unfold backtick_step, fence. cbn [app starts_with].
  rewrite (N.eqb_sym BT c), Hc, N.eqb_refl. cbn [andb].
  change (c :: t ++ [BT]) with ((c :: t) ++ [BT]).
  rewrite (find_sub_unit BT [] (c :: t) []) by exact H.
  reflexivity.
Qed.

Lemma parseBackticks_inline (t : str) : Forall (fun c => N.eqb c BT = false) t ->
  parseBackticks (BT :: t ++ [BT]) tables0 = Ok (js "<!--inlinecode_0-->", inline_tables t).
Proof.
  intros H. unfold parseBackticks. destruct t as [|c t].
  - reflexivity.
  - rewrite parseBackticks_from_cons, backtick_step_inline by exact H.
    cbn [bind]. rewrite parseBackticks_skip.
    + cbn [bind]. rewrite app_nil_r. reflexivity.
    + rewrite length_app. cbn [length Nat.add pred]. lia.
Qed.

Lemma code_plain_inv (t : str) : code_plain t = true ->
  Forall (fun c => N.eqb c BT = false) t /\
  Forall (fun c => N.eqb c (ch "\") = false) t /\
  Forall (fun c => N.eqb c (ch "$") = false) t.
Proof.
  unfold code_plain. rewrite forallb_forall. intros H.
  repeat split; apply Forall_forall; intros c Hc; specialize (H c Hc);
    apply negb_true_iff in H; apply orb_false_iff in H; destruct H as [H H3];
    apply orb_false_iff in H; destruct H as [H1 H2]; assumption.
Qed.

Lemma no_dollar_b (l : str) : forallb (fun c => negb (N.eqb c (ch "$"))) l = true ->
  Forall (fun c => N.eqb c (ch "$") = false) l.
Proof.
  rewrite forallb_forall. intros H. apply Forall_forall. intros c Hc.
  apply negb_true_iff. auto.
Qed.

Lemma escape_unit_no_dollar c r : N.eqb c (ch "$") = false ->
  Forall (fun c => N.eqb c (ch "$") = false) (escape_unit c r).
Proof.
  intros Hc. unfold escape_unit.
  repeat match goal with
         | |- context [if ?b then _ else _] => destruct b
         end;
    repeat (constructor; try reflexivity); assumption.
Qed.

Lemma escapeHtml_no_dollar (t : str) : Forall (fun c => N.eqb c (ch "$") = false) t ->
  Forall (fun c => N.eqb c (ch "$") = false) (escapeHtml t).
Proof.
  rewrite escapeHtml_refines. induction t as [|c t IH]; intros H; [constructor|].
  inversion H; subst. cbn [escapeHtml_spec]. apply Forall_app. split; auto.
  apply escape_unit_no_dollar. assumption.
Qed.

(** ** A backtick span as the whole input *)

Lemma inline_code_renders (t : str) : code_plain t = true -> forall fuel,
  markdownToHtml (S fuel) (BT :: t ++ [BT])
  = Ok (js "<p><code>" ++ escapeHtml t ++ js "</code></p>").
Proof.
  intros Hp fuel. destruct (code_plain_inv t Hp) as (Hbt & Hbs & Hd).
  rewrite markdownToHtml_S. unfold prepare.
  rewrite escapePass_plain.
  2:{ constructor; [reflexivity|]. apply Forall_app. split; auto. }
  rewrite parseBackticks_inline by exact Hbt. cbn [bind fst snd].
  assert (Hpre : linkPass (imagePass (inlinePass (listPass (checkboxPass
                   (trimIndentation (js "<!--inlinecode_0-->"))))))
                 = js "<!--inlinecode_0-->") by (vm_compute; reflexivity).
  rewrite Hpre.
  assert (Hq : quotePass (markdownToHtml fuel) (js "<!--inlinecode_0-->")
               = Ok (js "<!--inlinecode_0-->")) by (vm_compute; reflexivity).
  rewrite Hq. cbn [bind]. unfold finish.
  assert (Hpar : paragraphs (tablePass (js "<!--inlinecode_0-->"))
                 = js "<p><!--inlinecode_0--></p>") by (vm_compute; reflexivity).
  rewrite Hpar. unfold reassemble, inline_tables.
  cbn [codeBlocks inlineCodeBlocks escapePlaceholders fold_left].
  unfold restore_inline. cbn [fst snd]. unfold replace_str.
  assert (Hf : find_sub (js "<!--inlinecode_0-->") [] (js "<p><!--inlinecode_0--></p>")
               = Some (js "<p>", js "</p>")) by (vm_compute; reflexivity).
  rewrite Hf. rewrite getSubstitution_plain.
  2:{ apply Forall_app. split; [repeat constructor|]. apply Forall_app. split.
      - apply escapeHtml_no_dollar. exact Hd.
      - repeat constructor. }
  f_equal.
  replace (js "<p>" ++ (js "<code>" ++ escapeHtml t ++ js "</code>") ++ js "</p>")
    with (ch "<" :: (js "p><code>" ++ escapeHtml t ++ js "</code></p") ++ [ch ">"])
    by (rewrite <- !app_assoc; reflexivity).
  rewrite trim_tag by reflexivity. rewrite <- !app_assoc. reflexivity.
Qed.

(** ** Lines *)

Lemma split_on_nonempty sep s : split_on sep s <> [].
Proof.
  pose proof (split_on_head sep s) as H. destruct (split_on sep s); [contradiction|discriminate].
Qed.

Lemma split_on_snoc_sep sep (s : str) : split_on sep (s ++ [sep]) = split_on sep s ++ [[]].
Proof.
  induction s as [|c s IH]; cbn [app split_on].
  - rewrite N.eqb_refl. reflexivity.
  - rewrite IH. destruct (N.eqb c sep); [reflexivity|].
    pose proof (split_on_nonempty sep s) as Hne.
    destruct (split_on sep s) as [|l ls]; [contradiction|]. reflexivity.
Qed.

Lemma split_on_last sep d : N.eqb d sep = false -> forall s : str,
  exists ls l, split_on sep (s ++ [d]) = ls ++ [l ++ [d]].
Proof.
  intros Hd. induction s as [|c s (ls & l & IH)]; cbn [app split_on].
  - rewrite Hd. exists [], []. reflexivity.
  - rewrite IH. destruct (N.eqb c sep).
    + exists ([] :: ls), l. reflexivity.
    + destruct ls as [|l0 ls0]; cbn [app].
      * exists [], (c :: l). reflexivity.
      * exists ((c :: l0) :: ls0), l. reflexivity.
Qed.

Lemma join_cons2 sep (l l' : str) ls :
  join sep (l :: l' :: ls) = l ++ sep ++ join sep (l' :: ls).
Proof. reflexivity. Qed.

Lemma join_split sep (s : str) : join [sep] (split_on sep s) = s.
Proof.
  induction s as [|c s IH]; cbn [split_on]; [reflexivity|].
  pose proof (split_on_nonempty sep s) as Hne.
  destruct (N.eqb c sep) eqn:E.
  - apply N.eqb_eq in E. subst c.
    destruct (split_on sep s) as [|l ls]; [contradiction|].
    rewrite join_cons2, IH. reflexivity.
  - destruct (split_on sep s) as [|l ls]; [contradiction|].
    destruct ls as [|l' ls].
    + cbn [join] in *. rewrite IH. reflexivity.
    + rewrite join_cons2 in *. rewrite <- app_comm_cons, IH. reflexivity.
Qed.

Lemma is_blank_head c l : is_ws c = false -> is_blank (c :: l) = false.
Proof.
  intros Hc. unfold is_blank, trim, trimStart. cbn [dropWhile]. rewrite Hc.
  unfold trimEnd. cbn [rev]. rewrite dropWhile_app. cbn [dropWhile]. rewrite Hc.
  destruct (dropWhile is_ws (rev l)) as [|e es]; cbn [app rev].
  - reflexivity.
  - destruct (rev es ++ [e]) eqn:E; [destruct (rev es); discriminate|].
    destruct (rev (es ++ [c])) eqn:E2; [|reflexivity].
    rewrite rev_app_distr in E2. discriminate.
Qed.

Lemma is_blank_last l d : is_ws d = false -> is_blank (l ++ [d]) = false.
Proof.
  intros Hd. unfold is_blank, trim, trimStart. rewrite dropWhile_app.
  cbn [dropWhile]. rewrite Hd.
  assert (H : forall l', trimEnd (l' ++ [d]) = l' ++ [d]).
  { intros l'. unfold trimEnd. rewrite rev_app_distr. cbn [rev app dropWhile].
    rewrite Hd. cbn [rev]. rewrite rev_involutive. reflexivity. }
  destruct (dropWhile is_ws l) as [|e es].
  - specialize (H []). cbn [app] in H. rewrite H. reflexivity.
  - rewrite H. reflexivity.
Qed.

(** ** The body of a fenced block *)

Lemma m_Bol ml fwd x k : m ml Bol fwd x k = if at_bol ml x then k x else None.
Proof. reflexivity. Qed.

Lemma m_Eol ml fwd x k : m ml Eol fwd x k = if at_eol ml x then k x else None.
Proof. reflexivity. Qed.

Lemma not_ws_not_space c : is_ws c = false -> N.eqb c SP = false.
Proof.
  intros H. destruct (N.eqb c SP) eqn:E; auto. apply N.eqb_eq in E. subst c.
  discriminate.
Qed.

Lemma leading_spaces_zero c l : is_ws c = false -> leading_spaces (c :: l) = Ok 0.
Proof.
  intros Hc. unfold leading_spaces. cbn [search].
  assert (He : exec_at false re_spaces [] (c :: l) = Some (MState [] (c :: l) [])).
  { unfold exec_at, re_spaces. rewrite m_Seq, m_Bol. cbn [at_bol bef].
    unfold star, sp, c1. rewrite m_Rep. cbn [groups].
    apply (rep_chr_run false _ _ _ [] _ 0 _ (c :: l)); auto.
    - rewrite cmatch_c1. apply not_ws_not_space. exact Hc.
    - cbn [length]. lia. }
  rewrite He. unfold matched, between. cbn [aft]. rewrite Nat.sub_diag. reflexivity.
Qed.

Lemma min_indent_zero : forall ls, min_indent ls 0 = Ok 0.
Proof.
  induction ls as [|l ls IH]; cbn [min_indent]; auto.
  destruct (negb (is_blank l)); auto.
  destruct (leading_spaces_total l) as [n ->]. cbn [bind]. exact IH.
Qed.

Lemma gsub_cr_plain (s : str) : Forall (fun c => N.eqb c CR = false) s ->
  gsub false (c1 CR) (fun _ _ => []) s = s.
Proof.
  intros H. unfold gsub, gsubS. rewrite gsub_from_miss; [reflexivity|].
  intros pre a' ->. unfold exec_at, c1. apply m_chr_stop. cbn [aft].
  apply Forall_app in H. destruct H as [_ H]. destruct a'; auto.
  inversion H; subst. rewrite cmatch_c1. assumption.
Qed.

Lemma map_skipn_0 (ls : list str) : map (skipn 0) ls = ls.
Proof. induction ls as [|l ls IH]; [reflexivity|]. cbn [map]. rewrite IH. reflexivity. Qed.

(** The content of a fenced block that starts and ends with a character
    that is not white space, and has no carriage return, goes through
    the clean-up of the block unchanged. *)
Lemma code_block_html_plain (c d : char) (t : str) :
  is_ws c = false -> is_ws d = false ->
  Forall (fun c => N.eqb c CR = false) (c :: t ++ [d]) ->
  code_block_html tables0 [] ((c :: t ++ [d]) ++ [NL])
  = Ok (js "<pre class=" ++ q (js "language-plaintext") ++ js "><code>"
        ++ escapeHtml (c :: t ++ [d]) ++ js "</code></pre>").
Proof.
  intros Hc Hd Hcr. unfold code_block_html.
  assert (Hnl : N.eqb c NL = false /\ N.eqb d NL = false).
  { split; [destruct (N.eqb c NL) eqn:E|destruct (N.eqb d NL) eqn:E]; auto;
      apply N.eqb_eq in E; subst; discriminate. }
  destruct Hnl as [Hcn Hdn].
  rewrite gsub_cr_plain.
  2:{ apply Forall_app. split; [exact Hcr|repeat constructor]. }
  rewrite split_on_snoc_sep.
  set (s := c :: t ++ [d]).
  assert (Hfirst : exists l ls, split_on NL s = (c :: l) :: ls).
  { unfold s. cbn [split_on]. rewrite Hcn.
    pose proof (split_on_nonempty NL (t ++ [d])) as Hne.
    destruct (split_on NL (t ++ [d])) as [|l ls]; [contradiction|]. eauto. }
  assert (Hlast : exists ls l, split_on NL s = ls ++ [l ++ [d]]).
  { unfold s. change (c :: t ++ [d]) with ((c :: t) ++ [d]). apply split_on_last. exact Hdn. }
  destruct Hfirst as (l1 & ls1 & H1). destruct Hlast as (ls2 & l2 & H2).
  assert (Hdrop1 : dropWhileL is_blank (split_on NL s ++ [[]]) = split_on NL s ++ [[]]).
  { rewrite H1. cbn [app dropWhileL]. rewrite is_blank_head; auto. }
  rewrite Hdrop1.
  assert (Hdrop2 : rev (dropWhileL is_blank (rev (split_on NL s ++ [[]]))) = split_on NL s).
  { rewrite rev_app_distr. cbn [rev app dropWhileL].
    change (is_blank []) with true. cbv iota.
    rewrite H2 at 1. rewrite rev_app_distr. cbn [rev app dropWhileL].
    rewrite is_blank_last by auto.
    change ((l2 ++ [d]) :: rev ls2) with ([l2 ++ [d]] ++ rev ls2).
    rewrite rev_app_distr, rev_involutive. cbn [rev app]. symmetry. exact H2. }
  rewrite Hdrop2.
  assert (Hmin : min_indent (split_on NL s) 9999 = Ok 0).
  { rewrite H1. cbn [min_indent]. rewrite is_blank_head by auto. cbn [negb].
    rewrite leading_spaces_zero by auto. cbn [bind].
    change (Nat.ltb 0 9999) with true. cbv iota. apply min_indent_zero. }
  rewrite Hmin. cbn [bind]. rewrite map_skipn_0, join_split.
  reflexivity.
Qed.

(** ** A fenced block as the whole input *)

Lemma backtick_step_fence (c d : char) (t : str) :
  is_ws c = false -> is_ws d = false ->
  Forall (fun c => N.eqb c CR = false) (c :: t ++ [d]) ->
  Forall (fun c => N.eqb c BT = false) (c :: t ++ [d]) ->
  exists used,
    backtick_step (fence ++ NL :: (c :: t ++ [d]) ++ NL :: fence) tables0
    = Ok (js "<!--codeblock_0-->", used,
          fence_tables (js "<pre class=" ++ q (js "language-plaintext") ++ js "><code>"
                        ++ escapeHtml (c :: t ++ [d]) ++ js "</code></pre>"))
    /\ length (fence ++ NL :: (c :: t ++ [d]) ++ NL :: fence) <= used.
Proof.
  intros Hc Hd Hcr Hbt.
  pose proof (code_block_html_plain c d t Hc Hd Hcr) as Hcb.
  remember (c :: t ++ [d]) as s eqn:Es. clear Es.
  unfold backtick_step.
  change (starts_with fence (fence ++ NL :: s ++ NL :: fence)) with true. cbv iota.
  change (skipn 3 (fence ++ NL :: s ++ NL :: fence)) with (NL :: s ++ NL :: fence).
  cbn [lang_scan]. change (test false re_nonspace [NL]) with false. cbv iota.
  change (skip_char CR (NL :: s ++ NL :: fence)) with (NL :: s ++ NL :: fence).
  change (skip_char NL (NL :: s ++ NL :: fence)) with (s ++ NL :: fence).
  replace (s ++ NL :: fence) with ((s ++ [NL]) ++ fence)
    by (rewrite <- app_assoc; reflexivity).
  rewrite find_sub_fence.
  2:{ apply Forall_app. split; [exact Hbt|repeat constructor]. }
  cbn [rev app]. rewrite Hcb.
  cbn [bind]. eexists. split; [reflexivity|].
  rewrite !length_app. cbn [length fence]. rewrite !length_app. cbn [length]. lia.
Qed.

Lemma fenced_code_renders (c d : char) (t : str) :
  is_ws c = false -> is_ws d = false ->
  Forall (fun c => N.eqb c CR = false) (c :: t ++ [d]) ->
  code_plain (c :: t ++ [d]) = true -> forall fuel,
  markdownToHtml (S fuel) (fence ++ NL :: (c :: t ++ [d]) ++ NL :: fence)
  = Ok (js "<pre class=" ++ q (js "language-plaintext") ++ js "><code>"
        ++ escapeHtml (c :: t ++ [d]) ++ js "</code></pre>").
Proof.
  intros Hc Hd Hcr Hp fuel. destruct (code_plain_inv _ Hp) as (Hbt & Hbs & Hdl).
  destruct (backtick_step_fence c d t Hc Hd Hcr Hbt) as (used & Hstep & Hused).
  remember (c :: t ++ [d]) as s eqn:Es. clear Es.
  rewrite markdownToHtml_S. unfold prepare.
  rewrite escapePass_plain.
  2:{ apply Forall_app. split; [repeat constructor|]. constructor; [reflexivity|].
      apply Forall_app. split; [exact Hbs|repeat constructor]. }
  unfold parseBackticks. change (fence ++ NL :: s ++ NL :: fence)
    with (BT :: BT :: BT :: NL :: s ++ NL :: fence) in *.
  rewrite parseBackticks_from_cons, Hstep. cbn [bind].
  rewrite parseBackticks_skip by (cbn [length] in *; lia).
  cbn [bind fst snd]. rewrite app_nil_r.
  assert (Hpre : linkPass (imagePass (inlinePass (listPass (checkboxPass
                   (trimIndentation (js "<!--codeblock_0-->"))))))
                 = js "<!--codeblock_0-->") by (vm_compute; reflexivity).
  rewrite Hpre.
  assert (Hq : quotePass (markdownToHtml fuel) (js "<!--codeblock_0-->")
               = Ok (js "<!--codeblock_0-->")) by (vm_compute; reflexivity).
  rewrite Hq. cbn [bind]. unfold finish.
  assert (Hpar : paragraphs (tablePass (js "<!--codeblock_0-->"))
                 = js "<!--codeblock_0-->") by (vm_compute; reflexivity).
  rewrite Hpar. unfold reassemble, fence_tables.
  cbn [codeBlocks inlineCodeBlocks escapePlaceholders fold_left].
  unfold restore_code. cbn [fst snd]. unfold replace_str.
  assert (Hf : find_sub (js "<!--codeblock_0-->") [] (js "<!--codeblock_0-->")
               = Some ([], [])) by (vm_compute; reflexivity).
  rewrite Hf. rewrite getSubstitution_plain.
  2:{ repeat (apply Forall_app; split);
        try (apply escapeHtml_no_dollar; exact Hdl); apply no_dollar_b; reflexivity. }
  f_equal. cbn [app]. rewrite app_nil_r.
  replace (js "<pre class=" ++ q (js "language-plaintext") ++ js "><code>"
           ++ escapeHtml s ++ js "</code></pre>")
    with (ch "<" :: (js "pre class=" ++ q (js "language-plaintext") ++ js "><code>"
                     ++ escapeHtml s ++ js "</code></pre") ++ [ch ">"])
    by (rewrite <- !app_assoc; reflexivity).
  apply trim_tag; reflexivity.
Qed.

(** * The level of a quote line *)

Lemma starts_with_app (p : str) : forall s : str, starts_with p s = true ->
  s = p ++ skipn (length p) s.
Proof.
  induction p as [|a p IH]; intros s H; [reflexivity|].
  destruct s as [|b s]; [discriminate|]. cbn [starts_with] in H.
  apply andb_prop in H. destruct H as [E H]. apply N.eqb_eq in E. subst b.
  cbn [length skipn app]. f_equal. apply IH. exact H.
Qed.

Lemma m_lit_fail ml : forall (s : str) x k, starts_with s (aft x) = false ->
  m ml (lit s) true x k = None.
Proof.
  induction s as [|c s IH]; intros x k H; [discriminate|].
  destruct s as [|c' s'].
  - cbn [lit]. unfold c1. apply m_chr_stop. destruct (aft x) as [|d a]; auto.
    rewrite cmatch_c1. cbn [starts_with] in H. rewrite andb_true_r in H.
    rewrite N.eqb_sym. exact H.
  - change (lit (c :: c' :: s')) with (Seq (c1 c) (lit (c' :: s'))). rewrite m_Seq.
    destruct (aft x) as [|d a] eqn:Ha.
    + unfold c1. apply m_chr_stop. rewrite Ha. exact I.
    + cbn [starts_with] in H. destruct (N.eqb c d) eqn:E.
      * apply N.eqb_eq in E. subst d. rewrite (m_c1 ml c x a) by exact Ha.
        apply IH. exact H.
      * unfold c1. apply m_chr_stop. rewrite Ha, cmatch_c1, N.eqb_sym. exact E.
Qed.

Lemma lead_from_spec : forall fuel (s : str) n M rest,
  lead_from fuel s = (n, M, rest) ->
  s = M ++ rest /\ (M = [] \/ exists M1, M = GT4 ++ M1) /\
  (length s <= fuel -> starts_with GT4 rest = false) /\ n <= length M.
Proof.
  induction fuel as [|fuel IH]; intros s n M rest H; cbn [lead_from] in H.
  - inversion H; subst. repeat split; auto.
    all: try (simpl; lia).
    all: try (intros Hl; destruct rest; [reflexivity|simpl in Hl; lia]).
  - destruct (starts_with GT4 s) eqn:Hs.
    + apply starts_with_app in Hs. change (length GT4) with 4 in Hs.
      destruct (match skipn 4 s with
                | [] => ([], skipn 4 s)
                | c :: r1 => if is_ws c then ([c], r1) else ([], skipn 4 s)
                end) as [w r'] eqn:Hw.
      destruct (lead_from fuel r') as [[n' M'] rest'] eqn:Hl.
      inversion H; subst n M rest'. clear H.
      change (38%N :: 103%N :: 116%N :: 59%N :: w ++ M') with (GT4 ++ w ++ M').
      destruct (IH _ _ _ _ Hl) as (A & B & C & D).
      assert (Hr : skipn 4 s = w ++ r' /\ length w <= 1).
      { destruct (skipn 4 s) as [|c r1]; [inversion Hw; subst; auto|].
        destruct (is_ws c); inversion Hw; subst; simpl; auto. }
      destruct Hr as [Hr Hwl].
      repeat split.
      * rewrite Hs at 1. rewrite Hr, A, <- !app_assoc. reflexivity.
      * right. eauto.
      * intros Hlen. apply C. rewrite Hs, Hr in Hlen. rewrite !length_app in Hlen.
        change (length GT4) with 4 in Hlen. lia.
      * rewrite !length_app. change (length GT4) with 4. lia.
    + inversion H; subst. repeat split; auto. all: simpl; lia.
Qed.

Lemma m_opt_chr_take ml cl x c a k z : aft x = c :: a -> cmatch cl c = true ->
  k (MState (c :: bef x) a (caps x)) = Some z ->
  m ml (opt (Chr cl)) true x k = Some z.
Proof.
  intros Ha Hc Hk. unfold opt. rewrite m_Rep. cbn [groups Nat.add].
  cbn [rep_loop max_zero Nat.eqb negb andb]. rewrite clear_groups_nil.
  rewrite (m_chr_step ml cl x c a) by auto.
  cbn [aft length]. rewrite Ha. cbn [length].
  replace (Nat.eqb (length a) (S (length a))) with false
    by (symmetry; apply Nat.eqb_neq; lia).
  rewrite Nat.add_succ_r. cbn [rep_loop max_pred pred max_zero]. rewrite Hk. reflexivity.
Qed.

Lemma m_opt_chr_skip ml cl x k :
  match aft x with c :: _ => cmatch cl c = false | [] => True end ->
  m ml (opt (Chr cl)) true x k = k x.
Proof.
  intros H. unfold opt. rewrite m_Rep. cbn [groups Nat.add].
  cbn [rep_loop max_zero Nat.eqb negb andb]. rewrite clear_groups_nil.
  rewrite m_chr_stop by exact H. reflexivity.
Qed.

Lemma cmatch_ws c : cmatch (Cls false [CSpace]) c = is_ws c.
Proof. cbn. apply orb_false_r. Qed.

(** One marker and the white-space character after it, if there is one. *)
Lemma marker_body x (r : str) d z : aft x = GT4 ++ r ->
  match r with
  | c :: r1 =>
      if is_ws c then d (MState (c :: rev GT4 ++ bef x) r1 (caps x)) = Some z
      else d (MState (rev GT4 ++ bef x) r (caps x)) = Some z
  | [] => d (MState (rev GT4 ++ bef x) r (caps x)) = Some z
  end ->
  m false (Seq (lit GT4) (opt ws)) true x d = Some z.
Proof.
  intros Ha H. rewrite m_Seq, (m_lit false GT4 x r) by exact Ha. unfold ws.
  destruct r as [|c r1].
  - rewrite m_opt_chr_skip by exact I. exact H.
  - destruct (is_ws c) eqn:Hc.
    + apply (m_opt_chr_take false _ _ c r1); auto. rewrite cmatch_ws. exact Hc.
    + rewrite m_opt_chr_skip by (cbn [aft]; rewrite cmatch_ws; exact Hc). exact H.
Qed.

(** The loop over the markers takes the markers of [lead_from]. *)
Lemma marker_loop K z : forall fuel (s : str) n M rest,
  lead_from fuel s = (n, M, rest) -> length s <= fuel ->
  forall f mn x, aft x = s -> mn <= n -> n < f ->
  K (MState (rev M ++ bef x) rest (caps x)) = Some z ->
  rep_loop (m false (Seq (lit GT4) (opt ws)) true) [] true f mn None x K = Some z.
Proof.
  induction fuel as [|fuel IH]; intros s n M rest H Hlen f mn x Ha Hmn Hf HK.
  - destruct s; [|simpl in Hlen; lia]. cbn [lead_from] in H. inversion H; subst n M rest.
    assert (mn = 0) as -> by lia. destruct f as [|f]; [lia|].
    cbn [rep_loop max_zero Nat.eqb negb]. rewrite clear_groups_nil, m_Seq.
    rewrite m_lit_fail by (rewrite Ha; reflexivity).
    destruct x as [b a cs]. cbn [aft bef caps rev app] in *. subst a. exact HK.
  - cbn [lead_from] in H. destruct (starts_with GT4 s) eqn:Hs.
    + pose proof (starts_with_app GT4 s Hs) as Hs'. change (length GT4) with 4 in Hs'.
      destruct (match skipn 4 s with
                | [] => ([], skipn 4 s)
                | c :: r1 => if is_ws c then ([c], r1) else ([], skipn 4 s)
                end) as [w r'] eqn:Hw.
      destruct (lead_from fuel r') as [[n' M'] rest'] eqn:Hl.
      inversion H; subst n M rest'. clear H.
      change (38%N :: 103%N :: 116%N :: 59%N :: w ++ M') with (GT4 ++ w ++ M') in *.
      destruct f as [|f]; [lia|].
      assert (Hr'len : length r' <= fuel).
      { rewrite Hs' in Hlen. rewrite length_app in Hlen. change (length GT4) with 4 in Hlen.
        destruct (skipn 4 s) as [|c r1]; [inversion Hw; subst; simpl in *; lia|].
        destruct (is_ws c); inversion Hw; subst; simpl in *; lia. }
      assert (Hr2 : length r' <= length (skipn 4 s)).
      { destruct (skipn 4 s) as [|c r1]; [inversion Hw; subst; simpl; lia|].
        destruct (is_ws c); inversion Hw; subst; simpl; lia. }
      (* the continuation of one iteration, at the state after the marker *)
      assert (Hd : forall y, aft y = r' -> bef y = rev (GT4 ++ w) ++ bef x ->
                caps y = caps x ->
                (if (Nat.eqb mn 0 && Nat.eqb (length (aft y)) (length (aft x)))%bool
                 then None
                 else rep_loop (m false (Seq (lit GT4) (opt ws)) true) [] true f
                        (pred mn) None y K) = Some z).
      { intros y Hy Hb Hc.
        replace (Nat.eqb (length (aft y)) (length (aft x))) with false.
        2:{ symmetry. apply Nat.eqb_neq. rewrite Hy, Ha, Hs' at 1.
            rewrite length_app. change (length GT4) with 4. lia. }
        rewrite andb_false_r.
        apply (IH r' n' M' rest Hl Hr'len f (pred mn) y Hy); try lia.
        rewrite Hb, Hc. rewrite <- HK. f_equal. f_equal.
        rewrite !rev_app_distr, <- !app_assoc. reflexivity. }
      cbn [rep_loop max_zero]. rewrite clear_groups_nil.
      rewrite (marker_body x (skipn 4 s) _ z).
      * destruct (negb (Nat.eqb mn 0)); reflexivity.
      * rewrite Ha. exact Hs'.
      * destruct (skipn 4 s) as [|c r1] eqn:Hsk.
        -- inversion Hw; subst w r'.
           apply Hd; auto; cbn [bef app]; rewrite app_nil_r; reflexivity.
        -- destruct (is_ws c) eqn:Hc; inversion Hw; subst w r'.
           ++ apply Hd; auto; cbn [bef]; rewrite rev_app_distr; reflexivity.
           ++ apply Hd; auto; cbn [bef app]; rewrite app_nil_r; reflexivity.
    + inversion H; subst n M rest.
      assert (mn = 0) as -> by lia. destruct f as [|f]; [lia|].
      cbn [rep_loop max_zero Nat.eqb negb]. rewrite clear_groups_nil, m_Seq.
      rewrite m_lit_fail by (rewrite Ha; exact Hs).
      destruct x as [b a cs]. cbn [aft bef caps rev app] in *. subst a. exact HK.
Qed.

(** ** Steps of a global replace *)

Lemma gsub_step_none St ml r (f : St -> mstate -> mstate -> str * St) b c a st :
  exec_at ml r b (c :: a) = None ->
  gsub_from ml r f b (c :: a) 0 st
  = (c :: fst (gsub_from ml r f (c :: b) a 0 st), snd (gsub_from ml r f (c :: b) a 0 st)).
Proof.
  intros H. cbn [gsub_from]. rewrite H. destruct (gsub_from ml r f (c :: b) a 0 st).
  reflexivity.
Qed.

Lemma gsub_step_hit St ml r (f : St -> mstate -> mstate -> str * St) b c a st y l :
  exec_at ml r b (c :: a) = Some y ->
  length (matched (MState b (c :: a) []) y) = S l ->
  gsub_from ml r f b (c :: a) 0 st
  = (fst (f st (MState b (c :: a) []) y)
       ++ fst (gsub_from ml r f (c :: b) a l (snd (f st (MState b (c :: a) []) y))),
     snd (gsub_from ml r f (c :: b) a l (snd (f st (MState b (c :: a) []) y)))).
Proof.
  intros H Hl. cbn [gsub_from]. rewrite H. cbv zeta.
  destruct (f st (MState b (c :: a) []) y) as [rp st1]. rewrite Hl. cbn [fst snd].
  destruct (gsub_from ml r f (c :: b) a l st1). reflexivity.
Qed.

Lemma gsub_step_skip St ml r (f : St -> mstate -> mstate -> str * St) b c a st k :
  gsub_from ml r f b (c :: a) (S k) st = gsub_from ml r f (c :: b) a k st.
Proof. reflexivity. Qed.

Lemma gsub_step_nil St ml r (f : St -> mstate -> mstate -> str * St) b st :
  exec_at ml r b [] = None -> gsub_from ml r f b [] 0 st = ([], st).
Proof. intros H. cbn [gsub_from]. rewrite H. reflexivity. Qed.

(** ** Counting the markers *)

Lemma plus_ws_none b c a : is_ws c = false -> exec_at false (plus ws) b (c :: a) = None.
Proof.
  intros H. unfold exec_at, plus. rewrite m_Rep.
  cbn [rep_loop max_zero Nat.add Nat.eqb negb groups]. rewrite clear_groups_nil.
  unfold ws. apply m_chr_stop. cbn [aft]. rewrite cmatch_ws. exact H.
Qed.

Lemma plus_ws_nil b : exec_at false (plus ws) b [] = None.
Proof. reflexivity. Qed.

Lemma plus_ws_one b c (a : str) : is_ws c = true ->
  match a with d :: _ => is_ws d = false | [] => True end ->
  exec_at false (plus ws) b (c :: a) = Some (MState (c :: b) a []).
Proof.
  intros Hc Ha. unfold exec_at, plus, ws. rewrite m_Rep. cbn [groups].
  apply (rep_chr_run false _ _ _ [c] _ 1 _ a); auto.
  - repeat constructor. rewrite cmatch_ws. exact Hc.
  - destruct a; auto. rewrite cmatch_ws. exact Ha.
  - cbn [length aft bef]. lia.
Qed.

(** Without its white space, the text of [n] markers is [n] markers. *)
Lemma strip_markers : forall fuel (s : str) n M rest,
  lead_from fuel s = (n, M, rest) ->
  forall b, fst (gsub_from false (plus ws)
                   (fun (_ : unit) x y => ((fun _ _ : mstate => @nil char) x y, tt))
                   b M 0 tt)
            = concat (repeat GT4 n).
Proof.
  induction fuel as [|fuel IH]; intros s n M rest H b; cbn [lead_from] in H.
  - inversion H; subst. reflexivity.
  - destruct (starts_with GT4 s) eqn:Hs; [|inversion H; subst; reflexivity].
    destruct (match skipn 4 s with
              | [] => ([], skipn 4 s)
              | c :: r1 => if is_ws c then ([c], r1) else ([], skipn 4 s)
              end) as [w r'] eqn:Hw.
    destruct (lead_from fuel r') as [[n' M'] rest'] eqn:Hl.
    inversion H; subst n M rest'. clear H.
    destruct (lead_from_spec _ _ _ _ _ Hl) as (_ & HM & _).
    assert (HM' : match M' with d :: _ => is_ws d = false | [] => True end).
    { destruct HM as [->|(M1 & ->)]; [exact I|reflexivity]. }
    cbn [repeat concat].
    rewrite !gsub_step_none by (apply plus_ws_none; reflexivity). cbn [fst].
    change (GT4 ++ concat (repeat GT4 n'))
      with (38%N :: 103%N :: 116%N :: 59%N :: concat (repeat GT4 n')).
    do 4 f_equal.
    assert (Hw' : w = [] \/ exists c, w = [c] /\ is_ws c = true).
    { destruct (skipn 4 s) as [|c r1]; [inversion Hw; auto|].
      destruct (is_ws c) eqn:Hc; inversion Hw; subst; eauto. }
    destruct Hw' as [->|(c & -> & Hc)]; cbn [app].
    + apply (IH _ _ _ _ Hl).
    + rewrite (gsub_step_hit unit false (plus ws) _ _ c M' tt _ 0
                 (plus_ws_one _ c M' Hc HM')).
      * cbn [fst snd app]. apply (IH _ _ _ _ Hl).
      * rewrite (matched_app _ _ [] [c]); reflexivity.
Qed.

Lemma count_markers : forall n b st,
  snd (gsub_from false (lit GT4) (fun (k : nat) (_ _ : mstate) => (@nil char, S k))
         b (concat (repeat GT4 n)) 0 st)
  = st + n.
Proof.
  induction n as [|n IH]; intros b st; cbn [repeat concat].
  - rewrite gsub_step_nil by reflexivity. cbn [snd]. lia.
  - change (GT4 ++ concat (repeat GT4 n))
      with (38%N :: 103%N :: 116%N :: 59%N :: concat (repeat GT4 n)).
    rewrite (gsub_step_hit nat false (lit GT4) _ b 38%N _ st
               (MState (rev GT4 ++ b) (concat (repeat GT4 n)) []) 3).
    + cbn [snd fst]. rewrite !gsub_step_skip. rewrite IH. lia.
    + unfold exec_at. rewrite (m_lit false GT4 _ (concat (repeat GT4 n))) by reflexivity.
      reflexivity.
    + rewrite (matched_app _ _ [] GT4); reflexivity.
Qed.

(** ** The line pattern *)

Lemma search_bol_none R : forall (a b : str), b <> [] ->
  search false (Seq Bol R) b a = None.
Proof.
  induction a as [|c a IH]; intros b Hb; cbn [search]; unfold exec_at;
    rewrite m_Seq, m_Bol; destruct b as [|d b]; try contradiction; cbn [at_bol bef andb].
  - reflexivity.
  - apply IH. discriminate.
Qed.

Lemma quote_item_markers (line : str) : term_free line ->
  quote_item line = quote_item_by_markers line.
Proof.
  intros Hl. unfold quote_item_by_markers, lead_markers.
  destruct (lead_from (length line) line) as [[n M] rest] eqn:Hlf.
  destruct (lead_from_spec _ _ _ _ _ Hlf) as (Hsplit & HM & Hrest & Hn).
  assert (Hrest_tf : term_free rest).
  { rewrite Hsplit in Hl. apply Forall_app in Hl. apply Hl. }
  destruct n as [|n].
  - (* no marker: the pattern fails at the start, and cannot start later *)
    assert (Hs : starts_with GT4 line = false).
    { destruct line as [|c l]; [reflexivity|]. cbn [length lead_from] in Hlf.
      destruct (starts_with GT4 (c :: l)); [|reflexivity].
      destruct (match skipn 4 (c :: l) with
                | [] => ([], skipn 4 (c :: l))
                | c0 :: r1 => if is_ws c0 then ([c0], r1) else ([], skipn 4 (c :: l))
                end) as [w r'].
      destruct (lead_from (length l) r') as [[n' M'] rest']. discriminate. }
    unfold quote_item.
    assert (Hnone : search false re_quote_line [] line = None).
    { assert (He : exec_at false re_quote_line [] line = None).
      { unfold exec_at, re_quote_line. cbn [seqs]. rewrite m_Seq, m_Bol.
        cbn [at_bol bef]. rewrite m_Seq, m_Grp. unfold plus. rewrite m_Rep.
        cbn [rep_loop max_zero Nat.add Nat.eqb negb groups app]. rewrite clear_groups_nil.
        rewrite m_Seq. apply m_lit_fail. exact Hs. }
      destruct line as [|c l]; cbn [search]; rewrite He; [reflexivity|].
      unfold re_quote_line. cbn [seqs]. apply search_bol_none. discriminate. }
    rewrite Hnone. reflexivity.
  - unfold quote_item.
    assert (He : exec_at false re_quote_line [] line
                 = Some (MState (rev rest ++ rev M) [] [(2, rest); (1, M)])).
    { unfold exec_at, re_quote_line. cbn [seqs]. rewrite m_Seq, m_Bol.
      cbn [at_bol bef]. rewrite m_Seq, m_Grp. unfold plus. rewrite m_Rep.
      cbn [groups app].
      apply (marker_loop _ _ (length line) line (S n) M rest Hlf (le_n _)); auto.
      - lia.
      - cbn [bef aft length Nat.add]. rewrite Hsplit. rewrite length_app. lia.
      - cbn [bef caps aft]. rewrite app_nil_r.
        rewrite (between_app (MState [] line []) (MState (rev M) rest []) M)
          by exact Hsplit.
        rewrite m_Seq, m_Grp. unfold star, any. rewrite m_Rep. cbn [groups].
        apply (rep_chr_run false Dot _ _ rest _ 0 _ []).
        + cbn [aft set_cap]. rewrite app_nil_r. reflexivity.
        + eapply Forall_impl; [|exact Hrest_tf]. intros c Hc. cbn. rewrite Hc. reflexivity.
        + exact I.
        + cbn [aft bef set_cap length Nat.add]. lia.
        + lia.
        + cbn [bef caps set_cap aft].
          rewrite (between_app _ _ rest) by (cbn [aft]; rewrite app_nil_r; reflexivity).
          rewrite m_Eol. reflexivity. }
    assert (Hsearch : search false re_quote_line [] line
                      = Some (MState [] line [],
                              MState (rev rest ++ rev M) [] [(2, rest); (1, M)])).
    { destruct line; cbn [search]; rewrite He; reflexivity. }
    rewrite Hsearch.
    change (cap 1 (MState (rev rest ++ rev M) [] [(2, rest); (1, M)])) with M.
    change (cap 2 (MState (rev rest ++ rev M) [] [(2, rest); (1, M)])) with rest.
    unfold count_matches, gsub, gsubS.
    rewrite (strip_markers _ _ _ _ _ Hlf), count_markers. reflexivity.
Qed.

(** * One ordered item *)

Lemma trimEnd_id (s : str) d : is_ws d = false -> trimEnd (s ++ [d]) = s ++ [d].
Proof.
  intros Hd. unfold trimEnd. rewrite rev_app_distr. cbn [rev app dropWhile].
  rewrite Hd. cbn [rev]. rewrite rev_involutive. reflexivity.
Qed.

Lemma cmatch_digit c : cmatch (Cls false [CDigit]) c = is_digit c.
Proof. cbn. apply orb_false_r. Qed.

Lemma digit_facts c : is_digit c = true ->
  N.eqb c SP = false /\ N.eqb c NL = false /\ is_term c = false /\
  N.eqb c (ch "\") = false /\ N.eqb c BT = false /\ N.eqb c (ch "<") = false /\
  cmatch (Cls false (map CC (js "-+*"))) c = false.
Proof.
  unfold is_digit, in_range. intros H. apply andb_prop in H. destruct H as [H1 H2].
  apply N.leb_le in H1, H2.
  assert (Hne : forall k, (k < 48 \/ 57 < k)%N -> N.eqb c k = false).
  { intros k Hk. apply N.eqb_neq. lia. }
  repeat split; try (apply Hne; first [left; reflexivity|right; reflexivity]).
  - unfold is_term.
    rewrite !Hne by (first [left; reflexivity|right; reflexivity]). reflexivity.
  - change (js "-+*") with [45%N; 43%N; 42%N]. cbn.
    rewrite !Hne by (first [left; reflexivity|right; reflexivity]). reflexivity.
Qed.

(** The marker of an ordered item is all digits for the type test. *)
Lemma all_digits_test (mk : str) : mk <> [] -> forallb is_digit mk = true ->
  test false re_all_digits mk = true.
Proof.
  intros Hne Hd. unfold test.
  assert (He : exec_at false re_all_digits [] mk = Some (MState (rev mk) [] [])).
  { unfold exec_at, re_all_digits. cbn [seqs]. rewrite m_Seq, m_Bol. cbn [at_bol bef].
    rewrite m_Seq. unfold plus, digit. rewrite m_Rep. cbn [groups].
    apply (rep_chr_run false _ _ _ mk _ 1 _ []).
    - cbn [aft]. rewrite app_nil_r. reflexivity.
    - apply Forall_forall. intros c Hc. rewrite forallb_forall in Hd.
      rewrite cmatch_digit. auto.
    - exact I.
    - cbn [aft bef length]. lia.
    - destruct mk; [contradiction|simpl; lia].
    - rewrite m_Eol. cbn [at_eol aft bef caps]. rewrite app_nil_r. reflexivity. }
  destruct mk; cbn [search]; rewrite He; reflexivity.
Qed.

(** The item pattern on a line [mk. content]: no indent, the marker and the content. *)
Lemma item_match_ordered (mk content : str) :
  mk <> [] -> forallb is_digit mk = true ->
  content <> [] -> term_free content ->
  item_match (mk ++ js ". " ++ content) = Some (0, mk, content).
Proof.
  intros Hne Hd Hc Htf. unfold item_match.
  assert (Hd' : Forall (fun c => is_digit c = true) mk).
  { apply Forall_forall. rewrite forallb_forall in Hd. exact Hd. }
  assert (Hhead : match mk ++ js ". " ++ content with
                  | c :: _ => is_digit c = true
                  | [] => False
                  end).
  { destruct mk as [|c mk']; [contradiction|]. inversion Hd'; assumption. }
  assert (He : exec_at false re_item_dot [] (mk ++ js ". " ++ content)
               = Some (MState (rev content ++ SP :: ch "." :: rev mk) []
                         [(3, content); (2, mk); (1, [])])).
  { unfold exec_at, re_item_dot. cbn [seqs]. rewrite m_Seq, m_Bol. cbn [at_bol bef].
    rewrite m_Seq, m_Grp. unfold star, sp, c1 at 1. rewrite m_Rep. cbn [groups].
    apply (rep_chr_run false _ _ _ [] _ 0 _ (mk ++ js ". " ++ content)); auto.
    - destruct (mk ++ js ". " ++ content) as [|c r]; [exact I|].
      rewrite cmatch_c1. apply digit_facts. exact Hhead.
    - cbn [length]. lia.
    - cbn [rev app bef caps].
      rewrite (between_app _ _ []) by reflexivity.
      rewrite m_Seq, m_Grp, m_Alt. unfold set at 1.
      rewrite m_chr_stop.
      2:{ cbn [aft set_cap]. destruct (mk ++ js ". " ++ content) as [|c r]; [exact I|].
          apply digit_facts. exact Hhead. }
      unfold plus, digit. rewrite m_Rep. cbn [groups].
      apply (rep_chr_run false _ _ _ mk _ 1 _ (js ". " ++ content)).
      + reflexivity.
      + eapply Forall_impl; [|exact Hd']. intros c Hc'. rewrite cmatch_digit. exact Hc'.
      + reflexivity.
      + cbn [aft bef set_cap length]. rewrite length_app. lia.
      + destruct mk; [contradiction|simpl; lia].
      + cbn [bef caps set_cap aft].
        rewrite (between_app _ _ mk) by reflexivity.
        rewrite m_Seq. change (js ". " ++ content) with (ch "." :: SP :: content).
        rewrite (m_c1 false (ch ".") _ (SP :: content)) by reflexivity.
        rewrite m_Seq. unfold sp.
        rewrite (m_c1 false SP _ content) by reflexivity.
        rewrite m_Seq, m_Grp. unfold plus, any. rewrite m_Rep. cbn [groups].
        apply (rep_chr_run false Dot _ _ content _ 1 _ []).
        * cbn [aft set_cap]. rewrite app_nil_r. reflexivity.
        * eapply Forall_impl; [|exact Htf]. intros c Hc'. cbn. rewrite Hc'. reflexivity.
        * exact I.
        * cbn [aft bef set_cap length]. lia.
        * destruct content; [contradiction|simpl; lia].
        * cbn [bef caps set_cap aft].
          rewrite (between_app _ _ content) by (cbn [aft]; rewrite app_nil_r; reflexivity).
          rewrite m_Eol. cbn [at_eol aft set_cap app]. rewrite app_nil_r. reflexivity. }
  destruct (mk ++ js ". " ++ content) as [|c r] eqn:E; [contradiction|].
  cbn [search]. rewrite He. reflexivity.
Qed.

(** ** The replace that turns the index span into a value *)

Lemma gsub_miss_prefix St ml r (f : St -> mstate -> mstate -> str * St) :
  forall (u b a : str) st,
  (forall pre d post, u = pre ++ d :: post ->
     exec_at ml r (rev pre ++ b) (d :: post ++ a) = None) ->
  gsub_from ml r f b (u ++ a) 0 st
  = (u ++ fst (gsub_from ml r f (rev u ++ b) a 0 st),
     snd (gsub_from ml r f (rev u ++ b) a 0 st)).
Proof.
  induction u as [|c u IH]; intros b a st H.
  - cbn [app rev]. destruct (gsub_from ml r f b a 0 st); reflexivity.
  - cbn [app]. rewrite gsub_step_none by (apply (H [] c u); reflexivity).
    rewrite IH.
    + cbn [fst snd rev]. rewrite <- app_assoc. reflexivity.
    + intros pre d post ->. specialize (H (c :: pre) d post eq_refl).
      cbn [rev] in H. rewrite <- app_assoc in H. exact H.
Qed.

Lemma index_span_none b d a : N.eqb d (ch "<") = false ->
  exec_at false re_index_span b (d :: a) = None.
Proof.
  intros H. unfold exec_at, re_index_span. cbn [seqs]. rewrite m_Seq.
  apply m_lit_fail. cbn [aft].
  change (js "<li><span style=" ++ q (js "display:none") ++ js " data-md-index=" ++ [DQ])
    with (ch "<" :: js "li><span style=" ++ q (js "display:none")
          ++ js " data-md-index=" ++ [DQ]).
  cbn [starts_with]. rewrite N.eqb_sym, H. reflexivity.
Qed.

Lemma index_span_split (mk rest : str) :
  js "<li>" ++ index_span mk ++ rest
  = (js "<li><span style=" ++ q (js "display:none") ++ js " data-md-index=" ++ [DQ])
      ++ mk ++ (DQ :: js "></span>") ++ rest.
Proof.
  unfold index_span, q. rewrite <- !app_assoc. cbn [app]. rewrite <- !app_assoc.
  reflexivity.
Qed.

Lemma index_span_hit b (mk rest : str) :
  mk <> [] -> forallb is_digit mk = true ->
  exec_at false re_index_span b (js "<li>" ++ index_span mk ++ rest)
  = Some (MState (rev (js "<li>" ++ index_span mk) ++ b) rest [(1, mk)]).
Proof.
  intros Hne Hd.
  assert (Hrev : rev (js "<li>" ++ index_span mk) ++ b
                 = rev (DQ :: js "></span>") ++ rev mk
                   ++ rev (js "<li><span style=" ++ q (js "display:none")
                           ++ js " data-md-index=" ++ [DQ]) ++ b).
  { pose proof (index_span_split mk []) as E. rewrite !app_nil_r in E. rewrite E.
    rewrite !rev_app_distr, <- !app_assoc. reflexivity. }
  rewrite Hrev, index_span_split.
  unfold exec_at, re_index_span. cbn [seqs]. rewrite m_Seq.
  rewrite (m_lit false _ _ (mk ++ (DQ :: js "></span>") ++ rest)) by reflexivity.
  rewrite m_Seq, m_Grp. unfold plus, digit. rewrite m_Rep. cbn [groups].
  apply (rep_chr_run false _ _ _ mk _ 1 _ ((DQ :: js "></span>") ++ rest)).
  - reflexivity.
  - apply Forall_forall. intros c Hc. rewrite forallb_forall in Hd.
    rewrite cmatch_digit. auto.
  - reflexivity.
  - cbn [aft bef]. rewrite !length_app. lia.
  - destruct mk; [contradiction|simpl; lia].
  - cbn [bef caps aft].
    rewrite (between_app _ _ mk) by reflexivity.
    rewrite (m_lit false _ _ rest) by reflexivity.
    cbn [bef caps set_cap]. reflexivity.
Qed.

Lemma index_template x b a (mk : str) :
  template 1 (js "<li value=" ++ q (js "$1") ++ js ">") x (MState b a [(1, mk)])
  = js "<li value=" ++ q mk ++ js ">".
Proof.
  transitivity (js "<li value=" ++ DQ :: mk ++ DQ :: js ">"); [reflexivity|].
  unfold q. cbn [app]. rewrite <- app_assoc. reflexivity.
Qed.

(** A block of one ordered item. *)
Lemma list_block_ordered (mk content : str) d :
  mk <> [] -> forallb is_digit mk = true ->
  term_free (content ++ [d]) -> is_ws d = false ->
  Forall (fun c => N.eqb c (ch "<") = false) (content ++ [d]) ->
  list_block_html (mk ++ js ". " ++ content ++ [d])
  = js "<ol><li value=" ++ q mk ++ js ">" ++ (content ++ [d]) ++ js "</li></ol>".
Proof.
  intros Hne Hd Htf Hws Hlt. unfold list_block_html.
  replace (mk ++ js ". " ++ content ++ [d]) with ((mk ++ js ". " ++ content) ++ [d])
    by (rewrite <- !app_assoc; reflexivity).
  rewrite trimEnd_id by exact Hws.
  replace ((mk ++ js ". " ++ content) ++ [d]) with (mk ++ js ". " ++ content ++ [d])
    by (rewrite <- !app_assoc; reflexivity).
  set (c := content ++ [d]) in *.
  assert (Hd' : Forall (fun c => is_digit c = true) mk).
  { apply Forall_forall. rewrite forallb_forall in Hd. exact Hd. }
  rewrite split_on_single.
  2:{ apply Forall_app. split.
      - eapply Forall_impl; [|exact Hd']. intros a Ha. apply digit_facts. exact Ha.
      - apply Forall_app. split; [repeat constructor|].
        eapply Forall_impl; [|exact Htf]. intros a Ha.
        destruct (N.eqb a NL) eqn:E; auto. apply N.eqb_eq in E. subst a. discriminate. }
  cbn [fold_left]. unfold list_line_step.
  rewrite item_match_ordered; auto.
  2:{ unfold c. destruct content; discriminate. }
  unfold list_item_step. rewrite all_digits_test by auto.
  cbn [fst snd pop_deeper pop_all type_name indent type app].
  rewrite <- !app_assoc.
  change (js "<" ++ js "ol" ++ js "><li>" ++ index_span mk ++ c ++ js "</li></"
          ++ js "ol" ++ js ">")
    with (js "<ol>" ++ js "<li>" ++ index_span mk ++ c ++ js "</li></ol>").
  unfold gsubT, gsub, gsubS.
  rewrite (gsub_miss_prefix unit false re_index_span _ (js "<ol>")).
  2:{ intros pre a post E.
      destruct pre as [|p0 [|p1 [|p2 [|p3 pre]]]]; inversion E; subst;
        try (apply index_span_none; reflexivity);
        try (destruct pre; discriminate).
      unfold exec_at, re_index_span. cbn [seqs]. rewrite m_Seq. apply m_lit_fail.
      reflexivity. }
  cbn [fst snd].
  rewrite (gsub_step_hit unit false re_index_span _ _ (ch "<")
             (js "li>" ++ index_span mk ++ c ++ js "</li></ol>") tt
             (MState (rev (js "<li>" ++ index_span mk) ++ rev (js "<ol>") ++ [])
                (c ++ js "</li></ol>") [(1, mk)])
             (length (js "li>" ++ index_span mk))).
  2:{ apply (index_span_hit _ mk (c ++ js "</li></ol>")); auto. }
  2:{ rewrite (matched_app _ _ [] (js "<li>" ++ index_span mk)).
      - reflexivity.
      - cbn [aft]. rewrite <- !app_assoc. reflexivity. }
  cbn [fst snd]. rewrite index_template.
  replace (js "li>" ++ index_span mk ++ c ++ js "</li></ol>")
    with ((js "li>" ++ index_span mk) ++ c ++ js "</li></ol>")
    by (rewrite <- !app_assoc; reflexivity).
  rewrite gsub_from_skip.
  rewrite (gsub_miss_prefix unit false re_index_span _ c).
  2:{ intros pre a post E. apply index_span_none.
      rewrite E in Hlt. apply Forall_app in Hlt. destruct Hlt as [_ Hlt].
      inversion Hlt; assumption. }
  cbn [fst snd].
  assert (Htail : forall b, fst (gsub_from false re_index_span
                    (fun (_ : unit) x y =>
                       (template 1 (js "<li value=" ++ q (js "$1") ++ js ">") x y, tt))
                    b (js "</li></ol>") 0 tt) = js "</li></ol>").
  { intros b. reflexivity. }
  rewrite Htail. rewrite <- !app_assoc. reflexivity.
Qed.

(** * The quote-nesting depth of the input bounds the recursion *)

(** ** Runs of markers *)

Lemma ldepth_stops z : stops z -> ldepth z = 0.
Proof.
  destruct z as [|c z]; [reflexivity|]. cbn [stops ldepth]. unfold barrier.
  intros H. apply negb_true_iff in H.
  apply orb_false_iff in H. destruct H as [H H5].
  apply orb_false_iff in H. destruct H as [H H4].
  apply orb_false_iff in H. destruct H as [H H3].
  apply orb_false_iff in H. destruct H as [H1 H2].
  rewrite H1, H2. destruct z as [|? [|? [|? ?]]]; reflexivity.
Qed.

Lemma barrier_facts c : barrier c = true ->
  is_iws c = false /\ N.eqb c 38 = false /\ N.eqb c 103 = false /\
  N.eqb c 116 = false /\ N.eqb c 59 = false.
Proof.
  unfold barrier. intros H. apply negb_true_iff in H.
  apply orb_false_iff in H. destruct H as [H H5].
  apply orb_false_iff in H. destruct H as [H H4].
  apply orb_false_iff in H. destruct H as [H H3].
  apply orb_false_iff in H. destruct H as [H1 H2]. auto.
Qed.

(** A run cut off by a barrier is no longer than the run in any other
    continuation. *)
Lemma ldepth_prefix_le : forall n (p w z : str), length p <= n ->
  stops z -> ldepth (p ++ z) <= ldepth (p ++ w).
Proof.
  induction n as [|n IH]; intros p w z Hlen Hz.
  - destruct p; [|simpl in Hlen; lia]. cbn [app]. rewrite (ldepth_stops z Hz). lia.
  - destruct p as [|c p]; simpl in Hlen.
    + cbn [app]. rewrite (ldepth_stops z Hz). lia.
    + cbn [app ldepth]. destruct (is_iws c).
      * apply IH; auto. lia.
      * destruct p as [|c2 [|c3 [|c4 p]]]; cbn [app].
        -- destruct z as [|h [|? [|? ?]]]; try lia.
           apply barrier_facts in Hz. destruct Hz as (_ & _ & Hg & _).
           rewrite Hg, andb_false_r. cbn [andb]. lia.
        -- destruct z as [|h [|? ?]]; try lia.
           apply barrier_facts in Hz. destruct Hz as (_ & _ & _ & Ht & _).
           rewrite Ht, andb_false_r. cbn [andb]. lia.
        -- destruct z as [|h ?]; try lia.
           apply barrier_facts in Hz. destruct Hz as (_ & _ & _ & _ & Hs).
           rewrite Hs, andb_false_r. lia.
        -- destruct (N.eqb c 38 && N.eqb c2 103 && N.eqb c3 116 && N.eqb c4 59)%bool;
             [|lia].
           apply le_n_S. apply IH; auto. simpl in Hlen. lia.
Qed.

Lemma ldepth_cut (p w z : str) : stops z -> ldepth (p ++ z) <= ldepth (p ++ w).
Proof. apply (ldepth_prefix_le (length p)). lia. Qed.

Lemma ldepth_cut_eq (p w z : str) : stops z -> stops w -> ldepth (p ++ z) = ldepth (p ++ w).
Proof. intros Hz Hw. apply Nat.le_antisymm; apply ldepth_cut; auto. Qed.

Lemma stops_app_l (x y : str) : stops x -> x <> [] -> stops (x ++ y).
Proof. destruct x; [contradiction|]. auto. Qed.

Lemma stops_app (x y : str) : stops x -> stops y -> stops (x ++ y).
Proof. destruct x; auto. Qed.

(** A text without ampersand starts no run. *)
Lemma ldepth_lit (x t : str) : Forall (fun c => N.eqb c 38 = false) x ->
  ldepth (x ++ t) <= ldepth t.
Proof.
  induction 1 as [|c x Hc Hx IH]; cbn [app]; [lia|].
  cbn [ldepth]. destruct (is_iws c); [exact IH|].
  match goal with
  | |- match ?l with _ => _ end <= _ => destruct l as [|? [|? [|? ?]]]
  end; try rewrite Hc; cbn [andb]; lia.
Qed.

Lemma ldepth_le_max s : ldepth s <= max_ldepth s.
Proof. destruct s; cbn [max_ldepth]; [reflexivity|apply Nat.le_max_l]. Qed.

Lemma max_ldepth_suffix (u t : str) : max_ldepth t <= max_ldepth (u ++ t).
Proof.
  induction u as [|c u IH]; cbn [app]; [lia|].
  cbn [max_ldepth]. etransitivity; [exact IH|apply Nat.le_max_r].
Qed.

Lemma max_ldepth_tame M s : max_ldepth s <= M <-> tame M s.
Proof.
  split.
  - intros H u v z -> Hz.
    etransitivity; [apply (ldepth_cut v [] z Hz)|]. rewrite app_nil_r.
    etransitivity; [apply ldepth_le_max|].
    etransitivity; [apply max_ldepth_suffix|exact H].
  - intros H. induction s as [|c s IH]; cbn [max_ldepth]; [lia|].
    apply Nat.max_lub.
    + specialize (H [] (c :: s) [] eq_refl I). rewrite app_nil_r in H. exact H.
    + apply IH. intros u v z -> Hz. apply (H (c :: u) v z); auto.
Qed.

Lemma tame_nil M : tame M [].
Proof.
  intros u v z H Hz. symmetry in H. apply app_eq_nil in H. destruct H as [_ ->].
  cbn [app]. rewrite ldepth_stops; auto. lia.
Qed.

(** Tame texts are closed under taking pieces. *)
Lemma tame_infix M (x u c w : str) : tame M x -> x = u ++ c ++ w -> tame M c.
Proof.
  intros H -> u' v z -> Hz.
  etransitivity; [apply (ldepth_cut v (w ++ []) z Hz)|].
  rewrite app_nil_r. specialize (H (u ++ u') (v ++ w) [] ).
  rewrite app_nil_r in H. apply H; [|exact I].
  rewrite <- !app_assoc. reflexivity.
Qed.

Lemma tame_lit M (x : str) : Forall (fun c => N.eqb c 38 = false) x -> tame M x.
Proof.
  intros H u v z -> Hz. apply Forall_app in H. destruct H as [_ H].
  etransitivity; [apply ldepth_lit; exact H|]. rewrite ldepth_stops; auto. lia.
Qed.

(** A tame text before a text that starts with a barrier. *)
Lemma tame_app_stop M (x y : str) : tame M x -> tame M y -> stops y -> tame M (x ++ y).
Proof.
  intros Hx Hy Hs u v z E Hz. apply app_eq_app in E. destruct E as (l & [[-> ->]|[-> ->]]).
  - rewrite <- app_assoc. apply (Hx u l (y ++ z)); auto. apply stops_app; auto.
  - apply (Hy l v z); auto.
Qed.

(** A text without ampersand before a tame text. *)
Lemma tame_app_lit M (x y : str) : Forall (fun c => N.eqb c 38 = false) x ->
  tame M y -> tame M (x ++ y).
Proof.
  intros Hx Hy u v z E Hz. apply app_eq_app in E. destruct E as (l & [[-> ->]|[-> ->]]).
  - apply Forall_app in Hx. destruct Hx as [_ Hl].
    rewrite <- app_assoc. etransitivity; [apply ldepth_lit; exact Hl|].
    apply (Hy [] y z); auto.
  - apply (Hy l v z); auto.
Qed.

Lemma ends_snoc (x : str) : ends x -> x = [] \/ exists x' h, x = x' ++ [h] /\ barrier h = true.
Proof.
  unfold ends. destruct (rev x) as [|h r] eqn:E.
  - left. apply (f_equal (@rev char)) in E. rewrite rev_involutive in E. exact E.
  - right. exists (rev r), h. split; auto.
    apply (f_equal (@rev char)) in E. rewrite rev_involutive in E. exact E.
Qed.

Lemma ends_app (x y : str) : ends y -> y <> [] -> ends (x ++ y).
Proof.
  unfold ends. rewrite rev_app_distr. intros H Hne.
  destruct (rev y) as [|h r] eqn:E; [|exact H].
  apply (f_equal (@rev char)) in E. rewrite rev_involutive in E. contradiction.
Qed.

(** After a barrier, what follows does not count. *)
Lemma ldepth_ends (v w : str) : ends v -> v <> [] -> ldepth (v ++ w) = ldepth v.
Proof.
  intros He Hne. destruct (ends_snoc v He) as [->|(v' & h & -> & Hh)]; [contradiction|].
  rewrite <- app_assoc. cbn [app]. apply (ldepth_cut_eq v' [h] (h :: w)); exact Hh.
Qed.

Lemma ends_suffix (u v : str) : ends (u ++ v) -> v <> [] -> ends v.
Proof.
  unfold ends. rewrite rev_app_distr. intros H Hne.
  destruct (rev v) as [|h r] eqn:E; [exact I|exact H].
Qed.

(** A tame text that ends with a barrier before a tame text. *)
Lemma tame_app_end M (x y : str) : tame M x -> tame M y -> ends x -> tame M (x ++ y).
Proof.
  intros Hx Hy He u v z E Hz. apply app_eq_app in E. destruct E as (l & [[-> ->]|[-> ->]]).
  - destruct l as [|c l].
    + apply (Hy [] y z); auto.
    + rewrite <- app_assoc. rewrite ldepth_ends.
      * specialize (Hx u (c :: l) [] eq_refl I). rewrite app_nil_r in Hx. exact Hx.
      * apply (ends_suffix u). exact He. discriminate.
      * discriminate.
  - apply (Hy l v z); auto.
Qed.

Lemma tame_le M N x : M <= N -> tame M x -> tame N x.
Proof. intros H Hx u v z E Hz. specialize (Hx u v z E Hz). lia. Qed.

(** On a line without terminators the two depths agree. *)
Lemma ldepth_qdepth (s : str) : term_free s -> ldepth s = qdepth s.
Proof.
  assert (H : forall n (s : str), length s <= n -> term_free s -> ldepth s = qdepth s).
  { induction n as [|n IH]; intros t Hl Ht.
    - destruct t; [reflexivity|simpl in Hl; lia].
    - destruct t as [|c t]; [reflexivity|]. inversion Ht as [|? ? Hc Ht']; subst.
      cbn [ldepth qdepth]. unfold is_iws. rewrite Hc, andb_true_r.
      simpl in Hl. destruct (is_ws c); [apply IH; auto; lia|].
      destruct t as [|c2 [|c3 [|c4 t]]]; auto.
      destruct (N.eqb c 38 && N.eqb c2 103 && N.eqb c3 116 && N.eqb c4 59)%bool; auto.
      f_equal. apply IH; [simpl in Hl; lia|].
      inversion Ht' as [|? ? _ H2]; subst. inversion H2 as [|? ? _ H3]; subst.
      inversion H3; auto. }
  apply (H (length s)). lia.
Qed.

(** ** Captures are pieces of the input *)

Section Pieces.
Variable G : str -> Prop.
Variable s : str.
Hypothesis G_piece : forall u c w, s = u ++ c ++ w -> G c.

Lemma between_piece fwd x y : inp x = s -> inp y = s -> G (between fwd x y).
Proof.
  unfold inp, between. intros Hx Hy. destruct fwd.
  - apply (G_piece (rev (bef x)) _ (skipn (length (aft x) - length (aft y)) (aft x))).
    rewrite firstn_skipn. auto.
  - apply (G_piece (rev (bef y)) _ (skipn (length (aft y) - length (aft x)) (aft y))).
    rewrite firstn_skipn. auto.
Qed.

Lemma sem_pieces ml r : forall fwd x y, sem ml r fwd x y -> inp x = s ->
  Forall (fun kv => G (snd kv)) (caps x) -> Forall (fun kv => G (snd kv)) (caps y).
Proof.
  induction r as [|c|r1 IH1 r2 IH2|r1 IH1 r2 IH2|g mn mx r1 IH|n r1 IH| | |ah ps r1 IH];
    intros fwd x y H Hx Hc; cbn [sem] in H.
  - subst. auto.
  - apply step_char_inp in H. destruct H as [_ ->]. auto.
  - destruct fwd; destruct H as (z & H1 & H2).
    + eapply IH2; [exact H2| |eapply IH1; eauto].
      rewrite (sem_inp _ _ _ _ _ H1). exact Hx.
    + eapply IH1; [exact H2| |eapply IH2; eauto].
      rewrite (sem_inp _ _ _ _ _ H1). exact Hx.
  - destruct H; eauto.
  - destruct H as (n & _ & _ & H).
    assert (Hinv : inp y = s /\ Forall (fun kv => G (snd kv)) (caps y)); [|tauto].
    revert H. apply (iterN_ind_inv (fun z => inp z = s /\ Forall (fun kv => G (snd kv)) (caps z)));
      auto.
    intros a b [Ha1 Ha2] Hab. split.
    + rewrite (sem_inp _ _ _ _ _ Hab). exact Ha1.
    + eapply IH; [exact Hab|exact Ha1|]. cbn [clear_groups caps].
      apply cap_clear_all. exact Ha2.
  - destruct H as (z & H & ->). cbn [set_cap caps]. constructor.
    + cbn [snd]. apply between_piece; auto. rewrite (sem_inp _ _ _ _ _ H). exact Hx.
    + eapply IH; eauto.
  - destruct H as [_ ->]. auto.
  - destruct H as [_ ->]. auto.
  - destruct ps.
    + destruct H as (z & H & ->). cbn [caps]. eapply IH; eauto.
    + destruct H as [-> _]. auto.
Qed.

Lemma exec_at_pieces ml r b a y : wf r = true -> rev b ++ a = s ->
  exec_at ml r b a = Some y ->
  G (matched (MState b a []) y) /\ forall n, G [] -> G (cap n y).
Proof.
  intros Hwf Hs He. apply exec_at_sound in He; auto. split.
  - apply between_piece; [exact Hs|]. rewrite (sem_inp _ _ _ _ _ He). exact Hs.
  - intros n Hnil.
    pose proof (sem_pieces _ _ _ _ _ He Hs (Forall_nil _)) as Hc.
    unfold cap. induction Hc as [|[k v] cs Hv Hcs IH]; cbn [cap_get]; auto.
    destruct (Nat.eqb k n); auto.
Qed.
End Pieces.

(** ** A global replace keeps a text tame *)

Lemma max_ldepth_app M (y : str) : max_ldepth y <= M -> forall x : str,
  (forall u v, x = u ++ v -> v <> [] -> ldepth (v ++ y) <= M) ->
  max_ldepth (x ++ y) <= M.
Proof.
  intros Hy. induction x as [|c x IH]; intros H; cbn [app]; [exact Hy|].
  cbn [max_ldepth]. apply Nat.max_lub.
  - apply (H [] (c :: x)); [reflexivity|discriminate].
  - apply IH. intros u v -> Hv. apply (H (c :: u) v); auto.
Qed.

Lemma rp_suffix_le M (rp y : str) : tame M rp -> ends rp ->
  forall u v, rp = u ++ v -> v <> [] -> ldepth (v ++ y) <= M.
Proof.
  intros Ht He u v -> Hv. rewrite ldepth_ends; auto.
  - specialize (Ht u v [] eq_refl I). rewrite app_nil_r in Ht. exact Ht.
  - apply (ends_suffix u); auto.
Qed.

Section GsubTame.
Variable St : Type.
Variable ml : bool.
Variable r : regex.
Variable f : St -> mstate -> mstate -> str * St.
Variable s : str.
Variable M : nat.
Hypothesis s_tame : tame M s.
Hypothesis f_ok : forall st b a y, rev b ++ a = s -> exec_at ml r b a = Some y ->
  rp_ok M b a (fst (f st (MState b a []) y)).

Lemma ctx_le (b a pre b' : str) : rev b ++ a = s -> b = rev pre ++ b' ->
  ldepth (pre ++ a) <= M.
Proof.
  intros Hs ->. rewrite rev_app_distr, rev_involutive, <- app_assoc in Hs.
  specialize (s_tame (rev b') (pre ++ a) [] (eq_sym Hs) I).
  rewrite app_nil_r in s_tame. exact s_tame.
Qed.

Lemma ctx_cut (b a pre b' z : str) : rev b ++ a = s -> b = rev pre ++ b' ->
  stops z -> ldepth (pre ++ z) <= M.
Proof.
  intros Hs Hb Hz. etransitivity; [apply (ldepth_cut pre a z Hz)|].
  eapply ctx_le; eauto.
Qed.

(** The replacement of a match and what follows it, seen from before
    the match. *)
Lemma rp_head_le (b a pre b' rp out : str) : rev b ++ a = s -> b = rev pre ++ b' ->
  rp <> [] -> head_fine a rp -> ldepth (pre ++ rp ++ out) <= M.
Proof.
  intros Hs Hb Hne [(h & z & -> & Hh)|(c & a' & h & z & -> & -> & Hh)].
  - apply (ctx_cut b a pre b'); auto.
  - cbn [app]. change (pre ++ c :: h :: z ++ out) with (pre ++ [c] ++ h :: z ++ out).
    rewrite app_assoc.
    etransitivity; [apply (ldepth_cut (pre ++ [c]) a' (h :: z ++ out)); exact Hh|].
    rewrite <- app_assoc. eapply ctx_le; eauto.
Qed.

Lemma gsub_from_tame : forall a b skip st, rev b ++ a = s ->
  max_ldepth (fst (gsub_from ml r f b a skip st)) <= M /\
  (skip = 0 -> forall pre b', b = rev pre ++ b' ->
     ldepth (pre ++ fst (gsub_from ml r f b a skip st)) <= M).
Proof.
  assert (Hshift : forall b c (a : str), rev b ++ c :: a = s -> rev (c :: b) ++ a = s).
  { intros b c a H. simpl. rewrite <- app_assoc. exact H. }
  assert (Hsnoc : forall (b : str) c pre b', b = rev pre ++ b' ->
            c :: b = rev (pre ++ [c]) ++ b').
  { intros b c pre b' ->. rewrite rev_app_distr. reflexivity. }
  intros a0 b0 skip0 st0.
  apply (@gsub_from_ind St ml r f
    (fun b a skip st res => rev b ++ a = s ->
       max_ldepth (fst res) <= M /\
       (skip = 0 -> forall pre b', b = rev pre ++ b' -> ldepth (pre ++ fst res) <= M)));
    cbn [fst].
  - intros b k st Hs. split; [cbn; lia|discriminate].
  - intros b c a k st IH Hs. split; [apply IH; auto|discriminate].
  - intros b st He Hs. split; [cbn; lia|]. intros _ pre b' Hb.
    apply (ctx_le b [] pre b'); auto.
  - intros b c a st out st2 He Hg IH Hs. destruct (IH (Hshift _ _ _ Hs)) as [A B].
    assert (C : forall pre b', b = rev pre ++ b' -> ldepth (pre ++ c :: out) <= M).
    { intros pre b' Hb. specialize (B eq_refl (pre ++ [c]) b' (Hsnoc _ _ _ _ Hb)).
      rewrite <- app_assoc in B. exact B. }
    split; [|intros _; exact C]. cbn [max_ldepth]. apply Nat.max_lub; auto.
    apply (C [] b). reflexivity.
  - intros b st y rp st1 He Hrp Hs.
    pose proof (f_ok st b [] y Hs He) as Hok. rewrite Hrp in Hok. cbn [fst] in Hok.
    destruct Hok as [Ht Hok]. split; [apply max_ldepth_tame; exact Ht|].
    intros _ pre b' Hb. destruct rp as [|h rp'].
    + apply (ctx_le b [] pre b'); auto.
    + destruct Hok as [[Hnil _]|[_ Hh]]; [discriminate|].
      rewrite <- (app_nil_r (h :: rp')). apply (rp_head_le b [] pre b'); auto.
      discriminate.
  - intros b c a st y rp st1 out st2 He Hrp Hl Hg IH Hs.
    destruct (IH (Hshift _ _ _ Hs)) as [A B].
    pose proof (f_ok st b (c :: a) y Hs He) as Hok. rewrite Hrp in Hok. cbn [fst] in Hok.
    destruct Hok as [Ht Hok].
    assert (C : forall pre b', b = rev pre ++ b' -> ldepth (pre ++ c :: out) <= M).
    { intros pre b' Hb. specialize (B eq_refl (pre ++ [c]) b' (Hsnoc _ _ _ _ Hb)).
      rewrite <- app_assoc in B. exact B. }
    assert (D : max_ldepth (c :: out) <= M).
    { cbn [max_ldepth]. apply Nat.max_lub; auto. apply (C [] b). reflexivity. }
    destruct rp as [|h rp'].
    + cbn [app]. split; [exact D|intros _; exact C].
    + destruct Hok as [[Hnil _]|[He' Hh]]; [discriminate|]. split.
      * apply max_ldepth_app; auto. apply rp_suffix_le; auto.
      * intros _ pre b' Hb. apply (rp_head_le b (c :: a) pre b'); auto. discriminate.
  - intros b c a st y rp st1 l out st2 He Hrp Hl Hg IH Hs.
    destruct (IH (Hshift _ _ _ Hs)) as [A _].
    pose proof (f_ok st b (c :: a) y Hs He) as Hok. rewrite Hrp in Hok. cbn [fst] in Hok.
    destruct Hok as [Ht Hok].
    destruct rp as [|h rp'].
    + cbn [app]. split; [exact A|]. intros _ pre b' Hb.
      destruct Hok as [[_ Hb0]|[_ Hh]].
      * destruct (rev pre) as [|h0 p0] eqn:Hp.
        -- apply (f_equal (@rev char)) in Hp. rewrite rev_involutive in Hp. cbn in Hp.
           subst pre. cbn [app]. etransitivity; [apply ldepth_le_max|exact A].
        -- cbn [app] in Hb. subst b.
           assert (Hpre : pre = rev p0 ++ [h0]).
           { apply (f_equal (@rev char)) in Hp. rewrite rev_involutive in Hp. exact Hp. }
           rewrite Hpre, <- app_assoc. cbn [app].
           etransitivity;
             [apply (ldepth_cut (rev p0) (h0 :: c :: a) (h0 :: out)); exact Hb0|].
           change (rev p0 ++ h0 :: c :: a) with (rev p0 ++ [h0] ++ c :: a).
           rewrite app_assoc, <- Hpre.
           apply (ctx_le (h0 :: p0 ++ b') (c :: a) pre b'); auto.
           rewrite Hp. reflexivity.
      * destruct Hh as [(h' & z & E & _)|(c' & a' & h' & z & _ & E & _)]; discriminate.
    + destruct Hok as [[Hnil _]|[He' Hh]]; [discriminate|]. split.
      * apply max_ldepth_app; auto. apply rp_suffix_le; auto.
      * intros _ pre b' Hb. apply (rp_head_le b (c :: a) pre b'); auto. discriminate.
Qed.

Lemma gsubS_tame st : tame M (fst (gsubS ml r f s st)).
Proof.
  apply max_ldepth_tame. unfold gsubS. apply (gsub_from_tame s [] 0 st). reflexivity.
Qed.
End GsubTame.

(** ** Replacement templates *)

Lemma no_amp_b (l : str) : forallb (fun c => negb (N.eqb c 38)) l = true ->
  Forall (fun c => N.eqb c 38 = false) l.
Proof.
  rewrite forallb_forall. intros H. apply Forall_forall. intros c Hc.
  apply negb_true_iff. auto.
Qed.

Ltac lit_closed := apply no_amp_b; vm_compute; reflexivity.

Lemma getSubstitution_lit mt before after ncaps cs (c : char) (t1 : str) :
  N.eqb c 36 = false ->
  getSubstitution mt before after ncaps cs (c :: t1)
  = c :: getSubstitution mt before after ncaps cs t1.
Proof. intros H. cbn [getSubstitution]. rewrite H. reflexivity. Qed.

Lemma digit_not_special d : is_digit d = true ->
  N.eqb d 36 = false /\ N.eqb d 96 = false /\ N.eqb d 38 = false /\ N.eqb d 39 = false.
Proof.
  unfold is_digit, in_range. intros H. apply andb_prop in H. destruct H as [H1 H2].
  apply N.leb_le in H1, H2. repeat split; apply N.eqb_neq; lia.
Qed.

Lemma getSubstitution_group mt before after ncaps cs (d : char) (t2 : str) :
  is_digit d = true ->
  Nat.leb 1 (N.to_nat (d - 48)) = true -> Nat.leb (N.to_nat (d - 48)) ncaps = true ->
  match t2 with e :: _ => is_digit e = false | [] => True end ->
  getSubstitution mt before after ncaps cs (36%N :: d :: t2)
  = match cap_get (N.to_nat (d - 48)) cs with Some v => v | None => [] end
    ++ getSubstitution mt before after ncaps cs t2.
Proof.
  intros Hd H1 H2 He. destruct (digit_not_special d Hd) as (A & B & C & D).
  cbn [getSubstitution]. cbn [N.eqb negb]. rewrite A, B, C, D, Hd, H1, H2. cbn [andb].
  destruct t2 as [|e t3]; [reflexivity|]. rewrite He. reflexivity.
Qed.

Lemma ends_cons c (x : str) : ends x -> x <> [] -> ends (c :: x).
Proof. intros H Hne. apply (ends_app [c] x); auto. Qed.

Section Template.
Variable M : nat.
Variables mt before after : str.
Variable ncaps : nat.
Variable cs : list (nat * str).
Hypothesis caps_tame : forall n, tame M (match cap_get n cs with Some v => v | None => [] end).

Lemma getSubstitution_tmpl : forall k (t : str), length t <= k -> tmpl_ok ncaps t = true ->
  tame M (getSubstitution mt before after ncaps cs t)
  /\ (t <> [] -> getSubstitution mt before after ncaps cs t <> [])
  /\ (ends t -> ends (getSubstitution mt before after ncaps cs t)).
Proof.
  induction k as [|k IH]; intros t Hlen Hok.
  - destruct t; [|simpl in Hlen; lia]. repeat split; auto. apply tame_nil.
  - destruct t as [|c t1]; [repeat split; auto; apply tame_nil|].
    cbn [tmpl_ok] in Hok. destruct (N.eqb c 36) eqn:E.
    + apply N.eqb_eq in E. subst c.
      destruct t1 as [|d t2]; [discriminate|].
      apply andb_prop in Hok. destruct Hok as [Hok Hrec].
      apply andb_prop in Hok. destruct Hok as [Hok He].
      apply andb_prop in Hok. destruct Hok as [Hok H2].
      apply andb_prop in Hok. destruct Hok as [Hd H1].
      destruct t2 as [|e t3]; [discriminate|].
      apply andb_prop in He. destruct He as [He He3].
      apply andb_prop in He. destruct He as [He1 He2].
      apply negb_true_iff in He2, He3.
      rewrite getSubstitution_group; auto.
      destruct (IH (e :: t3)) as (A & B & C); auto; [simpl in *; lia|].
      pose proof (getSubstitution_lit mt before after ncaps cs e t3 He2) as Eq.
      rewrite Eq in A, B, C. rewrite Eq.
      repeat split.
      * apply tame_app_stop; auto.
      * intros _ H. apply app_eq_nil in H. destruct H as [_ H]. discriminate.
      * intros Hends. apply ends_app; [|discriminate]. apply C.
        apply (ends_suffix [36%N; d]); [exact Hends|discriminate].
    + apply andb_prop in Hok. destruct Hok as [Hc Hrec]. apply negb_true_iff in Hc.
      rewrite getSubstitution_lit by exact E.
      destruct (IH t1) as (A & B & C); auto; [simpl in *; lia|].
      repeat split.
      * apply (tame_app_lit M [c]); auto.
      * discriminate.
      * intros Hends. destruct t1 as [|c1 t1'].
        -- exact Hends.
        -- apply ends_cons; [|apply B; discriminate].
           apply C. apply (ends_suffix [c]); [exact Hends|discriminate].
Qed.
End Template.

Lemma tame_cap M (s : str) b a ml r y n : tame M s -> wf r = true -> rev b ++ a = s ->
  exec_at ml r b a = Some y -> tame M (cap n y).
Proof.
  intros Hs Hwf Hba He.
  apply (exec_at_pieces (tame M) s (fun u c w E => tame_infix M s u c w Hs E)
           ml r b a y Hwf Hba He).
  apply tame_nil.
Qed.

Lemma tame_matched M (s : str) b a ml r y : tame M s -> wf r = true -> rev b ++ a = s ->
  exec_at ml r b a = Some y -> tame M (matched (MState b a []) y).
Proof.
  intros Hs Hwf Hba He.
  apply (exec_at_pieces (tame M) s (fun u c w E => tame_infix M s u c w Hs E)
           ml r b a y Hwf Hba He).
Qed.

(** A template whose captures are each followed by a barrier, headed and
    ended by barriers, keeps a text tame. *)
Lemma template_rp_ok M (s : str) ml r ncaps t b a y :
  tame M s -> wf r = true -> rev b ++ a = s -> exec_at ml r b a = Some y ->
  tmpl_ok ncaps t = true -> ends t -> t <> [] ->
  head_fine a (template ncaps t (MState b a []) y) ->
  rp_ok M b a (template ncaps t (MState b a []) y).
Proof.
  intros Hs Hwf Hba He Hok Hends Hne Hh. unfold template in *.
  destruct (getSubstitution_tmpl M (matched (MState b a []) y) (rev (bef (MState b a [])))
              (aft y) ncaps (caps y)) with (k := length t) (t := t) as (A & B & C); auto.
  - intros n. apply (tame_cap M s b a ml r y n); auto.
  - split; [exact A|]. right. split; auto.
Qed.

Lemma template_head_lt ncaps t x y : exists z,
  template ncaps (LT :: t) x y = LT :: z.
Proof. unfold template. rewrite getSubstitution_lit by reflexivity. eauto. Qed.

Lemma gsubT_tame M ml r ncaps t (s : str) : wf r = true ->
  tmpl_ok ncaps (LT :: t) = true -> ends (LT :: t) ->
  tame M s -> tame M (gsubT ml r ncaps (LT :: t) s).
Proof.
  intros Hwf Hok Hends Hs. unfold gsubT, gsub.
  apply (gsubS_tame unit ml r _ s M Hs). intros st b a y Hba He. cbn [fst].
  apply (template_rp_ok M s ml r); auto; [discriminate|].
  left. destruct (template_head_lt ncaps t (MState b a []) y) as [z ->].
  exists LT, z. split; reflexivity.
Qed.

(** ** Escaped characters and code *)

Lemma uint_digits_no_amp u : Forall (fun c => N.eqb c 38 = false) (uint_digits u).
Proof. induction u; simpl; constructor; auto. Qed.

Lemma num_to_str_no_amp n : Forall (fun c => N.eqb c 38 = false) (num_to_str n).
Proof. apply uint_digits_no_amp. Qed.

Lemma placeholder_shape M (p : str) n : Forall (fun c => N.eqb c 38 = false) p ->
  tame M ((LT :: p) ++ num_to_str n ++ js "-->")
  /\ ends ((LT :: p) ++ num_to_str n ++ js "-->").
Proof.
  intros Hp. split.
  - apply tame_lit. apply Forall_app. split; [constructor; auto|].
    apply Forall_app. split; [apply num_to_str_no_amp|lit_closed].
  - rewrite app_assoc. apply ends_app; [reflexivity|discriminate].
Qed.

Lemma placeholder_rp_ok M b a (p : str) n : Forall (fun c => N.eqb c 38 = false) p ->
  rp_ok M b a ((LT :: p) ++ num_to_str n ++ js "-->").
Proof.
  intros Hp. destruct (placeholder_shape M p n Hp) as [Ht He].
  split; [exact Ht|]. right. split; [exact He|]. left.
  exists LT, (p ++ num_to_str n ++ js "-->"). split; reflexivity.
Qed.

Lemma escapePass_tame M (s : str) t : tame M s -> tame M (fst (escapePass s t)).
Proof.
  intros Hs. unfold escapePass.
  apply (gsubS_tame tables false re_escape escape_cb s M Hs).
  intros st b a y _ _. cbn [escape_cb fst].
  change (js "<!--escaped_") with (LT :: js "!--escaped_").
  apply placeholder_rp_ok. lit_closed.
Qed.

(** A step of the tokenizer copies one code unit or emits a placeholder. *)
Lemma backtick_step_piece src t :
  exists piece used t', backtick_step src t = Ok (piece, used, t') /\
    match src with
    | c :: _ =>
        (piece = [c] /\ used = 1)
        \/ exists (p : str) n, piece = (LT :: p) ++ num_to_str n ++ js "-->" /\
             Forall (fun c => N.eqb c 38 = false) p
    | [] => piece = []
    end.
Proof.
  unfold backtick_step.
  destruct (starts_with fence src) eqn:Hf.
  - destruct (lang_scan (skipn 3 src)) as [lang s1].
    destruct (find_sub fence [] (skip_char NL (skip_char CR s1))) as [[before after]|];
      match goal with |- context [code_block_html ?t ?l ?c] =>
        destruct (code_block_html_total t l c) as [html ->] end;
      cbn [bind]; do 3 eexists; (split; [reflexivity|]);
      (destruct src; [discriminate|]); right;
      change (js "<!--codeblock_") with (LT :: js "!--codeblock_");
      do 2 eexists; (split; [reflexivity|lit_closed]).
  - assert (Hin : forall (code : str) (used : nat),
      exists (piece : str) (used' : nat) (t' : tables),
        @Ok (str * nat * tables) (js "<!--inlinecode_" ++ num_to_str (inlineIndex t) ++ js "-->", used,
            Tables (codeBlocks t)
              (inlineCodeBlocks t ++
                 [(js "<!--inlinecode_" ++ num_to_str (inlineIndex t) ++ js "-->", code)])
              (escapePlaceholders t) (codeIndex t) (S (inlineIndex t)) (escapeIndex t))
        = Ok (piece, used', t') /\
        exists (p : str) n, piece = (LT :: p) ++ num_to_str n ++ js "-->" /\
          Forall (fun c => N.eqb c 38 = false) p).
    { intros code used. do 3 eexists. split; [reflexivity|].
      change (js "<!--inlinecode_") with (LT :: js "!--inlinecode_").
      do 2 eexists. split; [reflexivity|lit_closed]. }
    destruct (starts_with [BT; BT] src) eqn:H2.
    + destruct src as [|c src']; [discriminate|].
      destruct (find_sub [BT; BT] [] (skipn 2 (c :: src'))) as [[before after]|];
        match goal with |- context [Ok (_, ?u, Tables _ (_ ++ [(_, ?cd)]) _ _ _ _)] =>
          destruct (Hin cd u) as (piece & used' & t' & E & Z) end;
        exists piece, used', t'; auto.
    + destruct src as [|c src'].
      * do 3 eexists. split; reflexivity.
      * destruct (N.eqb c BT).
        -- destruct (find_sub [BT] [] src') as [[before after]|];
             match goal with |- context [Ok (_, ?u, Tables _ (_ ++ [(_, ?cd)]) _ _ _ _)] =>
               destruct (Hin cd u) as (piece & used' & t' & E & Z) end;
             exists piece, used', t'; auto.
        -- do 3 eexists. split; [reflexivity|]. left. auto.
Qed.

Lemma parseBackticks_from_tame M (s : str) : tame M s ->
  forall src b skip t out t', rev b ++ src = s ->
  parseBackticks_from src skip t = Ok (out, t') ->
  max_ldepth out <= M /\
  (skip = 0 -> forall pre b', b = rev pre ++ b' -> ldepth (pre ++ out) <= M).
Proof.
  intros Hs.
  assert (Hshift : forall b c (a : str), rev b ++ c :: a = s -> rev (c :: b) ++ a = s).
  { intros b c a H. simpl. rewrite <- app_assoc. exact H. }
  assert (Hsnoc : forall (b : str) c pre b', b = rev pre ++ b' ->
            c :: b = rev (pre ++ [c]) ++ b').
  { intros b c pre b' ->. rewrite rev_app_distr. reflexivity. }
  induction src as [|c rest IH]; intros b skip t out t' Hba Hp.
  - cbn [parseBackticks_from] in Hp. injection Hp as <- <-.
    split; [cbn; lia|]. intros _ pre b' Hb. apply (ctx_le s M Hs b [] pre b'); auto.
  - cbn [parseBackticks_from] in Hp. destruct skip as [|k].
    + destruct (backtick_step_piece (c :: rest) t) as (piece & used & t1 & E & Hpiece).
      rewrite E in Hp. cbn [bind] in Hp.
      destruct (parseBackticks_from rest (pred used) t1) as [[out1 t2]| |] eqn:E1;
        cbn [bind] in Hp; try discriminate.
      injection Hp as <- <-.
      destruct (IH _ _ _ _ _ (Hshift _ _ _ Hba) E1) as [A B].
      destruct Hpiece as [[-> ->]|(p & n & -> & Hp)].
      * cbn [pred] in B.
        assert (C : forall pre b', b = rev pre ++ b' -> ldepth (pre ++ c :: out1) <= M).
        { intros pre b' Hb. specialize (B eq_refl (pre ++ [c]) b' (Hsnoc _ _ _ _ Hb)).
          rewrite <- app_assoc in B. exact B. }
        split; [|intros _; exact C]. cbn [app max_ldepth]. apply Nat.max_lub; auto.
        apply (C [] b). reflexivity.
      * destruct (placeholder_shape M p n Hp) as [Ht He]. split.
        -- apply max_ldepth_app; auto. apply rp_suffix_le; auto.
        -- intros _ pre b' Hb. apply (ctx_cut s M Hs b (c :: rest) pre b'); auto.
           reflexivity.
    + split; [|discriminate]. apply (IH _ _ _ _ _ (Hshift _ _ _ Hba) Hp).
Qed.

Lemma parseBackticks_tame M (s : str) t out t' : tame M s ->
  parseBackticks s t = Ok (out, t') -> tame M out.
Proof.
  intros Hs Hp. apply max_ldepth_tame.
  apply (parseBackticks_from_tame M s Hs s [] 0 t out t' eq_refl Hp).
Qed.

(** ** Lines *)

Lemma barrier_term c : is_term c = true -> barrier c = true.
Proof.
  unfold is_term. intros H.
  repeat (apply orb_prop in H; destruct H as [H|H]); apply N.eqb_eq in H; subst c;
    reflexivity.
Qed.

Lemma at_bol_barrier ml b a cs : at_bol ml (MState b a cs) = true ->
  match b with [] => True | h :: _ => barrier h = true end.
Proof.
  unfold at_bol. cbn [bef]. destruct b as [|h b']; [auto|].
  intros H. apply andb_prop in H. apply barrier_term. apply H.
Qed.

Lemma tame_join_NL M (ls : list str) : Forall (tame M) ls -> tame M (join [NL] ls).
Proof.
  induction 1 as [|l ls Hl Hls IH]; [apply tame_nil|].
  destruct ls as [|l' ls']; [exact Hl|]. rewrite join_cons2.
  apply tame_app_stop; [exact Hl| |reflexivity].
  apply (tame_app_lit M [NL]); [lit_closed|exact IH].
Qed.

Lemma tame_lines M (s : str) : tame M s -> Forall (tame M) (split_on NL s).
Proof.
  intros Hs. eapply Forall_impl; [|apply split_on_infix].
  intros l (u & v & E). apply (tame_infix M s u l v Hs E).
Qed.

Lemma tame_suffix M (u v : str) : tame M (u ++ v) -> tame M v.
Proof.
  intros H. apply (tame_infix M (u ++ v) u v []); auto. rewrite app_nil_r. reflexivity.
Qed.

Lemma tame_prefix M (u v : str) : tame M (u ++ v) -> tame M u.
Proof. intros H. apply (tame_infix M (u ++ v) [] u v); auto. Qed.

(** The first match of a pattern anchored at the start of the text, when
    it is replaced by nothing, leaves a suffix of the text. *)
Lemma replace_first_bol_suffix r (line : str) : wf r = true ->
  exists u, line = u ++ replace_first false (Seq Bol r) (fun _ _ => []) line.
Proof.
  intros Hwf. unfold replace_first.
  destruct (search false (Seq Bol r) [] line) as [[x y]|] eqn:H; [|exists []; reflexivity].
  apply search_sound in H. destruct H as (pre & a' & -> & -> & He).
  apply exec_at_sound in He; [|exact Hwf].
  pose proof (sem_fwd _ _ _ _ He) as (mt & Ha & _). cbn [aft] in Ha.
  apply sem_Seq in He. destruct He as (z & Hb & _).
  apply sem_Bol in Hb. destruct Hb as [Hb _].
  apply at_bol_false in Hb. rewrite app_nil_r in Hb.
  assert (pre = []) by (destruct pre; auto; apply (f_equal (@length _)) in Hb;
    rewrite length_rev in Hb; discriminate).
  subst pre. cbn [rev app bef]. exists mt. exact Ha.
Qed.

Lemma trim_line_suffix (line : str) : exists u, line = u ++ trim_line line.
Proof.
  unfold trim_line. destruct (_ || _)%bool; [exists []; reflexivity|].
  apply (replace_first_bol_suffix (plus ws)). reflexivity.
Qed.

Lemma trimIndentation_tame M (s : str) : tame M s -> tame M (trimIndentation s).
Proof.
  intros Hs. unfold trimIndentation. apply tame_join_NL. apply Forall_map.
  eapply Forall_impl; [|apply (tame_lines M s Hs)].
  intros l Hl. destruct (trim_line_suffix l) as [u E]. rewrite E in Hl.
  apply (tame_suffix M u). exact Hl.
Qed.

(** ** Checkbox lists *)

Lemma tame_q M (s : str) : tame M s -> tame M (q s).
Proof.
  intros H. unfold q. apply (tame_app_lit M [DQ]); [lit_closed|].
  apply tame_app_stop; [exact H|apply tame_lit; lit_closed|reflexivity].
Qed.

Lemma ends_q (s : str) : ends (q s).
Proof.
  unfold q. apply (ends_app (DQ :: s) [DQ]); [reflexivity|discriminate].
Qed.

Lemma trim_infix (s : str) : exists u v, s = u ++ trim s ++ v.
Proof.
  unfold trim. destruct (dropWhile_suffix is_ws s) as [u Hu].
  destruct (trimEnd_prefix (trimStart s)) as [w Hw].
  exists u, w. unfold trimStart in *. rewrite <- Hw. exact Hu.
Qed.

Lemma checkbox_item_tame M (line : str) : tame M line ->
  tame M (checkbox_item line) /\ ends (checkbox_item line).
Proof.
  intros H. unfold checkbox_item. split.
  - apply tame_app_lit; [lit_closed|].
    apply tame_app_lit; [lit_closed|].
    apply tame_app_lit; [lit_closed|].
    apply tame_app_lit; [lit_closed|].
    apply tame_app_lit; [destruct (test _ _ _); lit_closed|].
    apply tame_app_lit; [lit_closed|].
    apply tame_app_stop; [|apply tame_lit; lit_closed|reflexivity].
    destruct (replace_first_bol_suffix
                (seqs [star sp; set (js "-+*"); sp; c1 (ch "["); set (js " xX");
                       c1 (ch "]"); sp]) line eq_refl) as [u E].
    apply (tame_suffix M u).
    change (tame M (u ++ replace_first false
      (Seq Bol (seqs [star sp; set (js "-+*"); sp; c1 (ch "["); set (js " xX");
                      c1 (ch "]"); sp])) (fun _ _ => []) line)).
    rewrite <- E. exact H.
  - rewrite !app_assoc. apply ends_app; [reflexivity|discriminate].
Qed.

Lemma tame_concat M (ls : list str) : Forall (fun l => tame M l /\ ends l) ls ->
  tame M (concat ls).
Proof.
  induction 1 as [|l ls [Hl He] Hls IH]; cbn [concat]; [apply tame_nil|].
  apply tame_app_end; auto.
Qed.

Lemma checkboxPass_tame M (s : str) : tame M s -> tame M (checkboxPass s).
Proof.
  intros Hs. unfold checkboxPass, gsub.
  apply (gsubS_tame unit true re_checkbox_block _ s M Hs).
  intros st b a y Hba He. cbn [fst]. unfold checkbox_cb. split; [|right; split].
  - apply tame_app_lit; [lit_closed|].
    apply tame_app_stop; [|apply tame_lit; lit_closed|reflexivity].
    apply tame_concat. apply Forall_map.
    pose proof (tame_matched M s b a true re_checkbox_block y Hs eq_refl Hba He) as Hm.
    destruct (trim_infix (matched (MState b a []) y)) as (u & v & E).
    pose proof (tame_infix M _ u _ v Hm E) as Ht.
    eapply Forall_impl; [|apply (tame_lines M _ Ht)].
    intros l Hl. apply checkbox_item_tame. exact Hl.
  - rewrite app_assoc. apply ends_app; [reflexivity|discriminate].
  - left. exists LT. eexists. split; reflexivity.
Qed.

(** ** Nested lists *)

Lemma ends_tail c (a : str) : ends (c :: a) -> ends a.
Proof.
  destruct a as [|d a]; [intros _; exact I|]. intros H.
  apply (ends_suffix [c]); [exact H|discriminate].
Qed.

(** A global replace whose replacements are not empty and end with a
    barrier keeps the end of the text. *)
Section GsubEnds.
Variable St : Type.
Variable ml : bool.
Variable r : regex.
Variable f : St -> mstate -> mstate -> str * St.
Variable s : str.
Hypothesis f_ends : forall st b a y, rev b ++ a = s -> exec_at ml r b a = Some y ->
  fst (f st (MState b a []) y) <> [] /\ ends (fst (f st (MState b a []) y)).

Lemma gsub_from_ends : forall a b skip st, rev b ++ a = s -> ends a ->
  ends (fst (gsub_from ml r f b a skip st)) /\
  (skip = 0 -> a <> [] -> fst (gsub_from ml r f b a skip st) <> []).
Proof.
  assert (Hshift : forall b c (a : str), rev b ++ c :: a = s -> rev (c :: b) ++ a = s).
  { intros b c a H. simpl. rewrite <- app_assoc. exact H. }
  assert (Hcons : forall c (a out : str), ends (c :: a) ->
            ends out /\ (a <> [] -> out <> []) -> ends (c :: out)).
  { intros c a out Hc [Ho Hne]. destruct out as [|d out'].
    - destruct a as [|d a']; [exact Hc|]. exfalso. apply Hne; [discriminate|reflexivity].
    - apply ends_cons; [exact Ho|discriminate]. }
  intros a0 b0 skip0 st0.
  apply (@gsub_from_ind St ml r f
    (fun b a skip st res => rev b ++ a = s -> ends a ->
       ends (fst res) /\ (skip = 0 -> a <> [] -> fst res <> [])));
    cbn [fst].
  - intros b k st _ _. split; [exact I|discriminate].
  - intros b c a k st IH Hs Ha. split; [|discriminate].
    apply IH; [auto|]. apply (ends_tail c). exact Ha.
  - intros b st _ _ _. split; [exact I|]. intros _ H. exfalso. apply H. reflexivity.
  - intros b c a st out st2 _ _ IH Hs Ha.
    destruct (IH (Hshift _ _ _ Hs) (ends_tail c a Ha)) as [A B].
    split; [|discriminate]. apply (Hcons c a); auto.
  - intros b st y rp st1 He Hrp Hs _.
    pose proof (f_ends st b [] y Hs He) as [Hne Hends]. rewrite Hrp in Hne, Hends.
    cbn [fst] in Hne, Hends. split; auto.
  - intros b c a st y rp st1 out st2 He Hrp _ _ IH Hs Ha.
    destruct (IH (Hshift _ _ _ Hs) (ends_tail c a Ha)) as [A B].
    split.
    + apply ends_app; [|discriminate]. apply (Hcons c a); auto.
    + intros _ _ H. apply app_eq_nil in H. destruct H as [_ H]. discriminate.
  - intros b c a st y rp st1 l out st2 He Hrp _ _ IH Hs Ha.
    destruct (IH (Hshift _ _ _ Hs) (ends_tail c a Ha)) as [A _].
    pose proof (f_ends st b (c :: a) y Hs He) as [Hne Hends]. rewrite Hrp in Hne, Hends.
    cbn [fst] in Hne, Hends. split.
    + destruct out as [|d out']; [rewrite app_nil_r; exact Hends|].
      apply ends_app; [exact A|discriminate].
    + intros _ _ H. apply app_eq_nil in H. destruct H as [H _]. auto.
Qed.
End GsubEnds.

Lemma close_tag_shape M ty :
  tame M (js "</li></" ++ type_name ty ++ js ">")
  /\ stops (js "</li></" ++ type_name ty ++ js ">")
  /\ ends (js "</li></" ++ type_name ty ++ js ">")
  /\ js "</li></" ++ type_name ty ++ js ">" <> [].
Proof.
  repeat split; try (destruct ty; (reflexivity || discriminate)).
  apply tame_lit. destruct ty; lit_closed.
Qed.

Lemma open_tag_shape M ty :
  tame M (js "<" ++ type_name ty ++ js "><li>")
  /\ stops (js "<" ++ type_name ty ++ js "><li>")
  /\ ends (js "<" ++ type_name ty ++ js "><li>")
  /\ js "<" ++ type_name ty ++ js "><li>" <> [].
Proof.
  repeat split; try (destruct ty; (reflexivity || discriminate)).
  apply tame_lit. destruct ty; lit_closed.
Qed.

Lemma pop_deeper_tame M ind : forall stack html, tame M html ->
  tame M (fst (pop_deeper ind html stack)).
Proof.
  induction stack as [|top below IH]; intros html H; cbn [pop_deeper]; auto.
  destruct (Nat.ltb ind (indent top)); auto.
  apply IH. destruct (close_tag_shape M (type top)) as (A & B & _).
  apply tame_app_stop; auto.
Qed.

Lemma pop_all_tame M : forall stack html, tame M html -> tame M (pop_all html stack).
Proof.
  induction stack as [|top below IH]; intros html H; cbn [pop_all]; auto.
  apply IH. destruct (close_tag_shape M (type top)) as (A & B & _).
  apply tame_app_stop; auto.
Qed.

Lemma pop_all_ends : forall stack html, ends html -> ends (pop_all html stack).
Proof.
  induction stack as [|top below IH]; intros html H; cbn [pop_all]; auto.
  apply IH. destruct (close_tag_shape 0 (type top)) as (_ & _ & C & D).
  apply ends_app; auto.
Qed.

Lemma index_span_shape M (marker : str) : tame M marker ->
  tame M (index_span marker) /\ ends (index_span marker).
Proof.
  intros H. unfold index_span. split.
  - apply tame_app_lit; [lit_closed|].
    apply tame_app_lit; [lit_closed|].
    apply tame_app_lit; [lit_closed|].
    apply tame_app_stop; [apply tame_q; exact H|apply tame_lit; lit_closed|reflexivity].
  - rewrite !app_assoc. apply ends_app; [reflexivity|discriminate].
Qed.

Lemma item_match_tame M (line : str) ind marker content : tame M line ->
  item_match line = Some (ind, marker, content) ->
  tame M marker /\ tame M content.
Proof.
  intros Hl. unfold item_match.
  destruct (search false re_item_dot [] line) as [[x y]|] eqn:H1.
  - intros E. inversion E; subst.
    apply search_sound in H1. destruct H1 as (pre & a' & -> & -> & He).
    split; apply (tame_cap M (pre ++ a') (rev pre ++ []) a' false re_item_dot); auto;
      rewrite app_nil_r, rev_involutive; reflexivity.
  - destruct (search false re_item_bullet [] line) as [[x y]|] eqn:H2; [|discriminate].
    intros E. inversion E; subst.
    apply search_sound in H2. destruct H2 as (pre & a' & -> & -> & He).
    split; apply (tame_cap M (pre ++ a') (rev pre ++ []) a' false re_item_bullet); auto;
      rewrite app_nil_r, rev_involutive; reflexivity.
Qed.

Lemma list_item_step_tame M ind marker content st :
  tame M marker -> tame M content -> tame M (fst st) ->
  tame M (fst (list_item_step ind marker content st))
  /\ snd (list_item_step ind marker content st) <> [].
Proof.
  intros Hm Hc Hs. unfold list_item_step.
  pose proof (pop_deeper_tame M ind (snd st) (fst st) Hs) as Hp.
  destruct (pop_deeper ind (fst st) (snd st)) as [html stack]. cbn [fst] in Hp.
  assert (Hopen : forall ty, tame M (html ++ js "<" ++ type_name ty ++ js "><li>")
                             /\ ends (html ++ js "<" ++ type_name ty ++ js "><li>")).
  { intros ty. destruct (open_tag_shape M ty) as (A & B & C & D). split.
    - exact (tame_app_stop M _ _ Hp A B).
    - exact (ends_app _ _ C D). }
  assert (Hsib : tame M (html ++ js "</li><li>") /\ ends (html ++ js "</li><li>")).
  { split.
    - apply tame_app_stop; [exact Hp|apply tame_lit; lit_closed|reflexivity].
    - apply ends_app; [reflexivity|discriminate]. }
  remember (test false re_all_digits marker) as dg eqn:Edg. clear Edg.
  assert (Hitem : tame M
    (if match (if dg then ol else ul) with ol => true | ul => false end
     then index_span marker ++ content else content)).
  { destruct dg; [|exact Hc].
    destruct (index_span_shape M marker Hm) as [A B].
    exact (tame_app_end M _ _ A Hc B). }
  destruct stack as [|top below]; [|destruct (Nat.ltb (indent top) ind)];
    cbv beta iota zeta; cbn [fst snd]; (split; [|discriminate]).
  - destruct (Hopen (if dg then ol else ul)) as [A B].
    exact (tame_app_end M _ _ A Hitem B).
  - destruct (Hopen (if dg then ol else ul)) as [A B].
    exact (tame_app_end M _ _ A Hitem B).
  - destruct Hsib as [A B]. exact (tame_app_end M _ _ A Hitem B).
Qed.

Lemma list_lines_tame M lines : forall st, Forall (tame M) lines ->
  tame M (fst st) -> (snd st = [] -> fst st = []) ->
  tame M (fst (fold_left list_line_step lines st))
  /\ (snd (fold_left list_line_step lines st) = [] ->
      fst (fold_left list_line_step lines st) = []).
Proof.
  induction lines as [|line lines IH]; intros st Hl Hs He; cbn [fold_left]; auto.
  inversion Hl; subst. unfold list_line_step at 2 4 6.
  destruct (item_match line) as [[[ind marker] content]|] eqn:Hi; [|apply IH; auto].
  destruct (item_match_tame M line ind marker content) as [A B]; auto.
  destruct (list_item_step_tame M ind marker content st A B Hs) as [C D].
  apply IH; auto. intros E. contradiction.
Qed.

Lemma gsub_nil ml r ncaps t : wf r = true ->
  gsubT ml r ncaps t [] = [] \/ gsubT ml r ncaps t [] = template ncaps t (MState [] [] [])
    (match exec_at ml r [] [] with Some y => y | None => MState [] [] [] end).
Proof.
  intros _. unfold gsubT, gsub, gsubS. cbn [gsub_from].
  destruct (exec_at ml r [] []); cbn [fst]; auto.
Qed.

Lemma list_block_html_tame M (block : str) : tame M block ->
  tame M (list_block_html block) /\ ends (list_block_html block).
Proof.
  intros H. unfold list_block_html.
  assert (Hlines : Forall (tame M) (split_on NL (trimEnd block))).
  { apply tame_lines. destruct (trimEnd_prefix block) as [w E].
    apply (tame_prefix M _ w). rewrite <- E. exact H. }
  pose proof (list_lines_tame M (split_on NL (trimEnd block)) ([], []) Hlines
                (tame_nil M) (fun _ => eq_refl)) as [Hf Hg].
  destruct (fold_left list_line_step _ _) as [html stack]. cbn [fst snd] in Hf, Hg.
  change (js "<li value=" ++ q (js "$1") ++ js ">")
    with (LT :: (js "li value=" ++ q (js "$1") ++ js ">")).
  assert (Hpop : tame M (pop_all html stack)) by (apply pop_all_tame; exact Hf).
  assert (Hpe : ends (pop_all html stack)).
  { destruct stack as [|top below].
    - rewrite Hg by reflexivity. exact I.
    - cbn [pop_all]. apply pop_all_ends.
      destruct (close_tag_shape 0 (type top)) as (_ & _ & C & D).
      apply ends_app; auto. }
  split.
  - apply gsubT_tame; [reflexivity|reflexivity|reflexivity|exact Hpop].
  - unfold gsubT, gsub, gsubS.
    apply (gsub_from_ends unit false re_index_span _ (pop_all html stack)); auto.
    intros st b a y Hba He. cbn [fst].
    pose proof (template_rp_ok M (pop_all html stack) false re_index_span 1
                  (LT :: (js "li value=" ++ q (js "$1") ++ js ">")) b a y
                  Hpop eq_refl Hba He eq_refl) as Hok.
    destruct (template_head_lt 1 (js "li value=" ++ q (js "$1") ++ js ">")
                (MState b a []) y) as [z Ez].
    rewrite Ez in *. split; [discriminate|].
    destruct Hok as [_ [[Hnil _]|[He' _]]]; auto; try discriminate.
    + reflexivity.
    + left. exists LT, z. split; reflexivity.
Qed.

Lemma list_block_bol b a y : exec_at true re_list_block b a = Some y ->
  at_bol true (MState b a []) = true.
Proof.
  intros He. apply exec_at_sound in He; [|reflexivity].
  unfold re_list_block, plus in He. cbn [sem] in He.
  destruct He as (z & (n & Hn & _ & Hit) & ->).
  destruct (iterN_first_last _ n _ _ Hn Hit) as [(z1 & H1) _].
  cbn [seqs sem] in H1. destruct H1 as (z0 & [Hbol _] & _). exact Hbol.
Qed.

Lemma listPass_tame M (s : str) : tame M s -> tame M (listPass s).
Proof.
  intros Hs. unfold listPass, gsub.
  apply (gsubS_tame unit true re_list_block _ s M Hs).
  intros st b a y Hba He. cbn [fst]. unfold list_cb.
  pose proof (tame_matched M s b a true re_list_block y Hs eq_refl Hba He) as Hm.
  destruct (list_block_html_tame M _ Hm) as [A B]. split; [exact A|].
  destruct (list_block_html_lt (matched (MState b a []) y)) as [E|[z E]].
  - left. split; [exact E|]. apply (at_bol_barrier true b a []).
    apply (list_block_bol b a y He).
  - right. split; [exact B|]. left. exists LT, z. split; [exact E|reflexivity].
Qed.

(** ** Inline patterns, images and links *)

Lemma pattern_tame_lt M p t : p_template p = LT :: t -> wf (p_re p) = true ->
  tmpl_ok (p_ncaps p) (LT :: t) = true -> ends (LT :: t) ->
  forall s : str, tame M s -> tame M (apply_pattern s p).
Proof.
  intros Ht Hwf Hok He s Hs. unfold apply_pattern. rewrite Ht.
  apply gsubT_tame; auto.
Qed.

Lemma pattern_tame_em M p rest t :
  p_template p = 36%N :: 49%N :: LT :: t ->
  p_re p = Seq (Grp 1 (Alt Bol nonword)) rest ->
  p_ml p = false -> p_ncaps p = 2 ->
  wf rest = true -> ~ In 1 (groups rest) ->
  tmpl_ok 2 (36%N :: 49%N :: LT :: t) = true -> ends (36%N :: 49%N :: LT :: t) ->
  forall s : str, tame M s -> tame M (apply_pattern s p).
Proof.
  intros Ht Hre Hml Hn Hwf Hg Hok He s Hs. unfold apply_pattern.
  rewrite Ht, Hre, Hml, Hn. unfold gsubT, gsub.
  apply (gsubS_tame unit false (Seq (Grp 1 (Alt Bol nonword)) rest) _ s M Hs).
  intros st b a y Hba Hex. cbn [fst].
  apply (template_rp_ok M s false (Seq (Grp 1 (Alt Bol nonword)) rest)); auto;
    [discriminate|].
  rewrite template_lead_group.
  destruct (lead_group_cap false rest b a y Hwf Hex Hg) as [->|(c & a' & -> & ->)].
  - left. exists LT. eexists. split; reflexivity.
  - right. exists c, a', LT. eexists. repeat split; reflexivity.
Qed.

Lemma tame_fold M ps : Forall (fun p => forall s : str, tame M s -> tame M (apply_pattern s p)) ps ->
  forall s : str, tame M s -> tame M (fold_left apply_pattern ps s).
Proof.
  induction 1 as [|p ps Hp Hps IH]; intros s Hs; cbn [fold_left]; auto.
Qed.

Lemma inlinePass_tame M (s : str) : tame M s -> tame M (inlinePass s).
Proof.
  apply tame_fold. unfold patterns.
  repeat (apply Forall_cons; [|]); [..|apply Forall_nil];
    first [ eapply pattern_tame_lt;
              [vm_compute; reflexivity|reflexivity|vm_compute; reflexivity
              |vm_compute; reflexivity]
          | eapply pattern_tame_em;
              [vm_compute; reflexivity|reflexivity|reflexivity|reflexivity
              |reflexivity|vm_compute; intuition discriminate
              |vm_compute; reflexivity|vm_compute; reflexivity] ].
Qed.

Lemma title_attr_tame M y : tame M (cap 3 y) ->
  tame M (title_attr y) /\ ends (title_attr y).
Proof.
  intros H. unfold title_attr. destruct (cap 3 y) as [|c title] eqn:E.
  - split; [apply tame_nil|exact I].
  - split.
    + apply tame_app_lit; [lit_closed|]. apply tame_q. exact H.
    + apply ends_app; [apply ends_q|discriminate].
Qed.

Lemma imagePass_tame M (s : str) : tame M s -> tame M (imagePass s).
Proof.
  intros Hs. unfold imagePass, gsub.
  apply (gsubS_tame unit false re_image _ s M Hs).
  intros st b a y Hba He. cbn [fst]. unfold image_cb.
  pose proof (tame_cap M s b a false re_image y 1 Hs eq_refl Hba He) as H1.
  pose proof (tame_cap M s b a false re_image y 2 Hs eq_refl Hba He) as H2.
  pose proof (tame_cap M s b a false re_image y 3 Hs eq_refl Hba He) as H3.
  destruct (title_attr_tame M y H3) as [T1 T2].
  split; [|right; split].
  - apply tame_app_lit; [lit_closed|].
    apply tame_app_end; [apply tame_q; exact H1| |apply ends_q].
    apply tame_app_lit; [lit_closed|].
    apply tame_app_end; [apply tame_q; exact H2| |apply ends_q].
    apply tame_app_end; [exact T1| |exact T2].
    apply tame_lit. lit_closed.
  - rewrite !app_assoc. apply ends_app; [reflexivity|discriminate].
  - left. exists LT. eexists. split; reflexivity.
Qed.

Lemma linkPass_tame M (s : str) : tame M s -> tame M (linkPass s).
Proof.
  intros Hs. unfold linkPass, gsub.
  apply (gsubS_tame unit false re_link _ s M Hs).
  intros st b a y Hba He. cbn [fst]. unfold link_cb.
  pose proof (tame_cap M s b a false re_link y 1 Hs eq_refl Hba He) as H1.
  pose proof (tame_cap M s b a false re_link y 2 Hs eq_refl Hba He) as H2.
  pose proof (tame_cap M s b a false re_link y 3 Hs eq_refl Hba He) as H3.
  destruct (title_attr_tame M y H3) as [T1 T2].
  split; [|right; split].
  - apply tame_app_lit; [lit_closed|].
    apply tame_app_end; [apply tame_q; exact H2| |apply ends_q].
    apply tame_app_end; [exact T1| |exact T2].
    apply tame_app_lit; [lit_closed|].
    apply tame_app_lit; [lit_closed|].
    apply tame_app_lit; [lit_closed|].
    apply tame_app_stop; [exact H1|apply tame_lit; lit_closed|reflexivity].
  - rewrite !app_assoc. apply ends_app; [reflexivity|discriminate].
  - left. exists LT. eexists. split; reflexivity.
Qed.

(** ** The buffer that reaches the blockquote pass *)

(** No pass before the blockquote pass lengthens a run of quote markers:
    the quote-nesting depth of the buffer is at most that of the input. *)
Lemma prepare_tame md b t : prepare md = Ok (b, t) -> max_ldepth b <= max_ldepth md.
Proof.
  intros Hp. apply max_ldepth_tame.
  assert (Hmd : tame (max_ldepth md) md) by (apply max_ldepth_tame; lia).
  revert Hp. unfold prepare.
  pose proof (escapePass_tame (max_ldepth md) md tables0 Hmd) as H1.
  destruct (escapePass md tables0) as [md1 t1]. cbn [fst] in H1.
  destruct (parseBackticks md1 t1) as [[md2 t2]| |] eqn:E2; cbn [bind]; try discriminate.
  intros Hp. injection Hp as <- <-.
  apply linkPass_tame, imagePass_tame, inlinePass_tame, listPass_tame,
    checkboxPass_tame, trimIndentation_tame.
  apply (parseBackticks_tame _ md1 t1 md2 t2 H1 E2).
Qed.

(** * Patterns that find nothing *)

Lemma inp_clear_groups gs x : inp (clear_groups gs x) = inp x.
Proof. reflexivity. Qed.

Lemma sem_foreign alpha ml r : forall fwd x y, foreign alpha r = true ->
  sem ml r fwd x y -> written_in alpha (inp x) -> False.
Proof.
  induction r as [|c|r1 IH1 r2 IH2|r1 IH1 r2 IH2|g mn mx r1 IH|n r1 IH| | |ah ps r1 IH];
    intros fwd x y Hf H Hx; cbn [foreign] in Hf; try discriminate; cbn [sem] in H.
  - assert (Hd : exists d, cmatch c d = true /\ In d (inp x)).
    { unfold step_char in H. unfold inp. destruct fwd.
      - destruct (aft x) as [|d a]; [discriminate|].
        destruct (cmatch c d) eqn:E; [|discriminate].
        exists d. split; auto. apply in_or_app. right. left. reflexivity.
      - destruct (bef x) as [|d b]; [discriminate|].
        destruct (cmatch c d) eqn:E; [|discriminate].
        exists d. split; auto. apply in_or_app. left. apply in_rev.
        rewrite rev_involutive. left. reflexivity. }
    destruct Hd as (d & Hd & Hin).
    unfold written_in in Hx. rewrite Forall_forall in Hx.
    rewrite forallb_forall in Hf. specialize (Hf d (Hx d Hin)).
    rewrite Hd in Hf. discriminate.
  - apply orb_prop in Hf. destruct fwd; destruct H as (z & H1 & H2).
    + destruct Hf as [Hf|Hf]; [exact (IH1 _ _ _ Hf H1 Hx)|].
      apply (IH2 _ _ _ Hf H2). rewrite (sem_inp _ _ _ _ _ H1). exact Hx.
    + destruct Hf as [Hf|Hf]; [|exact (IH2 _ _ _ Hf H1 Hx)].
      apply (IH1 _ _ _ Hf H2). rewrite (sem_inp _ _ _ _ _ H1). exact Hx.
  - apply andb_prop in Hf. destruct Hf as [Hf1 Hf2].
    destruct H as [H|H]; eauto.
  - apply andb_prop in Hf. destruct Hf as [Hmn Hf]. apply Nat.leb_le in Hmn.
    destruct H as (n & Hn & _ & Hit). destruct n as [|n]; [lia|].
    cbn [iterN] in Hit. destruct Hit as (z & Hz & _).
    apply (IH _ _ _ Hf Hz). rewrite inp_clear_groups. exact Hx.
  - destruct H as (z & H & _). eauto.
Qed.

Lemma exec_at_foreign alpha ml r b a : wf r = true -> foreign alpha r = true ->
  written_in alpha (rev b ++ a) -> exec_at ml r b a = None.
Proof.
  intros Hwf Hf Hs. destruct (exec_at ml r b a) as [y|] eqn:He; [|reflexivity].
  exfalso. apply exec_at_sound in He; [|exact Hwf].
  exact (sem_foreign alpha ml r true _ _ Hf He Hs).
Qed.

Lemma gsubS_foreign St alpha ml r (f : St -> mstate -> mstate -> str * St) (s : str) st :
  wf r = true -> foreign alpha r = true -> written_in alpha s ->
  gsubS ml r f s st = (s, st).
Proof.
  intros Hwf Hf Hs. unfold gsubS. apply gsub_from_miss. intros pre a' E.
  apply (exec_at_foreign alpha); auto.
  rewrite app_nil_r, rev_involutive, <- E. exact Hs.
Qed.

Lemma gsub_foreign alpha ml r f (s : str) :
  wf r = true -> foreign alpha r = true -> written_in alpha s -> gsub ml r f s = s.
Proof.
  intros Hwf Hf Hs. unfold gsub. rewrite (gsubS_foreign unit alpha); auto.
Qed.

Lemma search_foreign alpha ml r : wf r = true -> foreign alpha r = true ->
  forall (a b : str), written_in alpha (rev b ++ a) -> search ml r b a = None.
Proof.
  intros Hwf Hf. induction a as [|c a IH]; intros b Hs; cbn [search];
    rewrite (exec_at_foreign alpha) by auto; [reflexivity|].
  apply IH. cbn [rev]. rewrite <- app_assoc. exact Hs.
Qed.

Lemma test_foreign alpha ml r (s : str) : wf r = true -> foreign alpha r = true ->
  written_in alpha s -> test ml r s = false.
Proof.
  intros Hwf Hf Hs. unfold test. rewrite (search_foreign alpha); auto.
Qed.

Lemma written_in_not (alpha : str) (d : char) (s : str) :
  forallb (fun c => negb (N.eqb c d)) alpha = true -> written_in alpha s ->
  Forall (fun c => N.eqb c d = false) s.
Proof.
  intros Ha Hs. rewrite forallb_forall in Ha. eapply Forall_impl; [|exact Hs].
  intros c Hc. apply negb_true_iff. auto.
Qed.

Lemma written_in_b (alpha s : str) :
  forallb (fun c => existsb (N.eqb c) alpha) s = true -> written_in alpha s.
Proof.
  rewrite forallb_forall. intros H. apply Forall_forall. intros c Hc.
  specialize (H c Hc). apply existsb_exists in H. destruct H as (d & Hd & E).
  apply N.eqb_eq in E. subst. exact Hd.
Qed.

(** ** Passes that leave a text alone *)

Lemma parseBackticks_plain : forall (s : str) t, Forall (fun c => N.eqb c BT = false) s ->
  parseBackticks_from s 0 t = Ok (s, t).
Proof.
  induction s as [|c s IH]; intros t Hs; [reflexivity|].
  inversion Hs as [|? ? Hc Hr]; subst.
  rewrite parseBackticks_from_cons. unfold backtick_step.
  assert (E1 : starts_with fence (c :: s) = false).
  { unfold fence. cbn [starts_with]. rewrite N.eqb_sym, Hc. reflexivity. }
  assert (E2 : starts_with [BT; BT] (c :: s) = false).
  { cbn [starts_with]. rewrite N.eqb_sym, Hc. reflexivity. }
  rewrite E1, E2, Hc. cbn [bind pred]. rewrite IH by exact Hr. reflexivity.
Qed.

Lemma trim_line_id (s : str) :
  match s with c :: _ => is_ws c = false | [] => True end -> trim_line s = s.
Proof.
  intros Hs. unfold trim_line. destruct (_ || _)%bool; [reflexivity|].
  unfold replace_first.
  destruct (search false re_leading_ws [] s) as [[x y]|] eqn:H; [|reflexivity].
  exfalso. apply search_sound in H. destruct H as (pre & a' & -> & -> & He).
  apply exec_at_sound in He; [|reflexivity].
  unfold re_leading_ws in He. apply sem_Seq in He. destruct He as (z & Hb & Hp).
  apply sem_Bol in Hb. destruct Hb as [Hb ->].
  apply at_bol_false in Hb. rewrite app_nil_r in Hb.
  assert (pre = []) by (destruct pre; auto; apply (f_equal (@length _)) in Hb;
    rewrite length_rev in Hb; discriminate).
  subst pre. cbn [rev app] in *.
  unfold plus in Hp. apply sem_Rep in Hp. destruct Hp as (n & Hn & _ & Hit).
  destruct n as [|n]; [lia|]. cbn [iterN] in Hit. destruct Hit as (z & Hz & _).
  unfold ws in Hz. cbn [sem] in Hz. unfold step_char in Hz. cbn [clear_groups aft] in Hz.
  destruct a' as [|c a]; [discriminate|]. cbn [cmatch citem_match existsb] in Hz.
  rewrite Hs in Hz. discriminate.
Qed.

Lemma patterns_foreign alpha ps :
  forallb (fun p => foreign alpha (p_re p) && wf (p_re p))%bool ps = true ->
  forall s : str, written_in alpha s -> fold_left apply_pattern ps s = s.
Proof.
  induction ps as [|p ps IH]; intros H s Hs; [reflexivity|].
  cbn [forallb] in H. apply andb_prop in H. destruct H as [Hp Hps].
  apply andb_prop in Hp. destruct Hp as [Hf Hwf].
  cbn [fold_left]. unfold apply_pattern at 2. unfold gsubT.
  rewrite (gsub_foreign alpha) by auto. apply IH; auto.
Qed.

Lemma prepare_inert alpha (s : str) : inert alpha = true -> written_in alpha s ->
  match s with c :: _ => is_ws c = false | [] => True end ->
  prepare s = Ok (s, tables0).
Proof.
  intros Hi Hs Hhd. unfold inert in Hi.
  apply andb_prop in Hi. destruct Hi as [Hi Hlink].
  apply andb_prop in Hi. destruct Hi as [Hi Himage].
  apply andb_prop in Hi. destruct Hi as [Hi Hpat].
  apply andb_prop in Hi. destruct Hi as [Hi Hlist].
  apply andb_prop in Hi. destruct Hi as [Hi Hcheck].
  assert (Hno : forall d, (N.eqb d BT || N.eqb d (ch "\") || N.eqb d NL)%bool = true ->
            Forall (fun c => N.eqb c d = false) s).
  { intros d Hd. apply (written_in_not alpha); auto.
    rewrite forallb_forall in Hi. apply forallb_forall. intros c Hc.
    specialize (Hi c Hc). apply negb_true_iff in Hi. apply negb_true_iff.
    destruct (N.eqb_spec c d) as [->|]; [congruence|reflexivity]. }
  unfold prepare. rewrite escapePass_plain by (apply Hno; reflexivity).
  unfold parseBackticks. rewrite parseBackticks_plain by (apply Hno; reflexivity).
  cbn [bind]. unfold trimIndentation.
  rewrite split_on_single by (apply Hno; reflexivity). cbn [map join].
  rewrite trim_line_id by exact Hhd.
  unfold checkboxPass. rewrite (gsub_foreign alpha) by auto.
  unfold listPass. rewrite (gsub_foreign alpha) by auto.
  unfold inlinePass. rewrite (patterns_foreign alpha) by auto.
  unfold imagePass. rewrite (gsub_foreign alpha) by auto.
  unfold linkPass. rewrite (gsub_foreign alpha) by auto.
  reflexivity.
Qed.

(** * A quote nested deeper than the call stack *)

Lemma rep_loop_min1 body gs g fuel mx x k : max_zero mx = false ->
  rep_loop body gs g (S fuel) 1 mx x k
  = body (clear_groups gs x) (fun y => rep_loop body gs g fuel 0 (max_pred mx) y k).
Proof. intros H. cbn [rep_loop]. rewrite H. reflexivity. Qed.

(** A line that starts with a quote marker starts a quote block. *)
Lemma quote_block_matches rest : term_free rest ->
  exec_at true re_quote_block [] (GT4 ++ rest) <> None.
Proof.
  intros Hr. unfold exec_at, re_quote_block.
  rewrite m_Seq, m_Bol. cbn [at_bol bef].
  unfold plus at 1. rewrite m_Rep, rep_loop_min1 by reflexivity.
  rewrite m_Grp, m_Seq.
  unfold plus at 1. rewrite m_Rep, rep_loop_min1 by reflexivity.
  rewrite m_Grp. cbn [seqs]. rewrite m_Seq.
  fold GT4.
  rewrite (m_lit true GT4 _ rest) by reflexivity.
  rewrite m_Seq. unfold opt at 1. rewrite m_Rep. apply rep_loop_greedy_succ.
  rewrite m_Seq. unfold star at 1. rewrite m_Rep. apply star_any_succ.
  - cbn [aft bef length]. lia.
  - exact Hr.
  - intros y Hy. unfold nl_or_eol. rewrite m_Alt.
    unfold c1 at 1. rewrite m_chr_stop by (rewrite Hy; exact I).
    rewrite m_Eol. unfold at_eol. rewrite Hy.
    cbn [Nat.add]. apply rep_loop_greedy_succ.
    unfold star at 1. rewrite m_Rep. apply rep_loop_greedy_succ.
    cbn [Nat.add]. apply rep_loop_greedy_succ. discriminate.
Qed.

Lemma iterN_last_inv (R : mstate -> mstate -> Prop) (I E : mstate -> Prop) :
  (forall a b, I a -> R a b -> I b /\ E b) ->
  forall n x y, 1 <= n -> I x -> iterN R n x y -> E y.
Proof.
  intros HR. induction n as [|n IH]; intros x y Hn Hx H; [lia|].
  cbn [iterN] in H. destruct H as (z & Hz & H).
  destruct (HR _ _ Hx Hz) as [Iz Ez].
  destruct n as [|n]; [cbn in H; subst; exact Ez|].
  apply (IH z y); auto. lia.
Qed.

Lemma st_all_clear (Q : char -> Prop) gs x : st_all Q x -> st_all Q (clear_groups gs x).
Proof.
  unfold st_all, clear_groups. cbn [bef aft caps]. intros (A & B & C).
  repeat split; auto. apply (cap_clear_all (Forall Q)). exact C.
Qed.

Lemma nl_or_eol_end x y : sem true nl_or_eol true x y -> term_free (aft x) -> aft y = [].
Proof.
  intros H Hx. change (sem true (c1 NL) true x y \/ sem true Eol true x y) in H.
  destruct H as [H|H].
  - apply sem_c1 in H. destruct H as (a & Ha & _). rewrite Ha in Hx.
    inversion Hx; subst. discriminate.
  - cbn [sem] in H. destruct H as [H ->]. apply at_eol_term_free in H; auto.
Qed.

(** On a line without terminators a quote block runs to the end. *)
Lemma quote_block_whole b a y : exec_at true re_quote_block b a = Some y ->
  term_free b -> term_free a -> aft y = [].
Proof.
  intros He Hb Ha. apply exec_at_sound in He; [|reflexivity].
  unfold re_quote_block in He. apply sem_Seq in He. destruct He as (z0 & Hbol & He).
  apply sem_Bol in Hbol. destruct Hbol as [_ ->].
  unfold plus in He. apply sem_Rep in He. destruct He as (n & Hn & _ & Hit).
  revert Hit.
  apply (iterN_last_inv _ (st_all (fun c => is_term c = false)) (fun s => aft s = []));
    auto; [|repeat split; auto; constructor].
  intros x1 y1 Hx1 H1. split.
  { apply (sem_all _ _ _ _ _ _ H1). apply st_all_clear. exact Hx1. }
  apply sem_Grp in H1. destruct H1 as (z' & H1 & ->). cbn [set_cap aft].
  apply sem_Seq in H1. destruct H1 as (zA & HA & HB).
  apply sem_fwd in HB. destruct HB as (mt & Hmt & _).
  assert (EA : aft zA = []).
  { apply sem_Rep in HA. destruct HA as (k & Hk & _ & HitA). revert HitA.
    apply (iterN_last_inv _ (st_all (fun c => is_term c = false)) (fun s => aft s = []));
      auto; [|apply st_all_clear; exact Hx1].
    intros x2 y2 Hx2 H2. split.
    { apply (sem_all _ _ _ _ _ _ H2). apply st_all_clear. exact Hx2. }
    apply sem_Grp in H2. destruct H2 as (w' & HL & ->). cbn [set_cap aft].
    cbn [seqs] in HL.
    apply sem_Seq in HL. destruct HL as (u1 & L1 & HL).
    apply sem_Seq in HL. destruct HL as (u2 & L2 & HL).
    apply sem_Seq in HL. destruct HL as (u3 & L3 & L4).
    apply (nl_or_eol_end u3 w' L4).
    pose proof (st_all_clear _ (groups (Grp 2
      (seqs [lit (js "&gt;"); opt sp; star any; nl_or_eol]))) x2 Hx2) as S0.
    pose proof (sem_all _ _ _ _ _ _ L1 S0) as S1.
    pose proof (sem_all _ _ _ _ _ _ L2 S1) as S2.
    pose proof (sem_all _ _ _ _ _ _ L3 S2) as S3.
    apply S3. }
  rewrite EA in Hmt. symmetry in Hmt. apply app_eq_nil in Hmt. tauto.
Qed.

Lemma quotePass_line_overflow mth (c : char) (a : str) : term_free (c :: a) ->
  exec_at true re_quote_block [] (c :: a) <> None ->
  quote_html mth (c :: a) = OutOfFuel -> quotePass mth (c :: a) = OutOfFuel.
Proof.
  intros Htf Hex Hq.
  destruct (exec_at true re_quote_block [] (c :: a)) as [y|] eqn:He;
    [|exfalso; apply Hex; reflexivity].
  pose proof (quote_block_whole [] _ y He (Forall_nil _) Htf) as Hy.
  destruct (exec_at_split true re_quote_block [] _ y eq_refl He) as [Hm _].
  rewrite Hy, app_nil_r in Hm.
  assert (Hst : snd (gsubS true re_quote_block (quote_cb mth) (c :: a) (Ok tt))
                = OutOfFuel).
  { unfold gsubS.
    assert (Hl : length (matched (MState [] (c :: a) []) y) = S (length a))
      by (rewrite <- Hm; reflexivity).
    rewrite (gsub_step_hit _ _ _ _ _ _ _ _ y _ He Hl).
    cbn [snd].
    apply (gsub_from_state (res unit) true re_quote_block (quote_cb mth)
             (fun s => s = OutOfFuel) (c :: a)).
    - intros st b0 a0 y0 -> _ _. unfold quote_cb.
      destruct (quote_html mth (matched (MState b0 a0 []) y0)); reflexivity.
    - reflexivity.
    - unfold quote_cb. rewrite <- Hm, Hq. reflexivity. }
  unfold quotePass. destruct (gsubS _ _ _ _ _) as [out st]. cbn [snd] in Hst.
  rewrite Hst. reflexivity.
Qed.

(** ** The input [deep_quote n] *)

Lemma deep_quote_written n : written_in (js "&gt; a") (deep_quote n).
Proof.
  induction n as [|n IH]; cbn [deep_quote].
  - apply written_in_b. reflexivity.
  - apply Forall_app. split; [|exact IH]. apply written_in_b. reflexivity.
Qed.

Lemma deep_quote_term_free n : term_free (deep_quote n).
Proof.
  eapply Forall_impl; [|apply (deep_quote_written n)].
  intros c Hc. vm_compute in Hc.
  repeat (destruct Hc as [<-|Hc]; [reflexivity|]). contradiction.
Qed.

Lemma deep_quote_head n : exists c r, deep_quote n = c :: r /\ is_ws c = false.
Proof. destruct n; cbn [deep_quote]; do 2 eexists; split; reflexivity. Qed.

Lemma deep_quote_last n : exists s, deep_quote n = s ++ [ch "a"].
Proof.
  induction n as [|n [s IH]]; cbn [deep_quote].
  - exists []. reflexivity.
  - exists (js "&gt;  " ++ s). rewrite IH, app_assoc. reflexivity.
Qed.

Lemma prepare_deep_quote n : prepare (deep_quote n) = Ok (deep_quote n, tables0).
Proof.
  apply (prepare_inert (js "&gt; a")); [vm_compute; reflexivity|apply deep_quote_written|].
  destruct (deep_quote_head n) as (c & r & -> & Hc). exact Hc.
Qed.

(** The one item of the block [deep_quote (S n)] is a quote of level 1
    whose content is [deep_quote n]. *)
Lemma quote_lines_deep n :
  quote_lines (deep_quote (S n)) = [QItem 1 (deep_quote n) true].
Proof.
  unfold quote_lines.
  destruct (deep_quote_last (S n)) as [s Es]. rewrite Es.
  rewrite trimEnd_id by reflexivity. rewrite <- Es.
  rewrite split_on_single
    by (apply term_free_no_nl; apply deep_quote_term_free).
  cbn [map]. rewrite quote_item_markers by apply deep_quote_term_free.
  destruct (deep_quote_head n) as (c & r & E & Hc).
  unfold quote_item_by_markers, lead_markers. cbn [deep_quote].
  change (js "&gt;  " ++ deep_quote n)
    with (38%N :: 103%N :: 116%N :: 59%N :: 32%N :: 32%N :: deep_quote n).
  cbn [length lead_from]. change (starts_with GT4 (38%N :: 103%N :: 116%N :: 59%N :: 32%N :: 32%N :: deep_quote n)) with true.
  cbv iota. cbn [skipn]. change (is_ws 32%N) with true. cbv iota.
  change (starts_with GT4 (32%N :: deep_quote n)) with false. cbv iota beta zeta.
  cbn [app]. unfold trimStart. cbn [dropWhile]. change (is_ws 32%N) with true. cbv iota.
  rewrite E. cbn [dropWhile]. rewrite Hc. reflexivity.
Qed.

Lemma quote_html_deep mth n : mth (deep_quote n) = OutOfFuel ->
  quote_html mth (deep_quote (S n)) = OutOfFuel.
Proof.
  intros H. unfold quote_html. rewrite quote_lines_deep.
  cbn [length renderQuote quote_loop isQuote level content negb Nat.eqb].
  destruct (deep_quote_head n) as (c & r & E & _). rewrite E in *.
  rewrite H. reflexivity.
Qed.

(** A stack with room for [limit] nested activations of the converter
    overflows on a quote nested [limit] deep or deeper. *)
Lemma deep_quote_overflow : forall limit n, limit <= n ->
  markdownToHtml limit (deep_quote n) = OutOfFuel.
Proof.
  induction limit as [|limit IH]; intros n Hn; [reflexivity|].
  destruct n as [|n]; [lia|].
  rewrite markdownToHtml_S, prepare_deep_quote. cbn [bind fst snd].
  rewrite (quotePass_line_overflow _ 38%N
             (103%N :: 116%N :: 59%N :: 32%N :: 32%N :: deep_quote n)).
  - reflexivity.
  - apply (deep_quote_term_free (S n)).
  - apply (quote_block_matches (32%N :: 32%N :: deep_quote n)).
    apply (term_free_app (js "  ")); [tf_closed|apply deep_quote_term_free].
  - apply (quote_html_deep _ n). apply IH. lia.
Qed.

(** With room for one more activation the same input is converted. *)
Lemma deep_quote_depth n : max_ldepth (deep_quote n) = n.
Proof.
  assert (L : forall j, ldepth (deep_quote j) = j).
  { intros j. induction j as [|k IH]; [reflexivity|].
    cbn [deep_quote].
    change (js "&gt;  " ++ deep_quote k)
      with (38%N :: 103%N :: 116%N :: 59%N :: 32%N :: 32%N :: deep_quote k).
    cbn [ldepth]. change (is_iws 38%N) with false. cbv iota.
    rewrite !N.eqb_refl. cbn [andb]. change (is_iws 32%N) with true. cbv iota.
    rewrite IH. reflexivity. }
  induction n as [|k IH]; [reflexivity|].
  cbn [deep_quote].
  change (js "&gt;  " ++ deep_quote k)
    with (38%N :: 103%N :: 116%N :: 59%N :: 32%N :: 32%N :: deep_quote k).
  pose proof (L (S k)) as LS. cbn [deep_quote] in LS.
  change (js "&gt;  " ++ deep_quote k)
    with (38%N :: 103%N :: 116%N :: 59%N :: 32%N :: 32%N :: deep_quote k) in LS.
  cbn [max_ldepth]. rewrite LS, IH.
  assert (A : ldepth (103%N :: 116%N :: 59%N :: 32%N :: 32%N :: deep_quote k) = 0).
  { destruct (deep_quote_head k) as (c & r & -> & _). reflexivity. }
  assert (B : ldepth (116%N :: 59%N :: 32%N :: 32%N :: deep_quote k) = 0).
  { destruct (deep_quote_head k) as (c & r & -> & _). reflexivity. }
  assert (C : ldepth (59%N :: 32%N :: 32%N :: deep_quote k) = 0).
  { destruct (deep_quote_head k) as (c & r & -> & _). reflexivity. }
  assert (D : ldepth (32%N :: 32%N :: deep_quote k) = k).
  { cbn [ldepth]. change (is_iws 32%N) with true. cbv iota. apply L. }
  assert (F : ldepth (32%N :: deep_quote k) = k).
  { cbn [ldepth]. change (is_iws 32%N) with true. cbv iota. apply L. }
  rewrite A, B, C, D, F. lia.
Qed.

(** * The result of a call *)

Lemma trim_trimmed s : trimmed (trim s).
Proof.
  unfold trimmed, trim. split.
  - destruct (dropWhile_split is_ws s) as (u & _ & _ & Hh).
    change (dropWhile is_ws s) with (trimStart s) in Hh.
    destruct (trimEnd_prefix (trimStart s)) as [w Hw].
    destruct (trimEnd (trimStart s)) as [|d r] eqn:E; [exact I|].
    rewrite Hw in Hh. exact Hh.
  - unfold trimEnd. rewrite rev_involutive.
    destruct (dropWhile_split is_ws (rev (trimStart s))) as (u & _ & _ & Hh). exact Hh.
Qed.

Lemma markdownToHtml_trimmed fuel md html :
  markdownToHtml fuel md = Ok html -> trimmed html.
Proof.
  destruct fuel as [|fuel]; [discriminate|]. rewrite markdownToHtml_S.
  destruct (prepare md) as [[b t]| |]; cbn [bind fst snd]; try discriminate.
  destruct (quotePass _ b) as [out| |]; cbn [bind]; try discriminate.
  intros H. inversion H; subst. unfold finish, reassemble. apply trim_trimmed.
Qed.

(** ** Exceptions *)

Lemma quote_loop_no_throw mth rq lvl :
  (forall c, mth c <> Throw) -> (forall its l, rq its l <> Throw) ->
  forall items skip, quote_loop mth rq lvl items skip <> Throw.
Proof.
  intros Hm Hr. induction items as [|item rest IH]; intros skip; cbn [quote_loop].
  - discriminate.
  - destruct skip as [|k]; [|apply IH].
    assert (Hb : forall (e : res str) (f : str -> res (list str)),
      e <> Throw -> (forall h, f h <> Throw) -> bind e f <> Throw).
    { intros e f He Hf. destruct e; cbn [bind]; [apply Hf|exfalso; apply He; reflexivity|discriminate]. }
    assert (Hk : forall sk (h : str),
      (hs <- quote_loop mth rq lvl rest sk ;; Ok (h :: hs)) <> Throw).
    { intros sk h. specialize (IH sk).
      destruct (quote_loop mth rq lvl rest sk); cbn [bind]; auto; discriminate. }
    destruct (negb (isQuote item)).
    + apply Hb; auto.
    + destruct (Nat.eqb (level item) lvl).
      * apply Hb; auto. destruct (content item); [discriminate|apply Hm].
      * destruct (Nat.ltb lvl (level item)); [|apply IH].
        apply Hb; auto.
Qed.

Lemma renderQuote_no_throw mth : (forall c, mth c <> Throw) ->
  forall fuel items l, renderQuote mth fuel items l <> Throw.
Proof.
  intros Hm. induction fuel as [|fuel IH]; intros items l; cbn [renderQuote].
  - discriminate.
  - pose proof (quote_loop_no_throw mth (renderQuote mth fuel) l Hm IH items 0) as H.
    destruct (quote_loop _ _ _ _ _); cbn [bind]; auto; discriminate.
Qed.

Lemma quotePass_no_throw mth md : (forall c, mth c <> Throw) -> quotePass mth md <> Throw.
Proof.
  intros Hm. unfold quotePass, gsubS.
  pose proof (gsub_from_state (res unit) true re_quote_block (quote_cb mth)
                (fun st => st <> Throw) md) as Hst.
  destruct (gsub_from true re_quote_block (quote_cb mth) [] md 0 (Ok tt))
    as [out st] eqn:Hg.
  assert (Hs : st <> Throw).
  { change st with (snd (out, st)). rewrite <- Hg. apply Hst; auto; [|discriminate].
    intros st0 b a y Hst0 _ _. unfold quote_cb, quote_html.
    pose proof (renderQuote_no_throw mth Hm
                  (S (S (length (quote_lines (matched (MState b a []) y)))))
                  (quote_lines (matched (MState b a []) y)) 1) as Hr.
    destruct (renderQuote _ _ _ _); cbn [snd]; auto.
    destruct st0 as [[]| |]; auto; discriminate. }
  destruct st as [[]| |]; cbn [bind]; try discriminate. contradiction.
Qed.

(** No call throws, whatever the fuel. *)
Lemma markdownToHtml_no_throw : forall fuel md, markdownToHtml fuel md <> Throw.
Proof.
  induction fuel as [|fuel IH]; intros md; [discriminate|].
  rewrite markdownToHtml_S.
  destruct (prepare_total md) as (b & t & ->). cbn [bind fst snd].
  pose proof (quotePass_no_throw (markdownToHtml fuel) b (IH)) as H.
  destruct (quotePass _ b); cbn [bind]; auto; discriminate.
Qed.

(** ** More fuel changes nothing *)

Section Monotone.
Variables mth1 mth2 : str -> res str.
Hypothesis mth_mono : forall c h, mth1 c = Ok h -> mth2 c = Ok h.

Lemma bind_Ok {A B} (e : res A) (f : A -> res B) b :
  bind e f = Ok b -> exists a, e = Ok a /\ f a = Ok b.
Proof. destruct e; cbn [bind]; try discriminate. eauto. Qed.

Lemma quote_loop_mono rq1 rq2 lvl :
  (forall its l h, rq1 its l = Ok h -> rq2 its l = Ok h) ->
  forall items skip hs, quote_loop mth1 rq1 lvl items skip = Ok hs ->
    quote_loop mth2 rq2 lvl items skip = Ok hs.
Proof.
  intros Hrq. induction items as [|item rest IH]; intros skip hs; cbn [quote_loop]; auto.
  destruct skip as [|k]; [|apply IH].
  destruct (negb (isQuote item)).
  - intros H. apply bind_Ok in H. destruct H as (h & H1 & H).
    apply bind_Ok in H. destruct H as (hs' & H2 & H).
    rewrite (mth_mono _ _ H1). cbn [bind]. rewrite (IH _ _ H2). exact H.
  - destruct (Nat.eqb (level item) lvl).
    + intros H. apply bind_Ok in H. destruct H as (h & H1 & H).
      apply bind_Ok in H. destruct H as (hs' & H2 & H).
      assert (H1' : match content item with
                    | [] => Ok (js "<br>")
                    | c0 :: l => mth2 (c0 :: l)
                    end = Ok h).
      { destruct (content item); auto. }
      rewrite H1'. cbn [bind]. rewrite (IH _ _ H2). exact H.
    + destruct (Nat.ltb lvl (level item)); [|apply IH].
      intros H. apply bind_Ok in H. destruct H as (h & H1 & H).
      apply bind_Ok in H. destruct H as (hs' & H2 & H).
      rewrite (Hrq _ _ _ H1). cbn [bind]. rewrite (IH _ _ H2). exact H.
Qed.

Lemma renderQuote_mono : forall fuel items l h,
  renderQuote mth1 fuel items l = Ok h -> renderQuote mth2 fuel items l = Ok h.
Proof.
  induction fuel as [|fuel IH]; intros items l h; cbn [renderQuote]; [discriminate|].
  intros H. apply bind_Ok in H. destruct H as (hs & H1 & H).
  rewrite (quote_loop_mono _ (renderQuote mth2 fuel) l IH _ _ _ H1). exact H.
Qed.

Lemma quote_cb_sticky mth st x y : st <> Ok tt -> snd (quote_cb mth st x y) <> Ok tt.
Proof.
  intros Hst. unfold quote_cb. destruct (quote_html mth (matched x y)); cbn [snd]; auto;
    destruct st as [[]| |]; auto; discriminate.
Qed.

Lemma quote_gsub_sticky mth a b skip st : st <> Ok tt ->
  snd (gsub_from true re_quote_block (quote_cb mth) b a skip st) <> Ok tt.
Proof.
  intros Hst.
  apply (gsub_from_state (res unit) true re_quote_block (quote_cb mth)
           (fun s => s <> Ok tt) (rev b ++ a)); auto.
  intros st0 b0 a0 y H0 _ _. apply quote_cb_sticky. exact H0.
Qed.

Lemma quote_cb_mono st x y rp :
  quote_cb mth1 st x y = (rp, Ok tt) -> quote_cb mth2 st x y = (rp, Ok tt).
Proof.
  unfold quote_cb, quote_html.
  destruct (renderQuote mth1 _ _ _) as [h| |] eqn:E.
  - apply renderQuote_mono in E. rewrite E. auto.
  - destruct st as [[]| |]; discriminate.
  - destruct st as [[]| |]; discriminate.
Qed.

Lemma quote_gsub_mono : forall a b skip st out,
  gsub_from true re_quote_block (quote_cb mth1) b a skip st = (out, Ok tt) ->
  gsub_from true re_quote_block (quote_cb mth2) b a skip st = (out, Ok tt).
Proof.
  induction a as [|c a IH]; intros b skip st out.
  - destruct skip as [|k]; cbn [gsub_from]; auto.
    destruct (exec_at true re_quote_block b []) as [y|]; auto.
    destruct (quote_cb mth1 st _ y) as [rp st1] eqn:E1. intros H. inversion H; subst.
    rewrite (quote_cb_mono _ _ _ _ E1). reflexivity.
  - destruct skip as [|k]; cbn [gsub_from]; [|apply IH].
    destruct (exec_at true re_quote_block b (c :: a)) as [y|].
    + destruct (quote_cb mth1 st _ y) as [rp st1] eqn:E1.
      assert (Hkey : forall sk out',
        gsub_from true re_quote_block (quote_cb mth1) (c :: b) a sk st1 = (out', Ok tt) ->
        quote_cb mth2 st (MState b (c :: a) []) y = (rp, st1) /\
        gsub_from true re_quote_block (quote_cb mth2) (c :: b) a sk st1 = (out', Ok tt)).
      { intros sk out' Hg. assert (st1 = Ok tt) as ->.
        { destruct st1 as [[]| |]; auto;
            exfalso; eapply (quote_gsub_sticky mth1 a (c :: b) sk); try rewrite Hg;
            try reflexivity; discriminate. }
        split; [apply quote_cb_mono; exact E1|apply IH; exact Hg]. }
      cbv zeta.
      destruct (length (matched (MState b (c :: a) []) y)) as [|l].
      * destruct (gsub_from true re_quote_block (quote_cb mth1) (c :: b) a 0 st1)
          as [o s1] eqn:Hg.
        intros H. inversion H; subst.
        destruct (Hkey 0 o Hg) as [-> ->]. reflexivity.
      * destruct (gsub_from true re_quote_block (quote_cb mth1) (c :: b) a l st1)
          as [o s1] eqn:Hg.
        intros H. inversion H; subst.
        destruct (Hkey l o Hg) as [-> ->]. reflexivity.
    + destruct (gsub_from true re_quote_block (quote_cb mth1) (c :: b) a 0 st)
        as [o s1] eqn:Hg.
      intros H. inversion H; subst. rewrite (IH _ _ _ _ Hg). reflexivity.
Qed.

Lemma quotePass_mono md out : quotePass mth1 md = Ok out -> quotePass mth2 md = Ok out.
Proof.
  unfold quotePass, gsubS.
  destruct (gsub_from true re_quote_block (quote_cb mth1) [] md 0 (Ok tt))
    as [o st] eqn:Hg.
  destruct st as [[]| |]; cbn [bind]; try discriminate.
  intros H. inversion H; subst. rewrite (quote_gsub_mono _ _ _ _ _ Hg). reflexivity.
Qed.
End Monotone.

Lemma markdownToHtml_mono : forall n md h, markdownToHtml n md = Ok h ->
  forall k, markdownToHtml (n + k) md = Ok h.
Proof.
  induction n as [|n IH]; intros md h H k; [discriminate|].
  cbn [Nat.add]. rewrite markdownToHtml_S in *.
  destruct (prepare md) as [[b t]| |]; cbn [bind fst snd] in *; try discriminate.
  apply bind_Ok in H. destruct H as (out & H1 & H).
  rewrite (quotePass_mono (markdownToHtml n) (markdownToHtml (n + k))
             (fun c h' Hc => IH c h' Hc k) b out H1).
  exact H.
Qed.

(** Whatever the fuel, a call runs out of fuel or returns one and the same
    string. *)
Lemma markdownToHtml_deterministic md n h :
  markdownToHtml n md = Ok h ->
  forall fuel, markdownToHtml fuel md = Ok h \/ markdownToHtml fuel md = OutOfFuel.
Proof.
  intros H fuel. destruct (markdownToHtml fuel md) as [h'| |] eqn:E; auto.
  - left. pose proof (markdownToHtml_mono n md h H fuel) as H1.
    pose proof (markdownToHtml_mono fuel md h' E n) as H2.
    rewrite Nat.add_comm in H2. congruence.
  - exfalso. exact (markdownToHtml_no_throw fuel md E).
Qed.

(** ** The call stack *)

(** A quote item handed to the recursive call is no deeper than the
    buffer it is cut from. *)
Lemma ldepth_infix (b u c v : str) : b = u ++ c ++ v -> ldepth c <= max_ldepth b.
Proof.
  intros E. pose proof (proj1 (max_ldepth_tame (max_ldepth b) b) (le_n _)) as Hb.
  specialize (Hb u (c ++ v) [] E I). rewrite app_nil_r in Hb.
  etransitivity; [|exact Hb]. rewrite <- (app_nil_r c) at 1.
  apply ldepth_cut. exact I.
Qed.

(** Room for two activations more than the quote-nesting depth of the
    input is enough. *)
Lemma markdownToHtml_within limit md : 2 + max_ldepth md <= limit ->
  exists h, markdownToHtml limit md = Ok h.
Proof.
  intros Hl. destruct (prepare_total md) as (b & t & Hp).
  pose proof (prepare_tame md b t Hp) as Hb.
  assert (H : exists h, markdownToHtml (S (S (max_ldepth md))) md = Ok h).
  { rewrite markdownToHtml_S, Hp. cbn [bind fst snd].
    destruct (quotePass_ok (markdownToHtml (S (max_ldepth md)))
                (fun c => term_free c /\ exists u v, b = u ++ c ++ v)) with (md := b)
      as [out Hout].
    - intros c (Hc & u & v & E). apply markdownToHtml_line; auto.
      rewrite <- (ldepth_qdepth c Hc).
      etransitivity; [apply (ldepth_infix b u c v E)|exact Hb].
    - intros b0 a y Hba He. exact (quote_block_top b b0 a y Hba He).
    - rewrite Hout. cbn [bind]. eauto. }
  destruct H as [h H]. exists h.
  replace limit with (S (S (max_ldepth md)) + (limit - S (S (max_ldepth md)))) by lia.
  apply markdownToHtml_mono. exact H.
Qed.

(** C1 (amended).  The converter calls itself once for each level of
    quote nesting and sets no cap on the depth, so whether a call returns
    depends on the room of the call stack: [limit] is the number of
    nested activations of the converter the stack has room for.  For
    every input whose quote-nesting depth [max_ldepth md] (the longest
    run of quote markers within one line) is at least two less than
    [limit], the call returns a string, and the string has no white
    space at either end.  Whatever the stack, a call on this input
    returns that same string or ends with the stack overflow of the
    engine, and throws nothing else. *)
Theorem markdownToHtml_returns_within_stack limit md :
  2 + max_ldepth md <= limit ->
  exists html,
    markdownToHtml limit md = Ok html /\ trimmed html /\
    (forall limit', markdownToHtml limit' md = Ok html
                    \/ markdownToHtml limit' md = OutOfFuel).
Proof.
  intros Hl. destruct (markdownToHtml_within limit md Hl) as [h H].
  exists h. split; [exact H|]. split.
  - eapply markdownToHtml_trimmed. exact H.
  - eapply markdownToHtml_deterministic. exact H.
Qed.

Lemma markdownToHtml_returns_within_stack_witness :
  2 + max_ldepth (js "&gt;  &gt; a") <= 4 /\
  exists html,
    markdownToHtml 4 (js "&gt;  &gt; a") = Ok html /\ trimmed html /\
    (forall limit', markdownToHtml limit' (js "&gt;  &gt; a") = Ok html
                    \/ markdownToHtml limit' (js "&gt;  &gt; a") = OutOfFuel).
Proof.
  split; [vm_compute; lia|].
  apply markdownToHtml_returns_within_stack. vm_compute. lia.
Defined.

(** The claim as it stands fails: on a stack with room for 1000 nested
    activations of the converter, the input of 1000 quote markers, each
    followed by two blanks, and a letter (about 6000 code units) ends
    with the stack overflow. *)
Lemma deep_quote_overflows_stack : markdownToHtml 1000 (deep_quote 1000) = OutOfFuel.
Proof. apply deep_quote_overflow. apply le_n. Qed.

(** * Scenarios *)

(** C2 (as stated).  The converter does not return the paragraph-wrapped
    string for the input of the scenario, whatever the fuel. *)
Lemma bold_em_is_not_wrapped :
  ~ exists fuel, markdownToHtml fuel (js "**bold** _em_")
                 = Ok (js "<p><strong>bold</strong> <em>em</em></p>").
Proof.
  intros [fuel H]. destruct fuel as [|fuel]; [discriminate|].
  vm_compute in H. discriminate.
Qed.

(** C2 (amended).  For the input [**bold** _em_] the converter returns
    exactly [<strong>bold</strong> <em>em</em>]: the formatted line starts
    with an HTML tag, so the paragraph assembler emits it verbatim and
    does not wrap it in a paragraph element. *)
Theorem bold_em_rendering : forall fuel,
  markdownToHtml (S fuel) (js "**bold** _em_")
  = Ok (js "<strong>bold</strong> <em>em</em>").
Proof. intros fuel. vm_compute. reflexivity. Qed.

(** * Code spans, fenced blocks and their content *)

Lemma entity_tail_amp r : forall (p : str) seen,
  entity_tail seen (p ++ ch "&" :: r) = entity_tail seen p.
Proof.
  induction p as [|c p IH]; intros seen; cbn [app entity_tail].
  - change (is_letter (ch "&")) with false. cbv iota. apply andb_false_r.
  - destruct (is_letter c); auto.
Qed.

Lemma escapeHtml_spec_app_amp r : forall pre : str,
  escapeHtml_spec (pre ++ ch "&" :: r) = escapeHtml_spec pre ++ escapeHtml_spec (ch "&" :: r).
Proof.
  induction pre as [|c pre IH]; [reflexivity|].
  cbn [app]. change (escapeHtml_spec (c :: pre ++ ch "&" :: r))
    with (escape_unit c (pre ++ ch "&" :: r) ++ escapeHtml_spec (pre ++ ch "&" :: r)).
  change (escapeHtml_spec (c :: pre)) with (escape_unit c pre ++ escapeHtml_spec pre).
  rewrite IH, <- app_assoc. f_equal.
  unfold escape_unit. rewrite entity_tail_amp. reflexivity.
Qed.

Lemma escape_unit_letter c r : is_letter c = true -> escape_unit c r = [c].
Proof.
  intros H. unfold escape_unit.
  repeat match goal with
         | |- context [if N.eqb c ?k then _ else _] =>
             let E := fresh "E" in
             destruct (N.eqb c k) eqn:E;
             [apply N.eqb_eq in E; subst c; discriminate|]
         end.
  reflexivity.
Qed.

Lemma escapeHtml_spec_letters post : forall L : str, forallb is_letter L = true ->
  escapeHtml_spec (L ++ ch ";" :: post) = L ++ ch ";" :: escapeHtml_spec post.
Proof.
  induction L as [|c L IH]; intros H; cbn [app].
  - reflexivity.
  - cbn [forallb] in H. apply andb_prop in H. destruct H as [Hc HL].
    change (escapeHtml_spec (c :: L ++ ch ";" :: post))
      with (escape_unit c (L ++ ch ";" :: post) ++ escapeHtml_spec (L ++ ch ";" :: post)).
    rewrite escape_unit_letter, IH by auto. reflexivity.
Qed.

Lemma escapeHtml_entity_kept (pre L post : str) :
  L <> [] -> forallb is_letter L = true ->
  escapeHtml (pre ++ ch "&" :: L ++ ch ";" :: post)
  = escapeHtml pre ++ ch "&" :: L ++ ch ";" :: escapeHtml post.
Proof.
  intros Hne HL. rewrite !escapeHtml_refines, escapeHtml_spec_app_amp. f_equal.
  change (escapeHtml_spec (ch "&" :: L ++ ch ";" :: post))
    with (escape_unit (ch "&") (L ++ ch ";" :: post)
          ++ escapeHtml_spec (L ++ ch ";" :: post)).
  rewrite escapeHtml_spec_letters by auto.
  unfold escape_unit. change (N.eqb (ch "&") (ch "&")) with true. cbv iota.
  rewrite entity_tail_run; auto.
  apply Forall_forall. intros c Hc. rewrite forallb_forall in HL. auto.
Qed.

Lemma letter_plain c : is_letter c = true ->
  negb (N.eqb c BT || N.eqb c (ch "\") || N.eqb c (ch "$")) = true.
Proof.
  intros H.
  destruct (N.eqb c BT) eqn:E1; [apply N.eqb_eq in E1; subst c; discriminate|].
  destruct (N.eqb c (ch "\")) eqn:E2; [apply N.eqb_eq in E2; subst c; discriminate|].
  destruct (N.eqb c (ch "$")) eqn:E3; [apply N.eqb_eq in E3; subst c; discriminate|].
  reflexivity.
Qed.

Lemma entity_plain (L : str) : forallb is_letter L = true ->
  code_plain (ch "&" :: L ++ [ch ";"]) = true.
Proof.
  intros HL. unfold code_plain. cbn [forallb]. change (negb _ && ?x)%bool with x.
  rewrite forallb_app. cbn [forallb].
  rewrite andb_true_r. apply forallb_forall. intros c Hc.
  rewrite forallb_forall in HL. apply letter_plain. auto.
Qed.

Lemma entity_no_cr (L : str) : forallb is_letter L = true ->
  Forall (fun c => N.eqb c CR = false) (ch "&" :: L ++ [ch ";"]).
Proof.
  intros HL. constructor; [reflexivity|]. apply Forall_app. split; [|repeat constructor].
  apply Forall_forall. intros c Hc. rewrite forallb_forall in HL. specialize (HL c Hc).
  destruct (N.eqb c CR) eqn:E; auto. apply N.eqb_eq in E. subst c. discriminate.
Qed.

(** C10.  [escapeHtml] leaves an ampersand alone when one or more ASCII
    letters and a semicolon follow it, whatever stands before and after:
    an entity-like text [&L;] goes through unchanged.  Given as the
    content of a backtick span or of a fenced block, the text comes out
    literally ([&amp;] stays [&amp;] and does not become [&amp;amp;]). *)
Theorem escapeHtml_keeps_entities (pre L post : str) :
  L <> [] -> forallb is_letter L = true ->
  escapeHtml (pre ++ ch "&" :: L ++ ch ";" :: post)
    = escapeHtml pre ++ ch "&" :: L ++ ch ";" :: escapeHtml post
  /\ (forall fuel,
        markdownToHtml (S fuel) (BT :: (ch "&" :: L ++ [ch ";"]) ++ [BT])
        = Ok (js "<p><code>" ++ (ch "&" :: L ++ [ch ";"]) ++ js "</code></p>"))
  /\ (forall fuel,
        markdownToHtml (S fuel) (fence ++ NL :: (ch "&" :: L ++ [ch ";"]) ++ NL :: fence)
        = Ok (js "<pre class=" ++ q (js "language-plaintext") ++ js "><code>"
              ++ (ch "&" :: L ++ [ch ";"]) ++ js "</code></pre>")).
Proof.
  intros Hne HL.
  assert (He : escapeHtml (ch "&" :: L ++ [ch ";"]) = ch "&" :: L ++ [ch ";"]).
  { apply (escapeHtml_entity_kept [] L [] Hne HL). }
  split; [apply escapeHtml_entity_kept; auto|]. split; intros fuel.
  - rewrite inline_code_renders by (apply entity_plain; exact HL).
    rewrite He. reflexivity.
  - rewrite fenced_code_renders; try reflexivity.
    + rewrite He. reflexivity.
    + apply entity_no_cr. exact HL.
    + apply entity_plain. exact HL.
Qed.

Lemma escapeHtml_keeps_entities_witness :
  js "amp" <> [] /\ forallb is_letter (js "amp") = true /\
  escapeHtml (js "x &amp; y") = js "x &amp; y"
  /\ (forall fuel, markdownToHtml (S fuel) (js "`&amp;`") = Ok (js "<p><code>&amp;</code></p>"))
  /\ (forall fuel,
        markdownToHtml (S fuel) (fence ++ NL :: js "&amp;" ++ NL :: fence)
        = Ok (js "<pre class=" ++ q (js "language-plaintext")
              ++ js "><code>&amp;</code></pre>")).
Proof.
  split; [discriminate|]. split; [reflexivity|].
  apply (escapeHtml_keeps_entities (js "x ") (js "amp") (js " y")).
  - discriminate.
  - reflexivity.
Defined.


(** What the two inputs render as. *)
Lemma code_content_lost_outputs : forall fuel,
  markdownToHtml (S fuel) (js "<http://a`*b*`>")
  = Ok (js "<a href=" ++ q (js "http://a<!--inlinecode_0--") ++ js " target="
        ++ q (js "_blank") ++ js ">http://a<!--inlinecode_0--</a>>")
  /\ markdownToHtml (S fuel) (fence ++ NL :: js "\*x\*" ++ NL :: fence)
     = Ok (js "<pre class=" ++ q (js "language-plaintext") ++ js "><code>*x*</code></pre>").
Proof. intros fuel. split; vm_compute; reflexivity. Qed.



(** C4.  The round trip of the escape pass fails inside a backtick span:
    [`\*`] renders the text of the placeholder, not the star.  The fenced
    path restores the escaped character (lines 157-160) and outside code
    the placeholder is restored by the reassembly (lines 483-485): each of
    the seventeen characters of the escape set comes out verbatim; a
    backslash before any other character is left as it is. *)
Theorem escape_in_backtick_span_is_not_restored :
  (forall fuel,
     markdownToHtml (S fuel) (js "`\*`")
     = Ok (js "<p><code>&lt;!--escaped_0--&gt;</code></p>"))
  /\ (forall fuel,
        markdownToHtml (S fuel) (fence ++ NL :: js "\*" ++ NL :: fence)
        = Ok (js "<pre class=" ++ q (js "language-plaintext")
              ++ js "><code>*</code></pre>"))
  /\ (forall fuel,
        markdownToHtml (S fuel) (js "\\ \` \* \_ \{ \} \[ \] \( \) \# \+ \- \. \! \~ \>")
        = Ok (js "<p>\ ` * _ { } [ ] ( ) # + - . ! ~ ></p>"))
  /\ (forall fuel,
        markdownToHtml (S fuel) (js "\a \| \$") = Ok (js "<p>\a \| \$</p>"))
  /\ escapePass (js "\a\*") tables0
     = (js "\a<!--escaped_0-->",
        Tables [] [] [(js "<!--escaped_0-->", js "*")] 0 0 1).
Proof.
  repeat split; intros; vm_compute; reflexivity.
Qed.

(** * Blockquote levels *)

(** C5 (as stated).  The level of a line is not the number of its
    leading markers when white space between them is ignored altogether:
    in [&gt;  &gt; a] two spaces stand between the markers, the line
    pattern allows one, and the level of the line is 1, not 2. *)
Lemma quote_level_is_not_marker_count :
  level (quote_item (js "&gt;  &gt; a")) <> qdepth (js "&gt;  &gt; a").
Proof. vm_compute. discriminate. Qed.

(** C5 (amended).  The level of a line is the number of the markers
    [&gt;] at its start, each followed by at most one white-space
    character; a marker after a longer gap belongs to the content.  For
    [&gt; x] followed by [&gt;&gt;&gt; a] the output has exactly two
    levels of blockquote, the second nested in the first. *)
Theorem quote_level_counts_markers (line : str) : term_free line ->
  quote_item line = quote_item_by_markers line
  /\ level (quote_item (js "&gt;&gt;&gt; a")) = 3
  /\ (forall fuel,
        markdownToHtml (S (S fuel)) (js "&gt; x" ++ NL :: js "&gt;&gt;&gt; a")
        = Ok (js "<blockquote><p>x</p>" ++ NL
              :: js "<blockquote><p>a</p></blockquote></blockquote>"))
  /\ count_matches false (lit (js "<blockquote>"))
       (js "<blockquote><p>x</p>" ++ NL
        :: js "<blockquote><p>a</p></blockquote></blockquote>") = 2.
Proof.
  intros Hl. split; [apply quote_item_markers; exact Hl|].
  split; [reflexivity|]. split; [|reflexivity].
  intros fuel. vm_compute. reflexivity.
Qed.

Lemma quote_level_counts_markers_witness :
  term_free (js "&gt;&gt; &gt;  &gt; a") /\
  quote_item (js "&gt;&gt; &gt;  &gt; a") = QItem 3 (js "&gt; a") true.
Proof.
  assert (H : term_free (js "&gt;&gt; &gt;  &gt; a")) by (repeat constructor).
  split; [exact H|].
  exact (proj1 (quote_level_counts_markers (js "&gt;&gt; &gt;  &gt; a") H)).
Defined.

(** * Tables *)

Lemma Forall_removelast (Q : char -> Prop) (s : str) : Forall Q s -> Forall Q (removelast s).
Proof.
  induction 1 as [|c s Hc Hs IH]; cbn [removelast]; [constructor|].
  destruct s; [constructor|]. constructor; auto.
Qed.

Lemma Forall_slice_inner (Q : char -> Prop) (s : str) : Forall Q s -> Forall Q (slice_inner s).
Proof.
  intros H. unfold slice_inner. apply Forall_removelast.
  destruct H; cbn [tl]; [constructor|assumption].
Qed.

(** A row that the separator pattern accepts has cells of [-], [:] and
    white space only. *)
Lemma table_sep_pure (row : str) : test false re_table_sep row = true ->
  pure_separator row = true.
Proof.
  unfold test. destruct (search false re_table_sep [] row) as [[x y]|] eqn:Hs;
    [intros _|discriminate].
  apply search_sound in Hs. destruct Hs as (pre & a' & Hrow & Hx & He).
  apply exec_at_sound in He; [|reflexivity].
  pose proof He as Hc.
  apply (sem_consumes (fun c => sep_char c = true \/ c = ch "|")) in Hc.
  2:{ cbn. repeat split; intros d Hd.
      - rewrite orb_false_r in Hd. apply N.eqb_eq in Hd. auto.
      - left. unfold sep_char. rewrite orb_false_r in Hd. rewrite <- orb_assoc. exact Hd.
      - rewrite orb_false_r in Hd. apply N.eqb_eq in Hd. auto. }
  destruct Hc as (mt & Hmt & _ & HQ). cbn [aft] in Hmt.
  unfold re_table_sep in He. cbn [seqs] in He.
  apply sem_Seq in He. destruct He as (z1 & Hbol & He).
  apply sem_Bol in Hbol. destruct Hbol as [Hbol ->].
  apply sem_Seq in He. destruct He as (z2 & _ & He).
  apply sem_Seq in He. destruct He as (z3 & _ & Heol).
  cbn [sem] in Heol. destruct Heol as [Heol ->].
  unfold at_bol in Hbol. cbn [bef] in Hbol.
  rewrite app_nil_r in Hbol. destruct (rev pre) eqn:Hpre; [|discriminate].
  apply (f_equal (@rev char)) in Hpre. rewrite rev_involutive in Hpre. cbn in Hpre.
  subst pre. cbn [app] in Hrow. subst a'.
  unfold at_eol in Heol. destruct (aft z3) eqn:Hz; [|discriminate].
  rewrite app_nil_r in Hmt. subst mt.
  unfold pure_separator. apply forallb_forall. intros cell Hcell.
  apply forallb_forall. intros c Hc.
  pose proof (split_on_pieces (fun c => sep_char c = true) (ch "|")
                (slice_inner (trim row))) as Hp.
  assert (Hin : Forall (fun c => sep_char c = true \/ c = ch "|") (slice_inner (trim row))).
  { apply Forall_slice_inner, trim_Forall. exact HQ. }
  specialize (Hp Hin). rewrite Forall_forall in Hp. specialize (Hp cell Hcell).
  rewrite Forall_forall in Hp. auto.
Qed.

(** C8.  The callback of the table pass renders a candidate block as a
    table only if the block has at least two lines and the second line
    is a pure alignment-separator row (every cell composed only of [-],
    [:] and white space); every other block is returned as it is, and the
    paragraph pass then reads it as text. *)
Theorem table_only_with_separator_row :
  (forall block,
     table_block block = block
     \/ exists header separator body,
          split_on NL (trim block) = header :: separator :: body /\
          pure_separator separator = true /\
          table_block block
          = table_html (header :: separator :: body) header separator body)
  /\ (forall x y, table_cb x y = table_block (matched x y))
  /\ (forall fuel,
        markdownToHtml (S fuel)
          (js "|a|b|" ++ NL :: js "|x|---:|" ++ NL :: js "|1|2|")
        = Ok (js "<p>|a|b|<br>|x|---:|<br>|1|2|</p>"))
  /\ (forall fuel,
        markdownToHtml (S fuel) (js "|a|b|")
        = Ok (js "<p>|a|b|</p>"))
  /\ (forall fuel,
        markdownToHtml (S fuel)
          (js "|a|b|" ++ NL :: js "|:-|-:|" ++ NL :: js "|1|2|")
        = Ok (js "<table><thead><tr><th style=" ++ q (js "text-align:left;") ++ js ">a</th>"
              ++ js "<th style=" ++ q (js "text-align:right;") ++ js ">b</th></tr></thead>"
              ++ js "<tbody><tr><td style=" ++ q (js "text-align:left;") ++ js ">1</td>"
              ++ js "<td style=" ++ q (js "text-align:right;")
              ++ js ">2</td></tr></tbody></table>")).
Proof.
  split; [|split; [reflexivity|repeat split; intros fuel; vm_compute; reflexivity]].
  intros block. unfold table_block.
  destruct (split_on NL (trim block)) as [|header [|separator body]]; auto.
  destruct (test false re_table_sep separator) eqn:T; auto.
  right. exists header, separator, body. repeat split. apply table_sep_pure. exact T.
Qed.

(** * Ordered list items *)

(** Whatever the stack, the step of an ordered item appends the index
    span of its marker right after the opening [<li>]. *)
Lemma ordered_item_step (mk content : str) ind st :
  test false re_all_digits mk = true ->
  exists pre,
    fst (list_item_step ind mk content st) = pre ++ js "<li>" ++ index_span mk ++ content.
Proof.
  intros Ht. unfold list_item_step. rewrite Ht.
  destruct (pop_deeper ind (fst st) (snd st)) as [html stack].
  destruct stack as [|top below].
  - exists (html ++ js "<ol>"). cbn [fst type_name]. rewrite <- !app_assoc. reflexivity.
  - destruct (Nat.ltb (indent top) ind).
    + exists (html ++ js "<ol>"). cbn [fst type_name]. rewrite <- !app_assoc. reflexivity.
    + exists (html ++ js "</li>"). cbn [fst]. rewrite <- !app_assoc. reflexivity.
Qed.

(** C9.  The literal numeric marker of an ordered item is emitted as the
    value of the rendered item.  The step of the list pass appends the
    marker in an index span after the opening [<li>], whatever the state
    of the list, and the final replace of the block turns the span into
    the value attribute: a block of one item [mk. text] renders as
    [<ol><li value=DQmkDQ>text</li></ol>] (DQ is the double quote).
    [5. foo] renders with value 5, and the items [3.] and [7.] of one
    list keep 3 and 7. *)
Theorem ordered_item_keeps_marker (mk content : str) (d : char) :
  mk <> [] -> forallb is_digit mk = true ->
  term_free (content ++ [d]) -> is_ws d = false ->
  Forall (fun c => N.eqb c (ch "<") = false) (content ++ [d]) ->
  list_block_html (mk ++ js ". " ++ content ++ [d])
    = js "<ol><li value=" ++ q mk ++ js ">" ++ (content ++ [d]) ++ js "</li></ol>"
  /\ (forall ind st, exists pre,
        fst (list_item_step ind mk (content ++ [d]) st)
        = pre ++ js "<li>" ++ index_span mk ++ content ++ [d])
  /\ (forall fuel,
        markdownToHtml (S fuel) (js "5. foo")
        = Ok (js "<ol><li value=" ++ q (js "5") ++ js ">foo</li></ol>"))
  /\ (forall fuel,
        markdownToHtml (S fuel) (js "3. a" ++ NL :: js "   - b" ++ NL :: js "7. c")
        = Ok (js "<ol><li value=" ++ q (js "3") ++ js ">a<ul><li>b</li></ul></li>"
              ++ js "<li value=" ++ q (js "7") ++ js ">c</li></ol>")).
Proof.
  intros Hne Hd Htf Hws Hlt. split; [apply list_block_ordered; auto|].
  split; [|split; intros fuel; vm_compute; reflexivity].
  intros ind st. apply ordered_item_step. apply all_digits_test; auto.
Qed.

Lemma ordered_item_keeps_marker_witness :
  js "42" <> [] /\ forallb is_digit (js "42") = true /\
  term_free (js "the *answer*") /\ is_ws (ch "*") = false /\
  Forall (fun c => N.eqb c (ch "<") = false) (js "the *answer*") /\
  list_block_html (js "42. the *answer*")
  = js "<ol><li value=" ++ q (js "42") ++ js ">the *answer*</li></ol>".
Proof.
  assert (H1 : js "42" <> []) by discriminate.
  assert (H3 : term_free (js "the *answer*")) by (repeat constructor).
  assert (H5 : Forall (fun c => N.eqb c (ch "<") = false) (js "the *answer*"))
    by (repeat constructor).
  split; [exact H1|]. split; [reflexivity|]. split; [exact H3|].
  split; [reflexivity|]. split; [exact H5|].
  exact (proj1 (ordered_item_keeps_marker (js "42") (js "the *answer") (ch "*")
                  H1 eq_refl H3 eq_refl H5)).
Defined.

(** * Termination *)

